(** * md2pdf: a shallow embedding of the Markdown-to-HTML converter

    The development follows [md2pdf.py]: Python strings are lists of Unicode
    code points, the [str] methods and the [re] calls the converter uses are
    given as executable functions, and the three layers of the program (leaf
    utilities, inline formatter, block classifier) are translated function by
    function.  The file-level driver is modelled over an abstract file
    system. *)

From Stdlib Require Import List Bool Arith NArith Lia.
From Stdlib Require Strings.String Strings.Ascii Numbers.DecimalString Numbers.DecimalNat.
Import ListNotations.
Import String.StringSyntax Ascii.AsciiSyntax.
Local Delimit Scope string_scope with string.

Set Implicit Arguments.

(** ** Python strings *)

(** A Python [str] is a sequence of code points. *)
Definition char := N.
Definition str := list char.

Definition lit (s : String.string) : str :=
  map Ascii.N_of_ascii (String.list_ascii_of_string s).
Arguments lit s%_string.

Definition ch (s : String.string) : char := hd 0%N (lit s).
Arguments ch s%_string.

Definition chr_eqb (a b : char) : bool := N.eqb a b.

Fixpoint str_eqb (a b : str) : bool :=
  match a, b with
  | [], [] => true
  | x :: a', y :: b' => chr_eqb x y && str_eqb a' b'
  | _, _ => false
  end.

(** [s.startswith(p)] *)
Fixpoint startswith (p s : str) : bool :=
  match p, s with
  | [], _ => true
  | x :: p', y :: s' => chr_eqb x y && startswith p' s'
  | _ :: _, [] => false
  end.

(** [s.endswith(p)] *)
Definition endswith (p s : str) : bool := startswith (rev p) (rev s).

(** [c in s] for a one-character [c] *)
Definition contains_chr (c : char) (s : str) : bool := existsb (chr_eqb c) s.

(** [p in s] for a string [p] *)
Fixpoint contains (p s : str) : bool :=
  startswith p s || match s with [] => false | _ :: s' => contains p s' end.

Fixpoint drop_while (f : char -> bool) (s : str) : str :=
  match s with
  | c :: s' => if f c then drop_while f s' else s
  | [] => []
  end.

Fixpoint take_while (f : char -> bool) (s : str) : str :=
  match s with
  | c :: s' => if f c then c :: take_while f s' else []
  | [] => []
  end.

(** [s[a:]] and [s[a:-b]] *)
Definition slice_from (a : nat) (s : str) : str := skipn a s.
Definition slice (a b : nat) (s : str) : str := firstn (length s - b - a) (skipn a s).

(** [sep.join(parts)] *)
Fixpoint join (sep : str) (parts : list str) : str :=
  match parts with
  | [] => []
  | [p] => p
  | p :: rest => p ++ sep ++ join sep rest
  end.

(** [s.split(c)] for a one-character separator: always at least one field. *)
Fixpoint split_chr (c : char) (s : str) : list str :=
  match s with
  | [] => [[]]
  | x :: s' =>
    if chr_eqb x c then [] :: split_chr c s'
    else match split_chr c s' with
         | f :: fs => (x :: f) :: fs
         | [] => [[x]]
         end
  end.

(** [str(n)] for a non-negative integer *)
Definition str_of_nat (n : nat) : str :=
  map Ascii.N_of_ascii
      (String.list_ascii_of_string (DecimalString.NilEmpty.string_of_uint (Nat.to_uint n))).

(** ** Left-to-right scanning with replacement

    [re.sub] and [str.replace] share one loop: look for a match at the current
    position; on a match emit the replacement and resume after the matched
    text, otherwise copy one character.  [find st s] answers for the text [s]
    that starts at the current position with the replacement, the number of
    characters matched and the state of the replacement callback.  [skip]
    counts the characters of the current match still to be passed over.
    Every pattern of md2pdf.py consumes at least one character, so a match of
    length zero is treated as no match. *)
Section Scan.
Variable St : Type.
Variable find : St -> str -> option (str * nat * St).

Fixpoint scan_from (skip : nat) (st : St) (s : str) : str * St :=
  match s with
  | [] => ([], st)
  | c :: s' =>
    match skip with
    | S k => scan_from k st s'
    | O =>
      match find st s with
      | Some (rep, S k, st') =>
        let (out, stf) := scan_from k st' s' in (rep ++ out, stf)
      | _ =>
        let (out, stf) := scan_from 0 st s' in (c :: out, stf)
      end
    end
  end.

Definition scan (st : St) (s : str) : str * St := scan_from 0 st s.
End Scan.

(** [s.replace(old, new)] *)
Definition find_literal (old new : str) (_ : unit) (s : str) : option (str * nat * unit) :=
  if startswith old s then Some (new, length old, tt) else None.

Definition replace (old new s : str) : str :=
  match old with
  | [] => new ++ flat_map (fun c => c :: new) s
  | _ => fst (scan (find_literal old new) tt s)
  end.

(** ** HTML escaper ([escape_html]) *)
Definition escape_html (text : str) : str :=
  let text := replace (lit "&") (lit "&amp;") text in
  let text := replace (lit "<") (lit "&lt;") text in
  let text := replace (lit ">") (lit "&gt;") text in
  let text := replace [34%N] (lit "&quot;") text in
  let text := replace (lit "'") (lit "&#39;") text in
  text.


(** ** Regular expressions ([re])

    The patterns of md2pdf.py use literal characters, character classes,
    greedy repetition of a character class, concatenation, alternation and
    capture groups.  [match_k] is the backtracking matcher of [re]: it tries
    the alternatives in the order Python does (the longest repetition first,
    the left alternative first) and hands the matched text, the remaining text
    and the groups to its continuation; the first success is the match. *)
Inductive re : Type :=
| Chr (c : char)
| Cls (p : char -> bool)
| Star (p : char -> bool)
| Plus (p : char -> bool)
| Seq (a b : re)
| Alt (a b : re)
| Grp (n : nat) (a : re).

Declare Scope re_scope.
Delimit Scope re_scope with re.
Bind Scope re_scope with re.
Infix ";;" := Seq (at level 61, right associativity) : re_scope.

Definition caps := list (nat * str).

(** [match.group(n)] *)
Definition group (n : nat) (cs : caps) : str :=
  match find (fun p => Nat.eqb (fst p) n) cs with
  | Some (_, v) => v
  | None => []
  end.

Section Matcher.
Variable R : Type.

Fixpoint star_k (p : char -> bool) (s : str) (k : str -> str -> option R) : option R :=
  match s with
  | c :: s' =>
    if p c then
      match star_k p s' (fun m r => k (c :: m) r) with
      | Some x => Some x
      | None => k [] s
      end
    else k [] s
  | [] => k [] s
  end.

Fixpoint match_k (r : re) (s : str) (cs : caps)
         (k : str -> str -> caps -> option R) : option R :=
  match r with
  | Chr c =>
    match s with
    | x :: s' => if chr_eqb x c then k [x] s' cs else None
    | [] => None
    end
  | Cls p =>
    match s with
    | x :: s' => if p x then k [x] s' cs else None
    | [] => None
    end
  | Star p => star_k p s (fun m r => k m r cs)
  | Plus p =>
    match s with
    | x :: s' => if p x then star_k p s' (fun m r => k (x :: m) r cs) else None
    | [] => None
    end
  | Seq a b =>
    match_k a s cs (fun m1 r1 cs1 =>
      match_k b r1 cs1 (fun m2 r2 cs2 => k (m1 ++ m2) r2 cs2))
  | Alt a b =>
    match match_k a s cs k with
    | Some x => Some x
    | None => match_k b s cs k
    end
  | Grp n a => match_k a s cs (fun m r cs' => k m r ((n, m) :: cs'))
  end.
End Matcher.

(** [re.match(r, s)]: the matched text, the rest of [s] and the groups. *)
Definition re_match (r : re) (s : str) : option (str * str * caps) :=
  match_k r s [] (fun m rest cs => Some (m, rest, cs)).

(** [re.sub(r, repl, s)] with a callable [repl] that carries a state. *)
Definition find_re (St : Type) (r : re) (repl : St -> caps -> str * St)
           (st : St) (s : str) : option (str * nat * St) :=
  match re_match r s with
  | Some (m, _, cs) => let (rep, st') := repl st cs in Some (rep, length m, st')
  | None => None
  end.

Definition re_sub_with (St : Type) (r : re) (repl : St -> caps -> str * St)
           (st : St) (s : str) : str * St :=
  scan (find_re r repl) st s.

(** Replacement templates: literal text and group references [\n]. *)
Inductive tpl_item : Type :=
| TLit (s : str)
| TGrp (n : nat).

Definition expand (tpl : list tpl_item) (cs : caps) : str :=
  flat_map (fun i => match i with TLit s => s | TGrp n => group n cs end) tpl.

(** [re.sub(r, template, s)] *)
Definition re_sub (r : re) (tpl : list tpl_item) (s : str) : str :=
  fst (re_sub_with r (fun (_ : unit) cs => (expand tpl cs, tt)) tt s).

(** [re.sub('^' + r, '', s)]: the anchor only holds at the start of [s]. *)
Definition re_sub_bos_empty (r : re) (s : str) : str :=
  match re_match r s with
  | Some (_ :: _, rest, _) => rest
  | _ => s
  end.

Definition is_chr (c : char) : char -> bool := fun x => chr_eqb x c.
Definition not_chr (c : char) : char -> bool := fun x => negb (chr_eqb x c).
Definition in_range (lo hi : N) : char -> bool := fun x => (lo <=? x)%N && (x <=? hi)%N.

Definition dq : str := [34%N].
Definition backslash : char := 92%N.

(** ** Inline formatter ([process_inline_formatting]) *)

Definition math_op (c : char) : bool :=
  existsb (chr_eqb c) (lit "+-*/=<>^_{}\").

Definition ascii_letter (c : char) : bool :=
  in_range 97 122 c || in_range 65 90 c.

(** The Greek letters alpha to omega, small (U+03B1 to U+03C9) and capital
    (U+0391 to U+03A9). *)
Definition greek (c : char) : bool :=
  in_range 945 969 c || in_range 913 937 c.

(** [math_pattern]: a dollar, group 1, a dollar; group 1 is any run of
    non-dollar characters, then one of the characters [+-*/=<>^_{}\], or a
    backslash and ASCII letters, or a Greek letter (alpha to omega, small or
    capital), then any run of non-dollar characters. *)
Definition math_pattern : re :=
  (Chr (ch "$") ;;
   Grp 1 (Star (not_chr (ch "$")) ;;
          Alt (Cls math_op) (Alt (Chr backslash ;; Plus ascii_letter) (Cls greek)) ;;
          Star (not_chr (ch "$"))) ;;
   Chr (ch "$"))%re.

(** Two stars, group 1 = one or more non-star characters, two stars. *)
Definition bold_pattern : re :=
  (Chr (ch "*") ;; Chr (ch "*") ;; Grp 1 (Plus (not_chr (ch "*"))) ;;
   Chr (ch "*") ;; Chr (ch "*"))%re.

Definition bold_template : list tpl_item :=
  [TLit (lit "<strong>"); TGrp 1; TLit (lit "</strong>")].

(** A star, group 1 = one or more non-star characters, a star. *)
Definition italic_pattern : re :=
  (Chr (ch "*") ;; Grp 1 (Plus (not_chr (ch "*"))) ;; Chr (ch "*"))%re.

Definition italic_template : list tpl_item :=
  [TLit (lit "<em>"); TGrp 1; TLit (lit "</em>")].

(** A backtick, group 1 = one or more non-backtick characters, a backtick. *)
Definition code_pattern : re :=
  (Chr (ch "`") ;; Grp 1 (Plus (not_chr (ch "`"))) ;; Chr (ch "`"))%re.

Definition code_template : list tpl_item :=
  [TLit (lit "<code>"); TGrp 1; TLit (lit "</code>")].

(** [![alt](url)]: group 1 = any run of characters other than the closing
    bracket, group 2 = one or more characters other than the closing
    parenthesis. *)
Definition image_pattern : re :=
  (Chr (ch "!") ;; Chr (ch "[") ;; Grp 1 (Star (not_chr (ch "]"))) ;;
   Chr (ch "]") ;; Chr (ch "(") ;; Grp 2 (Plus (not_chr (ch ")"))) ;;
   Chr (ch ")"))%re.

Definition image_template : list tpl_item :=
  [TLit (lit "<img src=" ++ dq); TGrp 2; TLit (dq ++ lit " alt=" ++ dq); TGrp 1;
   TLit (dq ++ lit " style=" ++ dq ++
         lit "max-width: 100%; height: auto; display: block; margin: 20px auto; border: 1px solid #ddd; border-radius: 5px; box-shadow: 0 2px 8px rgba(0,0,0,0.1);"
         ++ dq ++ lit " />")].

(** [[text](url)]: group 1 = one or more characters other than the closing
    bracket, group 2 = one or more characters other than the closing
    parenthesis. *)
Definition link_pattern : re :=
  (Chr (ch "[") ;; Grp 1 (Plus (not_chr (ch "]"))) ;;
   Chr (ch "]") ;; Chr (ch "(") ;; Grp 2 (Plus (not_chr (ch ")"))) ;;
   Chr (ch ")"))%re.

Definition link_template : list tpl_item :=
  [TLit (lit "<a href=" ++ dq); TGrp 2; TLit (dq ++ lit ">"); TGrp 1; TLit (lit "</a>")].

(** The closure state of [protect_math]: the dict [math_placeholders], in
    insertion order, and [math_counter]. *)
Record math_state : Type := {
  math_placeholders : list (str * str);
  math_counter : nat
}.

(** [d[k] = v] on an insertion-ordered dict *)
Fixpoint dict_set (k v : str) (d : list (str * str)) : list (str * str) :=
  match d with
  | [] => [(k, v)]
  | (k', v') :: d' => if str_eqb k' k then (k', v) :: d' else (k', v') :: dict_set k v d'
  end.

Definition placeholder_of (n : nat) : str :=
  lit "__MATH_PLACEHOLDER_" ++ str_of_nat n ++ lit "__".

Definition protect_math (st : math_state) (m : caps) : str * math_state :=
  let placeholder := placeholder_of (math_counter st) in
  let math_content := group 1 m in
  (placeholder,
   {| math_placeholders :=
        dict_set placeholder (lit "\(" ++ math_content ++ lit "\)") (math_placeholders st);
      math_counter := S (math_counter st) |}).

Definition math_state0 : math_state :=
  {| math_placeholders := []; math_counter := 0 |}.

(** The loop that restores the protected spans. *)
Definition restore_math (d : list (str * str)) (text : str) : str :=
  fold_left (fun t kv => replace (fst kv) (snd kv) t) d text.

(** The formatter up to and including the italic rewrite, the code-span
    rewrite, and what follows it. *)
Definition before_code (text : str) : str * list (str * str) :=
  let (text, st) := re_sub_with math_pattern protect_math math_state0 text in
  let text := re_sub bold_pattern bold_template text in
  let text := re_sub italic_pattern italic_template text in
  (text, math_placeholders st).

Definition code_rewrite (text : str) : str := re_sub code_pattern code_template text.

Definition after_code (d : list (str * str)) (text : str) : str :=
  let text := re_sub image_pattern image_template text in
  let text := re_sub link_pattern link_template text in
  restore_math d text.

Definition process_inline_formatting (text : str) : str :=
  let (text, d) := before_code text in
  after_code d (code_rewrite text).

(** ** Unicode tables

    [str.strip], [str.lower] and the classes [\s], [\d] and [\w] of [re]
    consult the Unicode database of the Python runtime.  Their values on ASCII
    are written out; beyond ASCII they are taken from [unicode_db]. *)
Record unicode_db : Type := {
  uni_isspace : char -> bool;
  uni_isdecimal : char -> bool;
  uni_isalnum : char -> bool;
  uni_lower : str -> str
}.

Definition is_ascii (c : char) : bool := (c <? 128)%N.

Definition ascii_lower (c : char) : char :=
  if in_range 65 90 c then (c + 32)%N else c.

(** A database for texts that stay within ASCII: it is never consulted on
    them. *)
Definition ascii_db : unicode_db :=
  {| uni_isspace := fun _ => false;
     uni_isdecimal := fun _ => false;
     uni_isalnum := fun _ => false;
     uni_lower := fun s => s |}.

Section Converter.
Variable U : unicode_db.

(** [c.isspace()], also the class [\s] *)
Definition isspace (c : char) : bool :=
  if is_ascii c then in_range 9 13 c || in_range 28 32 c else uni_isspace U c.

(** the class [\d] *)
Definition isdigit (c : char) : bool :=
  if is_ascii c then in_range 48 57 c else uni_isdecimal U c.

(** the class [\w] *)
Definition isword (c : char) : bool :=
  if is_ascii c then
    in_range 48 57 c || in_range 65 90 c || in_range 97 122 c || chr_eqb c (ch "_")
  else uni_isalnum U c.

(** [s.lower()] *)
Definition lower (s : str) : str :=
  if forallb is_ascii s then map ascii_lower s else uni_lower U s.

(** [s.strip()] and [s.strip(c)] *)
Definition strip_with (f : char -> bool) (s : str) : str :=
  rev (drop_while f (rev (drop_while f s))).

Definition strip (s : str) : str := strip_with isspace s.

(** ** Slug generator ([generate_id]) *)

(** the class of characters that are neither [\w] nor in U+4E00..U+9FFF *)
Definition not_word_or_cjk (c : char) : bool :=
  negb (isword c || in_range 19968 40959 c).

Definition generate_id (text : str) : str :=
  let clean_text := re_sub (Cls not_word_or_cjk) [TLit (lit "-")] text in
  let clean_text := re_sub (Plus (is_chr (ch "-"))) [TLit (lit "-")] clean_text in
  let clean_text := strip_with (is_chr (ch "-")) clean_text in
  match clean_text with
  | [] => lit "heading"
  | _ => lower clean_text
  end.

(** ** Block classifier ([convert_md_to_html_body]) *)

Record conv_state : Type := {
  in_code_block : bool;
  in_math_block : bool;
  code_language : str;
  html_lines : list str
}.

Definition append_html (st : conv_state) (frags : list str) : conv_state :=
  {| in_code_block := in_code_block st;
     in_math_block := in_math_block st;
     code_language := code_language st;
     html_lines := html_lines st ++ frags |}.

(** The branch of the loop body that handled the line at the cursor. *)
Inductive block_kind : Type :=
| CodeFence | CodeLine | MathBlock | MathFence | MathLine | Heading
| UnorderedList | Table | OrderedList | Blockquote | Blank | Paragraph.

Definition fence : str := lit "```".

Definition is_blank (line : str) : bool := str_eqb (strip line) [].

Definition is_single_line_math (line : str) : bool :=
  startswith (lit "$$") (strip line) && endswith (lit "$$") (strip line)
  && (4 <? length (strip line)).

Definition is_math_fence (line : str) : bool := str_eqb (strip line) (lit "$$").

Definition is_heading (line : str) : bool := startswith (lit "#") line.

Definition is_ul_item (line : str) : bool :=
  startswith (lit "- ") (strip line) || startswith (lit "* ") (strip line).

Definition is_table_start (line : str) : bool :=
  contains_chr (ch "|") line && startswith (lit "|") (strip line)
  && endswith (lit "|") (strip line).

(** "^\d+\.\s" *)
Definition ol_pattern : re := (Plus isdigit ;; Chr (ch ".") ;; Cls isspace)%re.

Definition is_some (A : Type) (o : option A) : bool :=
  match o with Some _ => true | None => false end.

Definition is_ol_item (line : str) : bool := is_some (re_match ol_pattern (strip line)).

Definition is_quote (line : str) : bool := startswith (lit ">") (strip line).

(** the [for char in line] loop that counts the leading hashes *)
Fixpoint heading_level (line : str) : nat :=
  match line with
  | c :: line' => if chr_eqb c (ch "#") then S (heading_level line') else 0
  | [] => 0
  end.

Definition heading_fragment (line : str) : str :=
  let level := heading_level line in
  let title_text := strip (slice_from level line) in
  let title_id := generate_id title_text in
  lit "<h" ++ str_of_nat level ++ lit " id=" ++ dq ++ title_id ++ dq ++ lit ">"
  ++ process_inline_formatting title_text
  ++ lit "</h" ++ str_of_nat level ++ lit ">".

(** the inner [while] of the unordered list: the items and the lines left *)
Fixpoint ul_loop (lines : list str) : list str * list str :=
  match lines with
  | l :: lines' =>
    if is_ul_item l then
      let item_text := slice_from 2 (strip l) in
      let (items, rest) := ul_loop lines' in
      ((lit "<li>" ++ process_inline_formatting item_text ++ lit "</li>") :: items, rest)
    else ([], lines)
  | [] => ([], [])
  end.

(** the [while] that collects the table lines *)
Fixpoint table_collect (lines : list str) : list str * list str :=
  match lines with
  | l :: lines' =>
    if contains_chr (ch "|") l then
      let (table_lines, rest) := table_collect lines' in (strip l :: table_lines, rest)
    else ([], lines)
  | [] => ([], [])
  end.

(** [[cell.strip() for cell in row.split('|')[1:-1]]] *)
Definition table_cells (row : str) : list str :=
  map strip (removelast (tl (split_chr (ch "|") row))).

Definition table_row (tag : str) (row : str) : list str :=
  [lit "<tr>"]
  ++ map (fun cell => lit "<" ++ tag ++ lit ">" ++ process_inline_formatting cell
                      ++ lit "</" ++ tag ++ lit ">") (table_cells row)
  ++ [lit "</tr>"].

Definition table_fragments (table_lines : list str) : list str :=
  match table_lines with
  | [] => []
  | header_row :: _ =>
    let data_start :=
      match table_lines with
      | _ :: second :: _ => if contains (lit "---") second then 2 else 1
      | _ => 1
      end in
    [lit "<table>"]
    ++ ([lit "<thead>"] ++ table_row (lit "th") header_row ++ [lit "</thead>"])
    ++ (if data_start <? length table_lines then
          [lit "<tbody>"]
          ++ flat_map (table_row (lit "td")) (skipn data_start table_lines)
          ++ [lit "</tbody>"]
        else [])
    ++ [lit "</table>"]
  end.

Definition math_div (math_content : str) : str :=
  lit "<div class=" ++ dq ++ lit "math-block" ++ dq ++ lit ">$$" ++ math_content
  ++ lit "$$</div>".

(** an indented line: three leading spaces or a leading tab *)
Definition is_indented (line : str) : bool :=
  startswith (lit "   ") line || startswith [9%N] line.

(** what an indented line adds to the item it continues *)
Definition ol_continuation (next_line : str) : str :=
  let content := strip next_line in
  if startswith (lit "$$") content && endswith (lit "$$") content then
    math_div (slice 2 2 content)
  else process_inline_formatting content.

(** the inner [while] of an ordered-list item: blank lines are skipped,
    indented lines are added to the item, any other line ends the item *)
Fixpoint ol_item_loop (lines : list str) (item_content : list str) : list str * list str :=
  match lines with
  | next_line :: lines' =>
    if is_blank next_line then ol_item_loop lines' item_content
    else if is_indented next_line then
      ol_item_loop lines' (item_content ++ [ol_continuation next_line])
    else (item_content, lines)
  | [] => (item_content, [])
  end.

(** the first piece of an item and the fragment of a finished item *)
Definition ol_item_head (current_line : str) : str :=
  process_inline_formatting (re_sub_bos_empty ol_pattern current_line).

Definition ol_item_fragment (item_content : list str) : str :=
  lit "<li>" ++ concat item_content ++ lit "</li>".

(** the outer [while] of the ordered list; [fuel] bounds its iterations *)
Fixpoint ol_loop (fuel : nat) (lines : list str) (out : list str)
  : option (list str * list str) :=
  match lines with
  | [] => Some (out, [])
  | l :: lines' =>
    match fuel with
    | 0 => None
    | S fuel' =>
      let current_line := strip l in
      if is_some (re_match ol_pattern current_line) then
        let (item_content, rest) := ol_item_loop lines' [ol_item_head current_line] in
        ol_loop fuel' rest (out ++ [ol_item_fragment item_content])
      else if str_eqb current_line [] then
        match lines' with
        | l' :: _ => if is_ol_item l' then ol_loop fuel' lines' out else Some (out, lines')
        | [] => Some (out, lines')
        end
      else Some (out, lines)
    end
  end.

(** the [while] of the blockquote *)
Fixpoint quote_loop (lines : list str) : list str * list str :=
  match lines with
  | l :: lines' =>
    if is_quote l then
      let quote_text := strip (slice_from 1 (strip l)) in
      let (ps, rest) := quote_loop lines' in
      ((lit "<p>" ++ process_inline_formatting quote_text ++ lit "</p>") :: ps, rest)
    else ([], lines)
  | [] => ([], [])
  end.

(** the guard of the paragraph [while] *)
Definition paragraph_continues (l : str) : bool :=
  negb (is_blank l) && negb (startswith (lit "#") l) && negb (is_ul_item l)
  && negb (is_ol_item l) && negb (is_quote l) && negb (startswith fence l).

(** The paragraph rule in the words of the specification: a line that
    matches none of the markers ranked above the paragraph. *)
Definition matches_no_marker (l : str) : bool :=
  negb (startswith fence l) && negb (is_single_line_math l) && negb (is_math_fence l)
  && negb (is_heading l) && negb (is_ul_item l) && negb (is_table_start l)
  && negb (is_ol_item l) && negb (is_quote l) && negb (is_blank l).

Fixpoint paragraph_loop (lines : list str) : list str * list str :=
  match lines with
  | l :: lines' =>
    if paragraph_continues l then
      let (ps, rest) := paragraph_loop lines' in (l :: ps, rest)
    else ([], lines)
  | [] => ([], [])
  end.

Definition set_code (st : conv_state) (b : bool) (lang : str) (frags : list str) : conv_state :=
  {| in_code_block := b; in_math_block := in_math_block st;
     code_language := lang; html_lines := html_lines st ++ frags |}.

Definition set_math (st : conv_state) (b : bool) (frags : list str) : conv_state :=
  {| in_code_block := in_code_block st; in_math_block := b;
     code_language := code_language st; html_lines := html_lines st ++ frags |}.

(** One iteration of the main [while]: the branch taken, the new state and
    the lines from the new cursor on.  [lines] is never empty here. *)
Definition step (st : conv_state) (lines : list str)
  : option (block_kind * conv_state * list str) :=
  match lines with
  | [] => None
  | line :: rest =>
    if startswith fence line then
      if negb (in_code_block st) then
        let lang := strip (slice_from 3 line) in
        Some (CodeFence,
              set_code st true lang
                [lit "<pre><code class=" ++ dq ++ lit "language-" ++ lang ++ dq ++ lit ">"],
              rest)
      else
        Some (CodeFence, set_code st false (code_language st) [lit "</code></pre>"], rest)
    else if in_code_block st then
      Some (CodeLine, append_html st [escape_html line], rest)
    else if is_single_line_math line then
      Some (MathBlock, append_html st [math_div (slice 2 2 (strip line))], rest)
    else if is_math_fence line then
      if negb (in_math_block st) then
        Some (MathFence,
              set_math st true [lit "<div class=" ++ dq ++ lit "math-block" ++ dq ++ lit ">$$"],
              rest)
      else
        Some (MathFence, set_math st false [lit "$$</div>"], rest)
    else if in_math_block st then
      Some (MathLine, append_html st [line], rest)
    else if is_heading line then
      Some (Heading, append_html st [heading_fragment line], rest)
    else if is_ul_item line then
      let (items, rest') := ul_loop lines in
      Some (UnorderedList, append_html st ([lit "<ul>"] ++ items ++ [lit "</ul>"]), rest')
    else if is_table_start line then
      let (table_lines, rest') := table_collect lines in
      Some (Table, append_html st (table_fragments table_lines), rest')
    else if is_ol_item line then
      match ol_loop (length lines) lines [] with
      | Some (items, rest') =>
        Some (OrderedList, append_html st ([lit "<ol>"] ++ items ++ [lit "</ol>"]), rest')
      | None => None
      end
    else if is_quote line then
      let (ps, rest') := quote_loop lines in
      Some (Blockquote,
            append_html st ([lit "<blockquote>"] ++ ps ++ [lit "</blockquote>"]), rest')
    else if is_blank line then
      Some (Blank, append_html st [[]], rest)
    else
      let (paragraph_lines, rest') := paragraph_loop lines in
      match paragraph_lines with
      | [] => Some (Paragraph, st, rest')
      | _ =>
        let paragraph_text := join (lit " ") paragraph_lines in
        Some (Paragraph,
              append_html st
                [lit "<p>" ++ process_inline_formatting paragraph_text ++ lit "</p>"],
              rest')
      end
  end.

(** The main [while i < len(lines)]; [fuel] bounds its iterations. *)
Fixpoint convert_loop (fuel : nat) (st : conv_state) (lines : list str)
  : option conv_state :=
  match lines with
  | [] => Some st
  | _ :: _ =>
    match fuel with
    | 0 => None
    | S fuel' =>
      match step st lines with
      | Some (_, st', lines') => convert_loop fuel' st' lines'
      | None => None
      end
    end
  end.

Definition conv_state0 : conv_state :=
  {| in_code_block := false; in_math_block := false; code_language := [];
     html_lines := [] |}.

Definition newline : char := 10%N.

Definition convert_lines (lines : list str) : option (list str) :=
  option_map html_lines (convert_loop (length lines) conv_state0 lines).

Definition convert_md_to_html_body (md_content : str) : option str :=
  option_map (join [newline]) (convert_lines (split_chr newline md_content)).

(** The fragment that opens a fenced code block. *)
Definition code_open_fragment (fence_line : str) : str :=
  lit "<pre><code class=" ++ dq ++ lit "language-"
  ++ strip (slice_from 3 fence_line) ++ dq ++ lit ">".

(** ** Document assembly ([markdown_to_html])

    The presentation shell is fixed text emitted around the body. *)
Variable html_template_start html_template_end : str.

Definition markdown_to_html (md_content : str) : option str :=
  option_map (fun html_body => html_template_start ++ html_body ++ html_template_end)
             (convert_md_to_html_body md_content).

(** ** File-level conversion ([convert_markdown_to_html])

    The files and the console live in a world [W].  Opening and reading the
    source either yields its text or raises [FileNotFoundError] or another
    exception; opening and writing the destination yields the world after
    the attempt and whether it succeeded; [print] yields the world after the
    attempt and whether the line was printed: it raises when the stream
    refuses the text.  [path_with_html] is the default destination, the
    source path with its extension replaced. *)
Definition path := str.

Inductive read_result : Type :=
| ReadOk (md_content : str)
| ReadNotFound
| ReadError.

(** The lines the program prints: those of [convert_markdown_to_html] (source
    not found, read error, destination written, write error) and those of
    [main] (title, rule, input path, missing input, the list of the Markdown
    files and its entries, completion, the usage note (its title is line 0,
    its five steps are the lines 1 to 5), failure). *)
Inductive message : Type :=
| MsgNotFound (p : path)
| MsgReadError
| MsgWritten (p : path)
| MsgWriteError
| MsgTitle
| MsgRule
| MsgInput (p : path)
| MsgNoInput (p : path)
| MsgAvailable
| MsgFile (name : str)
| MsgComplete
| MsgUsage (line : nat)
| MsgFailed.

Record file_system (W : Type) : Type := {
  read_file : path -> W -> read_result;
  write_file : path -> str -> W -> W * bool;
  path_with_html : path -> path;
  print_line : message -> W -> W * bool
}.

(** How a call ends: it returns a value, an exception leaves it, or it does
    not return. *)
Inductive outcome (A W : Type) : Type :=
| Returned (result : A) (w : W)
| Raised (w : W)
| Diverged.
Arguments Raised {A W} w.
Arguments Diverged {A W}.

Variable W : Type.
Variable FS : file_system W.

(** [print(m); return result]: the exception of a [print] outside a [try]
    leaves the function. *)
Definition print_and_return (A : Type) (m : message) (result : A) (w : W) : outcome A W :=
  let (w', printed) := print_line FS m w in
  if printed then Returned result w' else Raised w'.

Definition convert_markdown_to_html (md_file_path : path) (output_html_path : option path)
           (w : W) : outcome bool W :=
  match read_file FS md_file_path w with
  | ReadNotFound => print_and_return (MsgNotFound md_file_path) false w
  | ReadError => print_and_return MsgReadError false w
  | ReadOk md_content =>
    let output_html_path :=
      match output_html_path with
      | None => path_with_html FS md_file_path
      | Some p => p
      end in
    match markdown_to_html md_content with
    | None => Diverged
    | Some html_content =>
      let (w', ok) := write_file FS output_html_path html_content w in
      if ok then
        (* the [print] of the success is inside the [try] *)
        let (w'', printed) := print_line FS (MsgWritten output_html_path) w' in
        if printed then Returned true w''
        else print_and_return MsgWriteError false w''
      else print_and_return MsgWriteError false w'
    end
  end.

End Converter.

Arguments Raised {A W} w.
Arguments Diverged {A W}.

(** ** Command line ([main])

    The script runs in an environment that knows the directory of the
    script, joins a directory and a file name ([current_dir / name], as
    text), tells whether a path exists and lists the Markdown files of a
    directory. *)
Record script_env (W : Type) : Type := {
  current_dir : path;
  path_join : path -> str -> path;
  path_exists : path -> W -> bool;
  glob_md : path -> W -> list str
}.

(** The name of the input file: [sys.argv[1]], with ".md" added unless it
    ends with it, or the default name. *)
Definition main_file_name (argv : list str) : str :=
  match argv with
  | _ :: md_filename :: _ =>
    if negb (endswith (lit ".md") md_filename) then md_filename ++ lit ".md"
    else md_filename
  | _ => lit "model_comparison_report.md"
  end.

Section Driver.
Variable U : unicode_db.
Variable html_template_start html_template_end : str.
Variable W : Type.
Variable FS : file_system W.
Variable ENV : script_env W.

(** A sequence of [print] calls: it stops at the first one that raises. *)
Fixpoint print_all (ms : list message) (w : W) : W * bool :=
  match ms with
  | [] => (w, true)
  | m :: ms' =>
    let (w', printed) := print_line FS m w in
    if printed then print_all ms' w' else (w', false)
  end.

(** [main] has no [try]: an exception of one of its calls to [print], or one
    that leaves the conversion, leaves [main]. *)
Definition main (argv : list str) (w : W) : outcome unit W :=
  let md_file_path := path_join ENV (current_dir ENV) (main_file_name argv) in
  let (w1, printed) := print_all [MsgTitle; MsgRule; MsgInput md_file_path] w in
  if negb printed then Raised w1
  else if negb (path_exists ENV md_file_path w1) then
    let (w2, printed) := print_all [MsgNoInput md_file_path; MsgAvailable] w1 in
    if negb printed then Raised w2
    else
      let (w3, printed) := print_all (map MsgFile (glob_md ENV (current_dir ENV) w2)) w2 in
      if printed then Returned tt w3 else Raised w3
  else
    match convert_markdown_to_html U html_template_start html_template_end FS
            md_file_path None w1 with
    | Returned success w2 =>
      let (w3, printed) :=
        print_all (if success
                   then [MsgComplete; MsgUsage 0; MsgUsage 1; MsgUsage 2; MsgUsage 3;
                         MsgUsage 4; MsgUsage 5]
                   else [MsgFailed]) w2 in
      if printed then Returned tt w3 else Raised w3
    | Raised w2 => Raised w2
    | Diverged => Diverged
    end.

End Driver.

Unset Implicit Arguments.

(** * Vocabulary of the statements *)

(** The five characters [escape_html] rewrites. *)
Definition html_special : str := lit "&<>" ++ dq ++ lit "'".

(** What [s.replace(c, new)] makes of one character [x], for a one-character
    [c]. *)
Definition subst_chr (c : char) (new : str) (x : char) : str :=
  if chr_eqb x c then new else [x].

(** A line that does not start with the code fence. *)
Definition no_fence (l : str) : bool := negb (startswith fence l).

(** [occurs p s]: the text [p] occurs in [s]. *)
Definition occurs (p s : str) : Prop := exists u v, s = u ++ p ++ v.

(** [avoids D s]: no character of [s] is in the class [D]. *)
Definition avoids (D : char -> bool) (s : str) : Prop :=
  forallb (fun c => negb (D c)) s = true.

Definition is_dollar : char -> bool := is_chr (ch "$").
Definition is_star : char -> bool := is_chr (ch "*").
Definition is_backtick : char -> bool := is_chr (ch "`").
Definition is_bracket (c : char) : bool :=
  chr_eqb c (ch "[") || chr_eqb c (ch "]") || chr_eqb c (ch "(") || chr_eqb c (ch ")").

(** A character that makes a dollar-delimited span a protected one: an
    operator or structural character (the backslash is one of them, so a
    backslash-escaped word counts through its backslash) or a Greek letter. *)
Definition math_trigger (c : char) : bool := math_op c || greek c.

(** A math span with the parenthesis delimiters, and a code span. *)
Definition math_value (g : str) : str := lit "\(" ++ g ++ lit "\)".
Definition code_span (c : str) : str := lit "<code>" ++ c ++ lit "</code>".

(** The text every placeholder token starts with. *)
Definition ph_prefix : str := lit "__MATH_PLACEHOLDER_".

(** The characters a token is made of. *)
Definition ph_char (c : char) : bool :=
  chr_eqb c (ch "_") || in_range 65 90 c || in_range 48 57 c.

(** An entry made by [protect_math] from a span of [text]. *)
Definition entry_of (text : str) (kv : str * str) : Prop :=
  exists j g, fst kv = placeholder_of j /\ snd kv = lit "\(" ++ g ++ lit "\)"
              /\ occurs g text.

(** An entry whose value holds no token prefix. *)
Definition clean_entry (kv : str * str) : Prop :=
  (exists j, fst kv = placeholder_of j) /\
  (exists g, snd kv = math_value g /\ ~ occurs ph_prefix g).

(** [Matches r m cs cs']: the pattern [r] can match exactly the text [m],
    turning the groups [cs] into [cs']. *)
Inductive Matches : re -> str -> caps -> caps -> Prop :=
| M_Chr c cs : Matches (Chr c) [c] cs cs
| M_Cls p x cs : p x = true -> Matches (Cls p) [x] cs cs
| M_Star p m cs : forallb p m = true -> Matches (Star p) m cs cs
| M_Plus p x m cs : p x = true -> forallb p m = true -> Matches (Plus p) (x :: m) cs cs
| M_Seq a b m1 m2 cs cs1 cs2 :
    Matches a m1 cs cs1 -> Matches b m2 cs1 cs2 -> Matches (Seq a b) (m1 ++ m2) cs cs2
| M_AltL a b m cs cs' : Matches a m cs cs' -> Matches (Alt a b) m cs cs'
| M_AltR a b m cs cs' : Matches b m cs cs' -> Matches (Alt a b) m cs cs'
| M_Grp n a m cs cs' : Matches a m cs cs' -> Matches (Grp n a) m cs ((n, m) :: cs').

(** The replacement callback of [re.sub] with a template. *)
Definition pure_repl (tpl : list tpl_item) (_ : unit) (cs : caps) : str * unit :=
  (expand tpl cs, tt).

(** A matched text as segments: a possibly empty run of characters and the
    delimiter that ends it. *)
Definition flat_segments (segs : list (str * char)) : str :=
  flat_map (fun gd => fst gd ++ [snd gd]) segs.

(** No occurrence of [k] starts inside [acc] when [s] follows it. *)
Definition none_starts_in (k acc s : str) : Prop :=
  forall a1 a2, acc = a1 ++ a2 -> a2 <> [] -> startswith k (a2 ++ s) = false.

(** Where the scan of [s] finds no [old], no [k] starts either. *)
Definition miss_clear (old k s : str) : Prop :=
  forall s1 s2, s = s1 ++ s2 -> startswith old s2 = false -> startswith k s2 = false.

(** The core of every placeholder token, and a text that does not hold
    it. *)
Definition ph_core : str := lit "MATH_PLACEHOLDER".

Definition plain (x : str) : Prop := ~ occurs ph_core x.

(** [Tokenized js t]: the text [t] is made of plain stretches with the tokens
    numbered [js] between them, in this order. *)
Inductive Tokenized : list nat -> str -> Prop :=
| Tok_nil x : plain x -> Tokenized [] x
| Tok_cons x j js t :
    plain x -> Tokenized js t -> Tokenized (j :: js) (x ++ placeholder_of j ++ t).

(** A tokenized text that starts and ends with characters no token holds. *)
Definition Bounded (js : list nat) (s : str) : Prop :=
  Tokenized js s /\ s <> [] /\ ph_char (hd 0%N s) = false /\ ph_char (last s 0%N) = false.

(** Literal text of a replacement. *)
Definition literal_ok (l : str) : Prop :=
  contains ph_core l = false /\ l <> [] /\
  ph_char (hd 0%N l) = false /\ ph_char (last l 0%N) = false.

(** The dict while the protection pass runs: one entry for each token put
    into the text so far, numbered below the counter. *)
Definition protect_inv (st : math_state) (acc : str) : Prop :=
  (forall kv, In kv (math_placeholders st) ->
     exists j, fst kv = placeholder_of j /\ j < math_counter st /\
               occurs (placeholder_of j) acc) /\
  NoDup (map fst (math_placeholders st)).

(** A protected span and the text that follows it up to the next dollar:
    neither holds a dollar, and the span holds a character that makes it
    protected. *)
Definition span_ok (mx : str * str) : bool :=
  forallb (fun c => negb (is_dollar c)) (fst mx) && existsb math_trigger (fst mx)
  && forallb (fun c => negb (is_dollar c)) (snd mx).

(** The spans one after another, each between two dollars and followed by
    its text. *)
Definition layout (spans : list (str * str)) : str :=
  flat_map (fun mx => ch "$" :: fst mx ++ ch "$" :: snd mx) spans.

(** A code span and the text that follows it up to the next backtick: the
    span is not empty, and neither holds a backtick. *)
Definition code_span_ok (cx : str * str) : bool :=
  match fst cx with [] => false | _ :: _ => true end
  && forallb (fun c => negb (is_backtick c)) (fst cx)
  && forallb (fun c => negb (is_backtick c)) (snd cx).

(** The code spans one after another, each between two backticks and
    followed by its text, and what the rewrite makes of them. *)
Definition code_layout (spans : list (str * str)) : str :=
  flat_map (fun cx => ch "`" :: fst cx ++ ch "`" :: snd cx) spans.

Definition code_rendered (spans : list (str * str)) : str :=
  flat_map (fun cx => code_span (fst cx) ++ snd cx) spans.

(** What [escape_html] makes of one character. *)
Definition entity_of (c : char) : str :=
  if chr_eqb c (ch "&") then lit "&amp;"
  else if chr_eqb c (ch "<") then lit "&lt;"
  else if chr_eqb c (ch ">") then lit "&gt;"
  else if chr_eqb c 34%N then lit "&quot;"
  else if chr_eqb c (ch "'") then lit "&#39;"
  else [c].

(** Runs of characters of the class [p] replaced by [l]; [inside] tells that
    the current position continues a run. *)
Fixpoint squeeze (p : char -> bool) (l : str) (inside : bool) (s : str) : str :=
  match s with
  | [] => []
  | x :: s' =>
    if p x then (if inside then squeeze p l true s' else l ++ squeeze p l true s')
    else x :: squeeze p l false s'
  end.

(** The characters of an ASCII slug: small letters, digits, the underscore
    and the hyphen. *)
Definition slug_char (c : char) : bool :=
  in_range 97 122 c || in_range 48 57 c || chr_eqb c (ch "_") || chr_eqb c (ch "-").

Definition is_hyphen : char -> bool := is_chr (ch "-").

(** What the slug is made of before it is put in lower case: ASCII word
    characters and hyphens. *)
Definition pre_slug_char (U : unicode_db) (c : char) : bool :=
  is_ascii c && (isword U c || is_hyphen c).

(** The shape of a slug: it is not empty, made of small letters, digits,
    underscores and hyphens, it neither starts nor ends with a hyphen and
    holds no two hyphens in a row. *)
Definition slug_shape (r : str) : Prop :=
  r <> [] /\ forallb slug_char r = true /\
  is_hyphen (hd 0%N r) = false /\ is_hyphen (last r 0%N) = false /\
  ~ occurs (lit "--") r.

(** The characters that can start an inline rewrite: the dollar, the star,
    the backtick and the opening bracket. *)
Definition inline_special (c : char) : bool :=
  chr_eqb c (ch "$") || chr_eqb c (ch "*") || chr_eqb c (ch "`") || chr_eqb c (ch "[").

(** A line of a math block that is copied: it is no code fence, no math
    block of one line and no math fence. *)
Definition math_body_line (U : unicode_db) (l : str) : bool :=
  no_fence l && negb (is_single_line_math U l) && negb (is_math_fence U l).

(** The state after a step that only changes the flags and adds fragments. *)
Definition with_flags (st : conv_state) (code math : bool) (lang : str)
           (frags : list str) : conv_state :=
  {| in_code_block := code; in_math_block := math; code_language := lang;
     html_lines := html_lines st ++ frags |}.

Definition ul_item_fragment (U : unicode_db) (l : str) : str :=
  lit "<li>" ++ process_inline_formatting (slice_from 2 (strip U l)) ++ lit "</li>".

Definition quote_fragment (U : unicode_db) (l : str) : str :=
  lit "<p>" ++ process_inline_formatting (strip U (slice_from 1 (strip U l))) ++ lit "</p>".

(** The first line after a run: there is none, or it does not belong to the
    run. *)
Definition run_ends (p : str -> bool) (rest : list str) : Prop :=
  match rest with [] => True | l :: _ => p l = false end.

(** The number of lines that start with the code fence. *)
Definition fence_count (lines : list str) : nat :=
  length (filter (startswith fence) lines).

(** A file system in memory, for the examples: a file is missing unless it
    is listed, and nothing can be written under [/ro/]; printing leaves the
    files as they are. *)
Definition mem_world : Type := list (path * str).

Fixpoint mem_lookup (p : path) (w : mem_world) : option str :=
  match w with
  | [] => None
  | (q, content) :: w' => if str_eqb q p then Some content else mem_lookup p w'
  end.

(** The default destination, for the paths of the examples: the extension of
    the last component, if it has one, gives way to ".html". *)
Definition mem_html_path (p : path) : path :=
  let r := rev p in
  let ext := take_while (fun c => negb (chr_eqb c (ch ".")) && negb (chr_eqb c (ch "/"))) r in
  match ext, skipn (length ext) r with
  | _ :: _, c :: c' :: stem_rev =>
    if chr_eqb c (ch ".") && negb (chr_eqb c' (ch "/"))
    then rev (c' :: stem_rev) ++ lit ".html"
    else p ++ lit ".html"
  | _, _ => p ++ lit ".html"
  end.

(** [console] tells the lines the console accepts. *)
Definition mem_fs_with (console : message -> bool) : file_system mem_world :=
  {| read_file := fun p w =>
       match mem_lookup p w with
       | Some content => ReadOk content
       | None => ReadNotFound
       end;
     write_file := fun p content w =>
       if startswith (lit "/ro/") p then (w, false) else ((p, content) :: w, true);
     path_with_html := mem_html_path;
     print_line := fun m w => (w, console m) |}.

Definition mem_fs : file_system mem_world := mem_fs_with (fun _ => true).

(** A console that refuses the line that names the destination. *)
Definition strict_console (m : message) : bool :=
  match m with MsgWritten _ => false | _ => true end.

(** An environment over the file system in memory, for the examples. *)
Definition mem_env : script_env mem_world :=
  {| current_dir := lit "/docs";
     path_join := fun d name => d ++ lit "/" ++ name;
     path_exists := fun p w => is_some (mem_lookup p w);
     glob_md := fun _ w => map fst w |}.

(** * Properties *)

(** ** Characters and strings *)

Lemma chr_eqb_eq a b : chr_eqb a b = true <-> a = b.
Proof. apply N.eqb_eq. Qed.

Lemma chr_eqb_neq a b : chr_eqb a b = false <-> a <> b.
Proof. apply N.eqb_neq. Qed.

Lemma chr_eqb_refl a : chr_eqb a a = true.
Proof. apply N.eqb_refl. Qed.

Lemma chr_eqb_sym a b : chr_eqb a b = chr_eqb b a.
Proof. apply N.eqb_sym. Qed.

Lemma str_eqb_eq a : forall b, str_eqb a b = true <-> a = b.
Proof.
  induction a as [|x a IH]; intros [|y b]; simpl; split; intro H;
    try reflexivity; try discriminate.
  - apply andb_true_iff in H as [Hx Hr]. apply chr_eqb_eq in Hx.
    apply IH in Hr. congruence.
  - injection H as -> ->. rewrite chr_eqb_refl. simpl. now apply IH.
Qed.

Lemma startswith_app p : forall t, startswith p (p ++ t) = true.
Proof.
  induction p as [|x p IH]; intro t; simpl; [reflexivity|].
  rewrite chr_eqb_refl. apply IH.
Qed.

Lemma startswith_prefix p : forall s, startswith p s = true -> exists t, s = p ++ t.
Proof.
  induction p as [|x p IH]; intros s H; simpl in *.
  - now exists s.
  - destruct s as [|y s]; [discriminate|].
    apply andb_true_iff in H as [Hx Hr]. apply chr_eqb_eq in Hx. subst y.
    destruct (IH _ Hr) as [t ->]. now exists t.
Qed.

Lemma startswith_iff p s : startswith p s = true <-> exists t, s = p ++ t.
Proof.
  split; [apply startswith_prefix|]. intros [t ->]. apply startswith_app.
Qed.

Lemma contains_chr_In c s : contains_chr c s = true <-> In c s.
Proof.
  unfold contains_chr. rewrite existsb_exists. split.
  - intros [x [Hx He]]. apply chr_eqb_eq in He. now subst.
  - intro H. exists c. split; [assumption|apply chr_eqb_refl].
Qed.

(** ** The scanning loop *)

Section ScanFacts.
Variable St : Type.
Variable find : St -> str -> option (str * nat * St).

Lemma scan_from_skip : forall s k st,
  scan_from find k st s = scan_from find 0 st (skipn k s).
Proof.
  induction s as [|c s IH]; intros k st.
  - now destruct k.
  - destruct k as [|k]; [reflexivity|]. simpl skipn. cbn [scan_from]. apply IH.
Qed.

Lemma scan_nil st : scan find st [] = ([], st).
Proof. reflexivity. Qed.

Lemma scan_miss st c s :
  find st (c :: s) = None ->
  scan find st (c :: s) = (c :: fst (scan find st s), snd (scan find st s)).
Proof.
  unfold scan. cbn [scan_from]. intros ->. now destruct (scan_from find 0 st s).
Qed.

Lemma scan_hit st s rep n st' :
  find st s = Some (rep, S n, st') -> S n <= length s ->
  scan find st s =
  (rep ++ fst (scan find st' (skipn (S n) s)), snd (scan find st' (skipn (S n) s))).
Proof.
  unfold scan. destruct s as [|c s]; [simpl; lia|].
  cbn [scan_from]. intros -> _. rewrite scan_from_skip. simpl skipn.
  now destruct (scan_from find 0 st' (skipn n s)).
Qed.

End ScanFacts.

Lemma replace_chr c new s : replace [c] new s = flat_map (subst_chr c new) s.
Proof.
  unfold replace, scan. induction s as [|x s IH]; [reflexivity|].
  cbn [scan_from flat_map]. unfold find_literal at 1, subst_chr at 1.
  cbn [startswith length]. rewrite andb_true_r, (chr_eqb_sym c x).
  destruct (chr_eqb x c).
  - destruct (scan_from (find_literal [c] new) 0 tt s) as [out u] eqn:E.
    simpl in *. now rewrite IH.
  - destruct (scan_from (find_literal [c] new) 0 tt s) as [out u] eqn:E.
    simpl in *. now rewrite IH.
Qed.

Lemma in_replace_chr c new s x a :
  In x s -> In a (subst_chr c new x) -> In a (replace [c] new s).
Proof.
  intros Hx Ha. rewrite replace_chr. apply in_flat_map. now exists x.
Qed.

Lemma length_replace_chr_le c new s :
  1 <= length new -> length s <= length (replace [c] new s).
Proof.
  intro Hn. rewrite replace_chr. induction s as [|x s IH]; [simpl; lia|].
  cbn [flat_map]. rewrite length_app. unfold subst_chr at 1.
  destruct (chr_eqb x c); simpl; lia.
Qed.

Lemma length_replace_chr_lt c new s :
  2 <= length new -> In c s -> length s < length (replace [c] new s).
Proof.
  intros Hn Hin. rewrite replace_chr. induction s as [|x s IH]; [destruct Hin|].
  cbn [flat_map]. rewrite length_app. unfold subst_chr at 1.
  destruct (chr_eqb x c) eqn:E.
  - pose proof (length_replace_chr_le c new s) as Hle.
    rewrite replace_chr in Hle. simpl. lia.
  - destruct Hin as [ -> | Hin]; [rewrite chr_eqb_refl in E; discriminate|].
    specialize (IH Hin). simpl. lia.
Qed.

(** ** The HTML escaper *)

Lemma escape_html_unfold text :
  escape_html text =
  replace [ch "'"] (lit "&#39;")
    (replace [34%N] (lit "&quot;")
      (replace [ch ">"] (lit "&gt;")
        (replace [ch "<"] (lit "&lt;")
          (replace [ch "&"] (lit "&amp;") text)))).
Proof. reflexivity. Qed.

Lemma escape_html_has_amp text c :
  In c text -> In c html_special -> In (ch "&") (escape_html text).
Proof.
  intros Hin Hc. rewrite escape_html_unfold.
  assert (Hcases : (c = 38 \/ c = 60 \/ c = 62 \/ c = 34 \/ c = 39)%N).
  { vm_compute in Hc. intuition. }
  assert (Hkeep : forall d new s, d <> ch "&" -> In (ch "&") s ->
                    In (ch "&") (replace [d] new s)).
  { intros d new s Hd Hs. apply (in_replace_chr _ _ _ _ _ Hs).
    unfold subst_chr. replace (chr_eqb (ch "&") d) with false; [now left|].
    symmetry. apply chr_eqb_neq. congruence. }
  assert (Hmove : forall d new s, d <> c -> In c s -> In c (replace [d] new s)).
  { intros d new s Hd Hs. apply (in_replace_chr _ _ _ _ _ Hs).
    unfold subst_chr. replace (chr_eqb c d) with false; [now left|].
    symmetry. apply chr_eqb_neq. congruence. }
  assert (Hmake : forall new s, In (ch "&") new -> In c s ->
                    In (ch "&") (replace [c] new s)).
  { intros new s Hn Hs. apply (in_replace_chr _ _ _ _ _ Hs).
    unfold subst_chr. now rewrite chr_eqb_refl. }
  destruct Hcases as [ -> | [ -> | [ -> | [ -> | -> ] ] ] ].
  - do 4 (apply Hkeep; [vm_compute; discriminate|]).
    apply Hmake; [vm_compute; auto|assumption].
  - do 3 (apply Hkeep; [vm_compute; discriminate|]).
    apply Hmake; [vm_compute; auto|].
    apply Hmove; [vm_compute; discriminate|assumption].
  - do 2 (apply Hkeep; [vm_compute; discriminate|]).
    apply Hmake; [vm_compute; auto|].
    do 2 (apply Hmove; [vm_compute; discriminate|]). assumption.
  - apply Hkeep; [vm_compute; discriminate|].
    apply (Hmake (lit "&quot;")); [vm_compute; auto|].
    do 3 (apply Hmove; [vm_compute; discriminate|]). assumption.
  - apply (Hmake (lit "&#39;")); [vm_compute; auto|].
    do 4 (apply Hmove; [vm_compute; discriminate|]). assumption.
Qed.

Lemma escape_html_grows text :
  In (ch "&") text -> length text < length (escape_html text).
Proof.
  intro Hin. rewrite escape_html_unfold.
  eapply Nat.lt_le_trans.
  - apply (length_replace_chr_lt (ch "&") (lit "&amp;")); [vm_compute; lia|exact Hin].
  - do 4 (etransitivity; [|apply length_replace_chr_le; vm_compute; lia]).
    apply Nat.le_refl.
Qed.

(** C8. HTML escaping is not idempotent: for every text that contains at
    least one of the five special characters (ampersand, less-than,
    greater-than, double quote, single quote), escaping it twice differs from
    escaping it once. *)
Theorem escape_html_not_idempotent text :
  (exists c, In c text /\ In c html_special) ->
  escape_html (escape_html text) <> escape_html text.
Proof.
  intros [c [Hin Hc]] Heq.
  pose proof (escape_html_grows _ (escape_html_has_amp _ _ Hin Hc)) as Hlt.
  rewrite Heq in Hlt. lia.
Qed.

Lemma escape_html_not_idempotent_witness :
  (exists c, In c (lit "a<b") /\ In c html_special) /\
  escape_html (escape_html (lit "a<b")) <> escape_html (lit "a<b").
Proof.
  assert (H : exists c, In c (lit "a<b") /\ In c html_special).
  { exists (ch "<"). split; vm_compute; auto. }
  split; [exact H|]. exact (escape_html_not_idempotent _ H).
Defined.

(** ** The block classifier: runs of lines *)

Section ClassifierFacts.
Variable U : unicode_db.

Lemma ul_loop_run : forall lines items rest,
  ul_loop U lines = (items, rest) ->
  exists run, lines = run ++ rest /\ forallb (is_ul_item U) run = true.
Proof.
  induction lines as [|l lines IH]; intros items rest H; cbn [ul_loop] in H.
  - injection H as <- <-. now exists [].
  - destruct (is_ul_item U l) eqn:E.
    + destruct (ul_loop U lines) as [items' rest'] eqn:E'. injection H as <- <-.
      destruct (IH _ _ eq_refl) as [run [-> Hrun]].
      exists (l :: run). simpl. now rewrite E, Hrun.
    + injection H as <- <-. now exists [].
Qed.

Lemma quote_loop_run : forall lines ps rest,
  quote_loop U lines = (ps, rest) ->
  exists run, lines = run ++ rest /\ forallb (is_quote U) run = true.
Proof.
  induction lines as [|l lines IH]; intros ps rest H; cbn [quote_loop] in H.
  - injection H as <- <-. now exists [].
  - destruct (is_quote U l) eqn:E.
    + destruct (quote_loop U lines) as [ps' rest'] eqn:E'. injection H as <- <-.
      destruct (IH _ _ eq_refl) as [run [-> Hrun]].
      exists (l :: run). simpl. now rewrite E, Hrun.
    + injection H as <- <-. now exists [].
Qed.

(** The table lines collected from [lines] are the longest prefix of lines
    that contain a pipe, each trimmed. *)
Lemma table_collect_run : forall lines table_lines rest,
  table_collect U lines = (table_lines, rest) ->
  exists run,
    lines = run ++ rest /\ table_lines = map (strip U) run /\
    forallb (contains_chr (ch "|")) run = true /\
    match rest with
    | [] => True
    | l :: _ => contains_chr (ch "|") l = false
    end.
Proof.
  induction lines as [|l lines IH]; intros table_lines rest H; cbn [table_collect] in H.
  - injection H as <- <-. now exists [].
  - destruct (contains_chr (ch "|") l) eqn:E.
    + destruct (table_collect U lines) as [tl' rest'] eqn:E'. injection H as <- <-.
      destruct (IH _ _ eq_refl) as [run [-> [-> [Hrun Hrest]]]].
      exists (l :: run). simpl. now rewrite E, Hrun.
    + injection H as <- <-. exists []. simpl. now rewrite E.
Qed.

(** The paragraph lines collected from [lines] are the longest prefix of
    lines that pass the guard of the paragraph loop. *)
Lemma paragraph_loop_run : forall lines ps rest,
  paragraph_loop U lines = (ps, rest) ->
  lines = ps ++ rest /\ forallb (paragraph_continues U) ps = true /\
  match rest with
  | [] => True
  | l :: _ => paragraph_continues U l = false
  end.
Proof.
  induction lines as [|l lines IH]; intros ps rest H; cbn [paragraph_loop] in H.
  - injection H as <- <-. now repeat split.
  - destruct (paragraph_continues U l) eqn:E.
    + destruct (paragraph_loop U lines) as [ps' rest'] eqn:E'. injection H as <- <-.
      destruct (IH _ _ eq_refl) as [-> [Hrun Hrest]].
      simpl. now rewrite E, Hrun.
    + injection H as <- <-. simpl. now rewrite E.
Qed.

Lemma ol_item_loop_run : forall lines acc content rest,
  ol_item_loop U lines acc = (content, rest) -> exists run, lines = run ++ rest.
Proof.
  induction lines as [|l lines IH]; intros acc content rest H; cbn [ol_item_loop] in H.
  - injection H as <- <-. now exists [].
  - destruct (is_blank U l).
    { destruct (IH _ _ _ H) as [run ->]. now exists (l :: run). }
    destruct (is_indented l).
    + destruct (IH _ _ _ H) as [run ->]. now exists (l :: run).
    + injection H as <- <-. now exists [].
Qed.

(** The outer loop of the ordered list returns once its fuel covers the
    lines it is given. *)
Lemma ol_loop_total : forall fuel lines out,
  length lines <= fuel ->
  exists items rest run, ol_loop U fuel lines out = Some (items, rest) /\ lines = run ++ rest.
Proof.
  induction fuel as [|fuel IH]; intros lines out Hlen.
  - destruct lines; [|simpl in Hlen; lia]. exists out, [], []. now split.
  - destruct lines as [|l lines]; [exists out, [], []; now split|].
    simpl in Hlen. cbn [ol_loop].
    destruct (is_some (re_match (ol_pattern U) (strip U l))).
    + destruct (ol_item_loop U lines _) as [content r1] eqn:E.
      destruct (ol_item_loop_run _ _ _ _ E) as [run1 ->].
      rewrite length_app in Hlen.
      destruct (IH r1 (out ++ [ol_item_fragment content]))
        as [items [rest [run2 [H ->]]]]; [lia|].
      exists items, rest, (l :: run1 ++ run2). split; [exact H|].
      simpl. now rewrite <- app_assoc.
    + destruct (str_eqb (strip U l) []).
      * destruct lines as [|l' lines'].
        { exists out, [], [l]. now split. }
        destruct (is_ol_item U l').
        { destruct (IH (l' :: lines') out) as [items [rest [run [H Heq]]]]; [lia|].
          exists items, rest, (l :: run). split; [exact H|]. simpl. now rewrite Heq. }
        exists out, (l' :: lines'), [l]. now split.
      * exists out, (l :: lines), []. now split.
Qed.

(** Every iteration of the main loop succeeds, takes one branch and consumes
    the line at the cursor; it only adds fragments. *)
Lemma step_progress st line rest :
  exists kind st' run rest' frags,
    step U st (line :: rest) = Some (kind, st', rest') /\
    line :: rest = (line :: run) ++ rest' /\
    html_lines st' = html_lines st ++ frags.
Proof.
  unfold step.
  destruct (startswith fence line) eqn:Ef.
  { destruct (negb (in_code_block st)); do 2 eexists; exists []; do 2 eexists;
      (split; [reflexivity|split; reflexivity]). }
  destruct (in_code_block st).
  { do 2 eexists; exists []; do 2 eexists; (split; [reflexivity|split; reflexivity]). }
  destruct (is_single_line_math U line).
  { do 2 eexists; exists []; do 2 eexists; (split; [reflexivity|split; reflexivity]). }
  destruct (is_math_fence U line).
  { destruct (negb (in_math_block st)); do 2 eexists; exists []; do 2 eexists;
      (split; [reflexivity|split; reflexivity]). }
  destruct (in_math_block st).
  { do 2 eexists; exists []; do 2 eexists; (split; [reflexivity|split; reflexivity]). }
  destruct (is_heading line) eqn:Eh.
  { do 2 eexists; exists []; do 2 eexists; (split; [reflexivity|split; reflexivity]). }
  destruct (is_ul_item U line) eqn:Eul.
  { cbn [ul_loop]. rewrite Eul.
    destruct (ul_loop U rest) as [items r] eqn:E.
    destruct (ul_loop_run _ _ _ E) as [run [-> _]].
    do 2 eexists; exists run; do 2 eexists; (split; [reflexivity|split; reflexivity]). }
  destruct (is_table_start U line) eqn:Etab.
  { cbn [table_collect].
    assert (Hp : contains_chr (ch "|") line = true).
    { unfold is_table_start in Etab.
      now apply andb_true_iff in Etab as [Etab _]; apply andb_true_iff in Etab as [Etab _]. }
    rewrite Hp. destruct (table_collect U rest) as [tls r] eqn:E.
    destruct (table_collect_run _ _ _ E) as [run [-> _]].
    do 2 eexists; exists run; do 2 eexists; (split; [reflexivity|split; reflexivity]). }
  destruct (is_ol_item U line) eqn:Eol.
  { cbn [length ol_loop]. unfold is_ol_item in Eol. rewrite Eol.
    destruct (ol_item_loop U rest _) as [content r1] eqn:E.
    destruct (ol_item_loop_run _ _ _ _ E) as [run1 ->].
    match goal with
    | |- context [ol_loop U ?f ?l ?o] =>
      destruct (ol_loop_total f l o) as [items [r [run2 [H Heq]]]];
        [rewrite length_app; lia|rewrite H]
    end.
    do 2 eexists; exists (run1 ++ run2); do 2 eexists.
    split; [reflexivity|split; [|reflexivity]].
    rewrite Heq. simpl. now rewrite <- app_assoc. }
  destruct (is_quote U line) eqn:Eq.
  { cbn [quote_loop]. rewrite Eq.
    destruct (quote_loop U rest) as [ps r] eqn:E.
    destruct (quote_loop_run _ _ _ E) as [run [-> _]].
    do 2 eexists; exists run; do 2 eexists; (split; [reflexivity|split; reflexivity]). }
  destruct (is_blank U line) eqn:Eb.
  { do 2 eexists; exists []; do 2 eexists; (split; [reflexivity|split; reflexivity]). }
  cbn [paragraph_loop].
  assert (Hc : paragraph_continues U line = true).
  { unfold paragraph_continues. unfold is_heading in Eh.
    now rewrite Eb, Eul, Eol, Eq, Eh, Ef. }
  rewrite Hc. destruct (paragraph_loop U rest) as [ps r] eqn:E.
  destruct (paragraph_loop_run _ _ _ E) as [-> _].
  do 2 eexists; exists ps; do 2 eexists; (split; [reflexivity|split; reflexivity]).
Qed.

Lemma convert_loop_total : forall fuel st lines,
  length lines <= fuel -> exists st', convert_loop U fuel st lines = Some st'.
Proof.
  induction fuel as [|fuel IH]; intros st lines Hlen.
  - destruct lines; [now exists st|simpl in Hlen; lia].
  - destruct lines as [|line rest]; [now exists st|].
    cbn [convert_loop].
    destruct (step_progress st line rest) as [kind [st' [run [rest' [frags [Hs [Hl _]]]]]]].
    rewrite Hs. apply IH.
    apply (f_equal (@length str)) in Hl. simpl in Hl, Hlen.
    rewrite length_app in Hl. lia.
Qed.

(** C4. The block classifier is total: for every finite sequence of lines
    the main loop returns its fragments within as many iterations as there
    are lines, so does the conversion of a text, and every iteration
    classifies the line at the cursor as some block kind, consumes it
    (possibly with lines that follow it) and only appends fragments. *)
Theorem classifier_total :
  (forall lines, exists frags, convert_lines U lines = Some frags) /\
  (forall md_content, exists body, convert_md_to_html_body U md_content = Some body) /\
  (forall st line rest,
     exists kind st' run rest' frags,
       step U st (line :: rest) = Some (kind, st', rest') /\
       line :: rest = (line :: run) ++ rest' /\
       html_lines st' = html_lines st ++ frags).
Proof.
  assert (H : forall lines, exists frags, convert_lines U lines = Some frags).
  { intro lines. unfold convert_lines.
    destruct (convert_loop_total (length lines) conv_state0 lines (Nat.le_refl _))
      as [st' ->].
    now exists (html_lines st'). }
  split; [exact H|split].
  - intro md. unfold convert_md_to_html_body.
    destruct (H (split_chr newline md)) as [frags ->]. now eexists.
  - apply step_progress.
Qed.

(** ** Fenced code *)

Lemma not_in_replace_chr a c new s :
  ~ In a new -> (a = c \/ ~ In a s) -> ~ In a (replace [c] new s).
Proof.
  intros Hn Hs Hin. rewrite replace_chr in Hin.
  apply in_flat_map in Hin as [x [Hx Hax]]. unfold subst_chr in Hax.
  destruct (chr_eqb x c) eqn:E.
  - contradiction.
  - destruct Hax as [ <- |[]]. destruct Hs as [ -> | Hs]; [|contradiction].
    now rewrite chr_eqb_refl in E.
Qed.

Lemma escape_html_no_lt text : ~ In (ch "<") (escape_html text).
Proof.
  rewrite escape_html_unfold.
  do 3 (apply not_in_replace_chr; [vm_compute; intuition discriminate|right]).
  apply not_in_replace_chr; [vm_compute; intuition discriminate|now left].
Qed.

Lemma append_html_app st a b :
  append_html (append_html st a) b = append_html st (a ++ b).
Proof. unfold append_html. simpl. now rewrite app_assoc. Qed.

Lemma code_lines_loop : forall rest fuel st,
  in_code_block st = true -> forallb no_fence rest = true -> length rest <= fuel ->
  convert_loop U fuel st rest = Some (append_html st (map escape_html rest)).
Proof.
  induction rest as [|l rest IH]; intros fuel st Hc Hf Hlen.
  - destruct fuel; simpl; unfold append_html; destruct st; simpl; now rewrite app_nil_r.
  - destruct fuel as [|fuel]; [simpl in Hlen; lia|].
    simpl in Hf. apply andb_true_iff in Hf as [Hl Hf].
    unfold no_fence in Hl. apply negb_true_iff in Hl.
    cbn [convert_loop step]. rewrite Hl, Hc.
    rewrite IH; [|exact Hc|exact Hf|simpl in Hlen; lia].
    now rewrite append_html_app.
Qed.

(** C10. When the main loop reaches, outside a code block, a line that
    starts with the triple-backtick fence and no later line starts with the
    fence, it emits the opening code fragment followed by every remaining
    line HTML-escaped, nothing else; none of these fragments is the closing
    code fragment and the loop ends with the code block still open. *)
Theorem unterminated_fence st fence_line rest fuel :
  in_code_block st = false ->
  startswith fence fence_line = true ->
  forallb no_fence rest = true ->
  length (fence_line :: rest) <= fuel ->
  exists st',
    convert_loop U fuel st (fence_line :: rest) = Some st' /\
    html_lines st' =
      html_lines st ++ code_open_fragment U fence_line :: map escape_html rest /\
    in_code_block st' = true /\
    ~ In (lit "</code></pre>") (code_open_fragment U fence_line :: map escape_html rest).
Proof.
  intros Hc Hs Hf Hlen.
  destruct fuel as [|fuel]; [simpl in Hlen; lia|].
  cbn [convert_loop step]. rewrite Hs, Hc. cbn [negb].
  rewrite code_lines_loop; [|reflexivity|exact Hf|simpl in Hlen; lia].
  eexists. split; [reflexivity|]. split; [|split].
  - simpl. now rewrite <- app_assoc.
  - reflexivity.
  - intros [H|H].
    + unfold code_open_fragment in H. vm_compute in H. discriminate.
    + apply in_map_iff in H as [l [Hl _]].
      apply (escape_html_no_lt l). rewrite Hl. vm_compute. auto.
Qed.

(** ** Headings *)

Lemma drop_while_snoc f c : forall x,
  f c = false -> drop_while f (x ++ [c]) = drop_while f x ++ [c].
Proof.
  intros x Hc. induction x as [|a x IH]; simpl.
  - now rewrite Hc.
  - destruct (f a); [exact IH|reflexivity].
Qed.

Lemma strip_with_cons f c s :
  f c = false -> strip_with f (c :: s) = c :: rev (drop_while f (rev s)).
Proof.
  intro Hc. unfold strip_with. cbn [drop_while]. rewrite Hc. cbn [rev].
  rewrite drop_while_snoc by exact Hc. now rewrite rev_app_distr.
Qed.

Lemma heading_level_hashes n r :
  startswith (lit "#") r = false -> heading_level (repeat (ch "#") n ++ r) = n.
Proof.
  intro Hr. induction n as [|n IH]; simpl.
  - destruct r as [|c r]; [reflexivity|].
    change (startswith (lit "#") (c :: r)) with (chr_eqb (ch "#") c && true) in Hr.
    rewrite andb_true_r, chr_eqb_sym in Hr. cbn [heading_level]. now rewrite Hr.
  - now rewrite IH.
Qed.

Lemma skipn_hashes n (r : str) : skipn n (repeat (ch "#") n ++ r) = r.
Proof. induction n; simpl; auto. Qed.

(** C7. Outside code and math blocks, a line made of [n >= 1] leading hashes
    followed by a text that does not start with a hash is classified as a
    heading: the step emits exactly one fragment, a heading tag of level [n]
    (whatever [n], also beyond 6) whose title is that text with surrounding
    whitespace removed, inline-formatted, and whose id is the slug of the
    title; only that line is consumed.  The text "# Title" converts to one
    level-1 heading with title "Title" and id "title". *)
Theorem heading_classified st n r rest :
  in_code_block st = false ->
  in_math_block st = false ->
  1 <= n ->
  startswith (lit "#") r = false ->
  step U st ((repeat (ch "#") n ++ r) :: rest) =
    Some (Heading,
          append_html st
            [lit "<h" ++ str_of_nat n ++ lit " id=" ++ dq
             ++ generate_id U (strip U r) ++ dq ++ lit ">"
             ++ process_inline_formatting (strip U r)
             ++ lit "</h" ++ str_of_nat n ++ lit ">"],
          rest)
  /\ convert_md_to_html_body U (lit "# Title") =
       Some (lit "<h1 id=" ++ dq ++ lit "title" ++ dq ++ lit ">Title</h1>").
Proof.
  intros Hc Hm Hn Hr. split; [|vm_compute; reflexivity].
  destruct n as [|n]; [lia|]. cbn [repeat app].
  unfold step. cbn [startswith fence lit]. 
  replace (startswith fence (ch "#" :: repeat (ch "#") n ++ r)) with false
    by reflexivity.
  rewrite Hc.
  assert (Hstrip : exists y, strip U (ch "#" :: repeat (ch "#") n ++ r) = ch "#" :: y).
  { eexists. apply strip_with_cons. reflexivity. }
  destruct Hstrip as [y Hy].
  unfold is_single_line_math, is_math_fence. rewrite Hy.
  replace (startswith (lit "$$") (ch "#" :: y)) with false by reflexivity.
  replace (str_eqb (ch "#" :: y) (lit "$$")) with false by reflexivity.
  cbn [andb]. rewrite Hm.
  replace (is_heading (ch "#" :: repeat (ch "#") n ++ r)) with true by reflexivity.
  unfold heading_fragment.
  change (ch "#" :: repeat (ch "#") n ++ r) with (repeat (ch "#") (S n) ++ r).
  rewrite heading_level_hashes by exact Hr.
  unfold slice_from. now rewrite skipn_hashes.
Qed.

End ClassifierFacts.

Lemma unterminated_fence_witness :
  let rest := [lit "x < y"; lit "# not a heading"] in
  exists st',
    convert_loop ascii_db 3 conv_state0 (lit "```py" :: rest) = Some st' /\
    html_lines st' =
      html_lines conv_state0
      ++ code_open_fragment ascii_db (lit "```py") :: map escape_html rest /\
    in_code_block st' = true /\
    ~ In (lit "</code></pre>")
         (code_open_fragment ascii_db (lit "```py") :: map escape_html rest).
Proof.
  apply (unterminated_fence ascii_db conv_state0 (lit "```py")
           [lit "x < y"; lit "# not a heading"] 3);
    [reflexivity|reflexivity|reflexivity|simpl; lia].
Defined.

Lemma heading_classified_witness :
  step ascii_db conv_state0 [lit "####### Deep  &  Title! "] =
    Some (Heading,
          append_html conv_state0
            [lit "<h7 id=" ++ dq ++ lit "deep-title" ++ dq
             ++ lit ">Deep  &  Title!</h7>"],
          []).
Proof.
  refine (proj1 (heading_classified ascii_db conv_state0 7 (lit " Deep  &  Title! ") []
                   eq_refl eq_refl _ eq_refl)).
  repeat constructor.
Defined.

(** The claim C7 as stated speaks of every line that starts with a hash.  In
    the document made of the lines "| a |" and "# b | c" the second line
    holds a pipe: the loop that collects the rows of the table takes it, and
    the body holds no heading for it. *)
Lemma heading_counterexample :
  ~ (forall md l body,
       In l (split_chr newline md) ->
       startswith (lit "#") l = true ->
       convert_md_to_html_body ascii_db md = Some body ->
       contains (heading_fragment ascii_db l) body = true).
Proof.
  intro H.
  assert (E : exists body,
             convert_md_to_html_body ascii_db (lit "| a |" ++ newline :: lit "# b | c")
               = Some body /\
             contains (heading_fragment ascii_db (lit "# b | c")) body = false).
  { eexists. split; vm_compute; reflexivity. }
  destruct E as [body [E Hc]].
  rewrite (H (lit "| a |" ++ newline :: lit "# b | c") (lit "# b | c") body) in Hc;
    [discriminate Hc| |reflexivity|exact E].
  vm_compute. auto.
Qed.

(** Nor does a line that starts with a hash give a heading inside a code
    block, where it is escaped text, or inside a math block, where it is
    part of the formula. *)
Example heading_in_code_block :
  convert_md_to_html_body ascii_db
    (lit "```" ++ newline :: lit "# a" ++ newline :: lit "```") =
    Some (lit "<pre><code class=" ++ dq ++ lit "language-" ++ dq ++ lit ">"
          ++ newline :: lit "# a" ++ newline :: lit "</code></pre>").
Proof. vm_compute. reflexivity. Qed.

Example heading_in_math_block :
  exists body,
    convert_md_to_html_body ascii_db
      (lit "$$" ++ newline :: lit "# a" ++ newline :: lit "$$") = Some body /\
    contains (lit "<h1") body = false /\ contains (lit "# a") body = true.
Proof. eexists. repeat split; vm_compute; reflexivity. Qed.

(** ** Tables, paragraphs and ordered lists *)

(** Closes a goal whose hypothesis [H] equates the result of a branch of
    [step] with a result of another kind. *)
Ltac other_branch H :=
  repeat match type of H with
         | match ?x with _ => _ end = _ => destruct x
         end;
  discriminate H.

Section RunFacts.
Variable U : unicode_db.

(** C2, as the code has it.  When a step takes the table branch, the line at
    the cursor contains a pipe and starts and ends with one after trimming;
    every further line of the run contains a pipe (nothing more is asked of
    it); the run ends at the first line without a pipe or at the end of the
    input; the fragments are those of the trimmed lines of the run. *)
Theorem table_run st lines st' rest' :
  step U st lines = Some (Table, st', rest') ->
  exists line run,
    lines = (line :: run) ++ rest' /\
    is_table_start U line = true /\
    forallb (contains_chr (ch "|")) run = true /\
    match rest' with
    | [] => True
    | l :: _ => contains_chr (ch "|") l = false
    end /\
    html_lines st' = html_lines st ++ table_fragments U (map (strip U) (line :: run)).
Proof.
  intro H. destruct lines as [|line rest]; [discriminate H|].
  unfold step in H.
  destruct (startswith fence line); [other_branch H|].
  destruct (in_code_block st); [other_branch H|].
  destruct (is_single_line_math U line); [other_branch H|].
  destruct (is_math_fence U line); [other_branch H|].
  destruct (in_math_block st); [other_branch H|].
  destruct (is_heading line); [other_branch H|].
  destruct (is_ul_item U line); [other_branch H|].
  destruct (is_table_start U line) eqn:Etab.
  - assert (Hp : contains_chr (ch "|") line = true).
    { unfold is_table_start in Etab.
      apply andb_true_iff in Etab as [Etab _]. now apply andb_true_iff in Etab as [Etab _]. }
    cbn [table_collect] in H. rewrite Hp in H.
    destruct (table_collect U rest) as [tls r] eqn:E.
    injection H as <- <-.
    destruct (table_collect_run U _ _ _ E) as [run [-> [-> [Hrun Hrest]]]].
    exists line, run. repeat split; assumption || reflexivity.
  - destruct (is_ol_item U line); [other_branch H|].
    destruct (is_quote U line); [other_branch H|].
    destruct (is_blank U line); [other_branch H|].
    other_branch H.
Qed.

(** C3, as the code has it.  When a step takes the paragraph branch, no code
    or math block is open and the line at the cursor matches none of the
    markers ranked above the paragraph; every further line of the run is not
    blank and is neither a heading, an unordered or ordered list item, a
    blockquote line nor a code fence (a table line or a math line does not
    end the run); the run ends at the first line that fails this guard or at
    the end of the input; the lines of the run are joined with single spaces
    into one paragraph that is inline-formatted. *)
Theorem paragraph_run st lines st' rest' :
  step U st lines = Some (Paragraph, st', rest') ->
  exists line run,
    lines = (line :: run) ++ rest' /\
    in_code_block st = false /\ in_math_block st = false /\
    matches_no_marker U line = true /\
    forallb (paragraph_continues U) run = true /\
    match rest' with
    | [] => True
    | l :: _ => paragraph_continues U l = false
    end /\
    html_lines st' =
      html_lines st
      ++ [lit "<p>" ++ process_inline_formatting (join (lit " ") (line :: run))
          ++ lit "</p>"].
Proof.
  intro H. destruct lines as [|line rest]; [discriminate H|].
  unfold step in H.
  destruct (startswith fence line) eqn:Ef; [other_branch H|].
  destruct (in_code_block st) eqn:Ec; [other_branch H|].
  destruct (is_single_line_math U line) eqn:Em1; [other_branch H|].
  destruct (is_math_fence U line) eqn:Em2; [other_branch H|].
  destruct (in_math_block st) eqn:Em; [other_branch H|].
  destruct (is_heading line) eqn:Eh; [other_branch H|].
  destruct (is_ul_item U line) eqn:Eul; [other_branch H|].
  destruct (is_table_start U line) eqn:Et; [other_branch H|].
  destruct (is_ol_item U line) eqn:Eol; [other_branch H|].
  destruct (is_quote U line) eqn:Eq; [other_branch H|].
  destruct (is_blank U line) eqn:Eb; [other_branch H|].
  assert (Hc : paragraph_continues U line = true).
  { unfold paragraph_continues. unfold is_heading in Eh.
    now rewrite Eb, Eul, Eol, Eq, Eh, Ef. }
  cbn [paragraph_loop] in H. rewrite Hc in H.
  destruct (paragraph_loop U rest) as [ps r] eqn:E.
  injection H as <- <-.
  destruct (paragraph_loop_run U _ _ _ E) as [-> [Hrun Hrest]].
  exists line, ps. unfold matches_no_marker.
  rewrite Ef, Em1, Em2, Eh, Eul, Et, Eol, Eq, Eb.
  repeat split; assumption || reflexivity.
Qed.

Lemma ol_item_loop_blanks : forall blanks lines acc,
  forallb (is_blank U) blanks = true ->
  ol_item_loop U (blanks ++ lines) acc = ol_item_loop U lines acc.
Proof.
  induction blanks as [|b blanks IH]; intros lines acc Hb; [reflexivity|].
  simpl in Hb. apply andb_true_iff in Hb as [Hb1 Hb2].
  cbn [app ol_item_loop]. rewrite Hb1. now apply IH.
Qed.

(** C6, as the code has it.  After an ordered-list item every blank line is
    skipped, whatever follows.  The first non-blank line after them
    continues the item when it is indented; otherwise it starts the next item
    of the same list when it is an ordered-list item, and ends the list (the
    line itself is left to the main loop) when it is not.  Blank lines up to
    the end of the input are skipped as well. *)
Theorem ol_blank_lines item blanks x rest out fuel :
  is_ol_item U item = true ->
  forallb (is_blank U) blanks = true ->
  is_blank U x = false ->
  (is_indented x = true ->
     ol_loop U (S fuel) (item :: blanks ++ x :: rest) out =
     let (item_content, r) :=
       ol_item_loop U rest [ol_item_head U (strip U item); ol_continuation U x] in
     ol_loop U fuel r (out ++ [ol_item_fragment item_content])) /\
  (is_indented x = false -> is_ol_item U x = true ->
     ol_loop U (S fuel) (item :: blanks ++ x :: rest) out =
     ol_loop U fuel (x :: rest) (out ++ [ol_item_fragment [ol_item_head U (strip U item)]])) /\
  (is_indented x = false -> is_ol_item U x = false ->
     ol_loop U (S (S fuel)) (item :: blanks ++ x :: rest) out =
     Some (out ++ [ol_item_fragment [ol_item_head U (strip U item)]], x :: rest)) /\
  ol_loop U (S fuel) (item :: blanks) out =
    Some (out ++ [ol_item_fragment [ol_item_head U (strip U item)]], []).
Proof.
  intros Hitem Hblanks Hx. unfold is_ol_item in Hitem.
  repeat split.
  - intro Hind. cbn [ol_loop]. rewrite Hitem.
    rewrite ol_item_loop_blanks by exact Hblanks.
    cbn [ol_item_loop]. now rewrite Hx, Hind.
  - intros Hind Hol. cbn [ol_loop]. rewrite Hitem.
    rewrite ol_item_loop_blanks by exact Hblanks.
    cbn [ol_item_loop]. now rewrite Hx, Hind.
  - intros Hind Hol. cbn [ol_loop]. rewrite Hitem.
    rewrite ol_item_loop_blanks by exact Hblanks.
    cbn [ol_item_loop]. rewrite Hx, Hind.
    unfold is_ol_item in Hol. rewrite Hol.
    unfold is_blank in Hx. now rewrite Hx.
  - cbn [ol_loop]. rewrite Hitem.
    rewrite <- (app_nil_r blanks), ol_item_loop_blanks by exact Hblanks.
    cbn [ol_item_loop]. now destruct fuel.
Qed.

End RunFacts.

(** The claim C2 as stated asks every line of a table run to start and end
    with a pipe.  The run collected from "| a |", "x | y", "end" takes in the
    second line, which does neither. *)
Lemma table_run_counterexample :
  ~ (forall st lines st' rest' run,
       step ascii_db st lines = Some (Table, st', rest') ->
       lines = run ++ rest' ->
       forallb (is_table_start ascii_db) run = true).
Proof.
  intro H.
  assert (Hs : step ascii_db conv_state0 [lit "| a |"; lit "x | y"; lit "end"] =
               Some (Table,
                     append_html conv_state0
                       (table_fragments ascii_db [lit "| a |"; lit "x | y"]),
                     [lit "end"])) by (vm_compute; reflexivity).
  specialize (H _ _ _ _ [lit "| a |"; lit "x | y"] Hs eq_refl).
  vm_compute in H. discriminate H.
Qed.

Lemma table_run_witness :
  exists line run,
    [lit "| a |"; lit "x | y"; lit "end"] = (line :: run) ++ [lit "end"] /\
    is_table_start ascii_db line = true /\
    forallb (contains_chr (ch "|")) run = true /\
    contains_chr (ch "|") (lit "end") = false /\
    html_lines (append_html conv_state0
                  (table_fragments ascii_db [lit "| a |"; lit "x | y"])) =
      html_lines conv_state0
      ++ table_fragments ascii_db (map (strip ascii_db) (line :: run)).
Proof.
  apply (table_run ascii_db conv_state0 [lit "| a |"; lit "x | y"; lit "end"]
           (append_html conv_state0
              (table_fragments ascii_db [lit "| a |"; lit "x | y"]))
           [lit "end"]).
  vm_compute. reflexivity.
Defined.

(** The claim C3 as stated lets a table line or a math line end a paragraph
    run.  The run collected from "hello", "| a |" takes in the table line. *)
Lemma paragraph_run_counterexample :
  ~ (forall st lines st' rest' run,
       step ascii_db st lines = Some (Paragraph, st', rest') ->
       lines = run ++ rest' ->
       forallb (matches_no_marker ascii_db) run = true).
Proof.
  intro H.
  assert (Hs : step ascii_db conv_state0 [lit "hello"; lit "| a |"] =
               Some (Paragraph,
                     append_html conv_state0 [lit "<p>hello | a |</p>"], []))
    by (vm_compute; reflexivity).
  specialize (H _ _ _ _ [lit "hello"; lit "| a |"] Hs eq_refl).
  vm_compute in H. discriminate H.
Qed.

Lemma paragraph_run_witness :
  exists line run,
    [lit "hello"; lit "| a |"; lit "# next"] = (line :: run) ++ [lit "# next"] /\
    in_code_block conv_state0 = false /\ in_math_block conv_state0 = false /\
    matches_no_marker ascii_db line = true /\
    forallb (paragraph_continues ascii_db) run = true /\
    paragraph_continues ascii_db (lit "# next") = false /\
    html_lines (append_html conv_state0 [lit "<p>hello | a |</p>"]) =
      html_lines conv_state0
      ++ [lit "<p>" ++ process_inline_formatting (join (lit " ") (line :: run))
          ++ lit "</p>"].
Proof.
  apply (paragraph_run ascii_db conv_state0 [lit "hello"; lit "| a |"; lit "# next"]
           (append_html conv_state0 [lit "<p>hello | a |</p>"]) [lit "# next"]).
  vm_compute. reflexivity.
Defined.

(** The claim C6 as stated ends the list at a blank line that is not
    followed by an ordered-list item.  In "1. a", "", "   more" the blank
    line is followed by an indented line, which is no item, yet the list goes
    on and takes that line into its item. *)
Lemma ol_blank_counterexample :
  ~ (forall fuel item blank x rest out items r,
       is_ol_item ascii_db item = true ->
       is_blank ascii_db blank = true ->
       is_ol_item ascii_db x = false ->
       ol_loop ascii_db fuel (item :: blank :: x :: rest) out = Some (items, r) ->
       r = x :: rest).
Proof.
  intro H.
  specialize (H 3 (lit "1. a") [] (lit "   more") [] [] [lit "<li>amore</li>"] []
                eq_refl eq_refl eq_refl).
  assert (Hs : ol_loop ascii_db 3 [lit "1. a"; []; lit "   more"] [] =
               Some ([lit "<li>amore</li>"], [])) by (vm_compute; reflexivity).
  specialize (H Hs). discriminate H.
Qed.

Lemma ol_blank_lines_witness :
  ol_loop ascii_db 3 [lit "1. a"; []; lit "   more"] [] =
    Some ([lit "<li>amore</li>"], []) /\
  ol_loop ascii_db 3 [lit "1. a"; []; []; lit "2. b"; lit "text"] [] =
    ol_loop ascii_db 2 [lit "2. b"; lit "text"] [lit "<li>a</li>"] /\
  ol_loop ascii_db 3 [lit "1. a"; []; lit "text"] [] =
    Some ([lit "<li>a</li>"], [lit "text"]).
Proof.
  split; [|split].
  - refine (eq_trans
              (proj1 (ol_blank_lines ascii_db (lit "1. a") [[]] (lit "   more") [] [] 2
                        eq_refl eq_refl eq_refl) eq_refl) _).
    vm_compute. reflexivity.
  - exact (proj1 (proj2 (ol_blank_lines ascii_db (lit "1. a") [[]; []] (lit "2. b")
                           [lit "text"] [] 2 eq_refl eq_refl eq_refl))
             eq_refl eq_refl).
  - exact (proj1 (proj2 (proj2 (ol_blank_lines ascii_db (lit "1. a") [[]] (lit "text")
                                  [] [] 1 eq_refl eq_refl eq_refl)))
             eq_refl eq_refl).
Defined.

(** ** File-level conversion *)

Section FileFacts.
Variable U : unicode_db.
Variables html_template_start html_template_end : str.
Variable W : Type.
Variable FS : file_system W.

Lemma markdown_to_html_total md_content :
  exists html,
    markdown_to_html U html_template_start html_template_end md_content = Some html.
Proof.
  unfold markdown_to_html, convert_md_to_html_body, convert_lines.
  destruct (convert_loop_total U (length (split_chr newline md_content)) conv_state0
              (split_chr newline md_content) (Nat.le_refl _)) as [st' ->].
  now eexists.
Qed.

(** C9.  The file-level conversion answers with a success flag, unless a
    [print] raises where nothing catches it.  When reading the source fails
    (the file is missing or cannot be read) it prints the error and returns
    False; only the console has been touched: nothing is written.  When the
    source is read, the document is written to the destination.  If that
    write fails, the error is printed and the flag is False.  If it succeeds,
    the destination is announced and the flag is True; but if that
    announcement raises, the handler of the write prints the error and the
    flag is False, although the file has been written.  In each case a
    [print] of an error that raises leaves the function, which then returns
    nothing. *)
Theorem convert_reports_success md_file_path output_html_path w :
  (forall m,
     (read_file FS md_file_path w = ReadNotFound /\ m = MsgNotFound md_file_path) \/
     (read_file FS md_file_path w = ReadError /\ m = MsgReadError) ->
     convert_markdown_to_html U html_template_start html_template_end FS
       md_file_path output_html_path w =
     if snd (print_line FS m w) then Returned false (fst (print_line FS m w))
     else Raised (fst (print_line FS m w))) /\
  (forall md_content,
     read_file FS md_file_path w = ReadOk md_content ->
     exists html destination,
       markdown_to_html U html_template_start html_template_end md_content = Some html /\
       destination = match output_html_path with
                     | None => path_with_html FS md_file_path
                     | Some p => p
                     end /\
       let written := write_file FS destination html w in
       let announced := print_line FS (MsgWritten destination) (fst written) in
       let failed := fun w' =>
         if snd (print_line FS MsgWriteError w')
         then Returned false (fst (print_line FS MsgWriteError w'))
         else Raised (fst (print_line FS MsgWriteError w')) in
       convert_markdown_to_html U html_template_start html_template_end FS
         md_file_path output_html_path w =
       if snd written then
         if snd announced then Returned true (fst announced) else failed (fst announced)
       else failed (fst written)).
Proof.
  split.
  - intros m [[H ->]|[H ->]]; unfold convert_markdown_to_html, print_and_return;
      rewrite H; now destruct (print_line FS _ w) as [w' [|]].
  - intros md Hr. unfold convert_markdown_to_html, print_and_return. rewrite Hr.
    destruct (markdown_to_html_total md) as [html ->].
    exists html.
    exists (match output_html_path with
            | None => path_with_html FS md_file_path
            | Some p => p
            end).
    split; [reflexivity|]. split; [reflexivity|]. cbv zeta.
    destruct (write_file FS _ html w) as [w' [|]]; cbn [fst snd].
    + destruct (print_line FS (MsgWritten _) w') as [w'' [|]]; cbn [fst snd];
        [reflexivity|].
      now destruct (print_line FS MsgWriteError w'') as [w3 [|]].
    + now destruct (print_line FS MsgWriteError w') as [w3 [|]].
Qed.

End FileFacts.

Lemma convert_reports_success_witness :
  convert_markdown_to_html ascii_db (lit "<body>") (lit "</body>") mem_fs
    (lit "a.md") None [] = Returned false [] /\
  (exists html,
     markdown_to_html ascii_db (lit "<body>") (lit "</body>") (lit "# Title") = Some html /\
     convert_markdown_to_html ascii_db (lit "<body>") (lit "</body>") mem_fs
       (lit "a.md") (Some (lit "/ro/a.html")) [(lit "a.md", lit "# Title")] =
     Returned false [(lit "a.md", lit "# Title")] /\
     convert_markdown_to_html ascii_db (lit "<body>") (lit "</body>") mem_fs
       (lit "a.md") None [(lit "a.md", lit "# Title")] =
     Returned true [(lit "a.html", html); (lit "a.md", lit "# Title")]).
Proof.
  split.
  - rewrite (proj1 (convert_reports_success ascii_db (lit "<body>") (lit "</body>")
                      mem_world mem_fs (lit "a.md") None []) (MsgNotFound (lit "a.md")));
      [reflexivity|left; split; reflexivity].
  - destruct (proj2 (convert_reports_success ascii_db (lit "<body>") (lit "</body>")
                       mem_world mem_fs (lit "a.md") (Some (lit "/ro/a.html"))
                       [(lit "a.md", lit "# Title")]) (lit "# Title") eq_refl)
      as [html [destination [Hh [-> Hc]]]].
    exists html. split; [exact Hh|]. split; [exact Hc|].
    destruct (proj2 (convert_reports_success ascii_db (lit "<body>") (lit "</body>")
                       mem_world mem_fs (lit "a.md") None
                       [(lit "a.md", lit "# Title")]) (lit "# Title") eq_refl)
      as [html' [destination' [Hh' [-> Hc']]]].
    rewrite Hh in Hh'. injection Hh' as <-. exact Hc'.
Defined.

(** The claim as stated fails: the source is read and the destination is
    written, both without an error, and the function returns False, because
    the console refuses the line that announces the destination. *)
Lemma convert_success_counterexample :
  ~ (forall (W : Type) (FS : file_system W) md_file_path destination w md_content html,
       read_file FS md_file_path w = ReadOk md_content ->
       markdown_to_html ascii_db (lit "<body>") (lit "</body>") md_content = Some html ->
       snd (write_file FS destination html w) = true ->
       exists w',
         convert_markdown_to_html ascii_db (lit "<body>") (lit "</body>") FS
           md_file_path (Some destination) w = Returned true w').
Proof.
  intro H.
  destruct (markdown_to_html_total ascii_db (lit "<body>") (lit "</body>") (lit "# Title"))
    as [html Hh].
  destruct (H mem_world (mem_fs_with strict_console) (lit "a.md") (lit "a.html")
              [(lit "a.md", lit "# Title")] (lit "# Title") html eq_refl Hh eq_refl)
    as [w' Hw].
  vm_compute in Hw. discriminate Hw.
Qed.

(** With a console that refuses every line, a missing source makes the
    function raise: it returns neither True nor False. *)
Example convert_raises :
  convert_markdown_to_html ascii_db (lit "<body>") (lit "</body>")
    (mem_fs_with (fun _ => false)) (lit "a.md") None [] = Raised [].
Proof. reflexivity. Qed.

(** ** The matcher and the texts it matches *)

Section MatcherFacts.
Variable R : Type.

Lemma star_k_sound p : forall s (k : str -> str -> option R) x,
  star_k p s k = Some x ->
  exists m rest, s = m ++ rest /\ forallb p m = true /\ k m rest = Some x.
Proof.
  induction s as [|c s IH]; intros k x H; cbn [star_k] in H.
  - exists [], []. now repeat split.
  - destruct (p c) eqn:Ep.
    + destruct (star_k p s (fun m r => k (c :: m) r)) as [y|] eqn:E.
      * injection H as ->. destruct (IH _ _ E) as [m [rest [-> [Hm Hk]]]].
        exists (c :: m), rest. simpl. rewrite Ep, Hm. now repeat split.
      * exists [], (c :: s). now repeat split.
    + exists [], (c :: s). now repeat split.
Qed.

Lemma star_k_complete p : forall m rest (k : str -> str -> option R),
  forallb p m = true -> k m rest <> None -> star_k p (m ++ rest) k <> None.
Proof.
  induction m as [|c m IH]; intros rest k Hm Hk.
  - simpl. destruct rest as [|c rest]; [exact Hk|]. cbn [star_k].
    destruct (p c); [|exact Hk].
    now destruct (star_k p rest (fun m r => k (c :: m) r)).
  - simpl in Hm. apply andb_true_iff in Hm as [Hc Hm]. cbn [app star_k]. rewrite Hc.
    specialize (IH rest (fun m r => k (c :: m) r) Hm Hk).
    now destruct (star_k p (m ++ rest) (fun m0 r => k (c :: m0) r)).
Qed.

(** Whatever the matcher answers, its continuation was given a split of the
    text into a part the pattern matches and the rest. *)
Lemma match_k_sound : forall r s cs (k : str -> str -> caps -> option R) x,
  match_k r s cs k = Some x ->
  exists m rest cs', s = m ++ rest /\ Matches r m cs cs' /\ k m rest cs' = Some x.
Proof.
  induction r as [c|p|p|p|a IHa b IHb|a IHa b IHb|n a IHa]; intros s cs k x H;
    cbn [match_k] in H.
  - destruct s as [|y s]; [discriminate|]. destruct (chr_eqb y c) eqn:E; [|discriminate].
    apply chr_eqb_eq in E. subst y. exists [c], s, cs. repeat split; [constructor|exact H].
  - destruct s as [|y s]; [discriminate|]. destruct (p y) eqn:E; [|discriminate].
    exists [y], s, cs. repeat split; [now constructor|exact H].
  - apply star_k_sound in H as [m [rest [-> [Hm Hk]]]].
    exists m, rest, cs. repeat split; [now constructor|exact Hk].
  - destruct s as [|y s]; [discriminate|]. destruct (p y) eqn:E; [|discriminate].
    apply star_k_sound in H as [m [rest [-> [Hm Hk]]]].
    exists (y :: m), rest, cs. repeat split; [now constructor|exact Hk].
  - apply IHa in H as [m1 [r1 [cs1 [-> [H1 H]]]]].
    apply IHb in H as [m2 [r2 [cs2 [-> [H2 H]]]]].
    exists (m1 ++ m2), r2, cs2. rewrite app_assoc. repeat split; [|exact H].
    econstructor; eassumption.
  - destruct (match_k a s cs k) as [y|] eqn:E.
    + injection H as ->. apply IHa in E as [m [rest [cs' [-> [Hm Hk]]]]].
      exists m, rest, cs'. repeat split; [now apply M_AltL|exact Hk].
    + apply IHb in H as [m [rest [cs' [-> [Hm Hk]]]]].
      exists m, rest, cs'. repeat split; [now apply M_AltR|exact Hk].
  - apply IHa in H as [m [rest [cs' [-> [Hm Hk]]]]].
    exists m, rest, ((n, m) :: cs'). repeat split; [now constructor|exact Hk].
Qed.

(** The search is exhaustive: when some way of matching satisfies the
    continuation, the matcher does not fail. *)
Lemma match_k_complete r m cs cs' :
  Matches r m cs cs' ->
  forall rest (k : str -> str -> caps -> option R),
    k m rest cs' <> None -> match_k r (m ++ rest) cs k <> None.
Proof.
  induction 1 as [c cs|p y cs Hp|p m cs Hm|p y m cs Hp Hm
                  |a b m1 m2 cs cs1 cs2 H1 IH1 H2 IH2
                  |a b m cs cs' H1 IH1|a b m cs cs' H2 IH2|n a m cs cs' H1 IH1];
    intros rest k Hk; cbn [match_k].
  - simpl. now rewrite chr_eqb_refl.
  - simpl. now rewrite Hp.
  - now apply star_k_complete.
  - simpl. rewrite Hp. now apply star_k_complete.
  - rewrite <- app_assoc. apply IH1. now apply IH2.
  - specialize (IH1 rest k Hk). now destruct (match_k a (m ++ rest) cs k).
  - specialize (IH2 rest k Hk). now destruct (match_k a (m ++ rest) cs k).
  - now apply IH1.
Qed.

End MatcherFacts.

Lemma re_match_sound r s m rest cs :
  re_match r s = Some (m, rest, cs) -> s = m ++ rest /\ Matches r m [] cs.
Proof.
  unfold re_match. intro H.
  apply match_k_sound in H as [m' [rest' [cs' [-> [Hm Hk]]]]].
  injection Hk as -> -> ->. now split.
Qed.

Lemma re_match_complete r m rest cs :
  Matches r m [] cs -> re_match r (m ++ rest) <> None.
Proof.
  intro H. unfold re_match. apply (match_k_complete _ _ _ _ _ H). discriminate.
Qed.

(** ** Occurrences of a text and the scanning loop *)

Lemma contains_occurs p : forall s, contains p s = true <-> occurs p s.
Proof.
  induction s as [|c s IH].
  - simpl. rewrite orb_false_r. split.
    + intro H. apply startswith_prefix in H as [t H]. exists [], t. exact H.
    + intros [u [v H]]. destruct u; [|discriminate]. simpl in H. rewrite H.
      apply startswith_app.
  - cbn [contains]. rewrite orb_true_iff, IH. split.
    + intros [H|[u [v ->]]].
      * apply startswith_prefix in H as [t ->]. now exists [], t.
      * now exists (c :: u), v.
    + intros [[|x u] [v H]].
      * left. simpl in H. rewrite H. apply startswith_app.
      * right. injection H as -> ->. now exists u, v.
Qed.

Lemma contains_false_occurs p s : contains p s = false <-> ~ occurs p s.
Proof.
  rewrite <- contains_occurs. destruct (contains p s); split; congruence.
Qed.

Lemma occurs_app_l p a b : occurs p a -> occurs p (a ++ b).
Proof. intros [u [v ->]]. exists u, (v ++ b). now rewrite <- !app_assoc. Qed.

Lemma occurs_app_r p a b : occurs p b -> occurs p (a ++ b).
Proof. intros [u [v ->]]. exists (a ++ u), v. now rewrite <- !app_assoc. Qed.

Lemma occurs_cons p c s : occurs p s -> occurs p (c :: s).
Proof. apply (occurs_app_r p [c] s). Qed.

Lemma occurs_refl p : occurs p p.
Proof. exists [], []. now rewrite app_nil_r. Qed.

Lemma occurs_trans p q s : occurs p q -> occurs q s -> occurs p s.
Proof.
  intros [u [v ->]] [u' [v' ->]]. exists (u' ++ u), (v ++ v').
  now rewrite <- !app_assoc.
Qed.

Section ScanKeeps.
Variable St : Type.
Variable find : St -> str -> option (str * nat * St).
Variable p : str.

(** A match never runs past the end of the text. *)
Hypothesis find_within : forall st s rep n st',
  find st s = Some (rep, n, st') -> n <= length s.

(** No match starts inside an occurrence of [p]. *)
Hypothesis find_not_inside : forall st p1 p2 v rep n st',
  p = p1 ++ p2 -> p2 <> [] -> find st (p2 ++ v) <> Some (rep, S n, st').

(** A match that starts before an occurrence of [p] and reaches into it keeps
    [p] in its replacement. *)
Hypothesis find_reaching : forall st u v rep n st',
  u <> [] -> find st (u ++ p ++ v) = Some (rep, S n, st') -> length u < S n ->
  occurs p rep.

Lemma scan_no_hit st c s :
  (forall rep n st', find st (c :: s) <> Some (rep, S n, st')) ->
  scan find st (c :: s) = (c :: fst (scan find st s), snd (scan find st s)).
Proof.
  unfold scan. cbn [scan_from]. intro H.
  destruct (find st (c :: s)) as [[[rep [|n]] st']|] eqn:E.
  - now destruct (scan_from find 0 st s).
  - now destruct (H rep n st').
  - now destruct (scan_from find 0 st s).
Qed.

Lemma scan_through : forall p2 p1 st v,
  p = p1 ++ p2 ->
  scan find st (p2 ++ v) = (p2 ++ fst (scan find st v), snd (scan find st v)).
Proof.
  induction p2 as [|c p2 IH]; intros p1 st v Hp.
  - simpl. now destruct (scan find st v).
  - cbn [app]. rewrite scan_no_hit.
    + rewrite (IH (p1 ++ [c])); [reflexivity|]. now rewrite <- app_assoc.
    + intros rep n st'. apply (find_not_inside st p1 (c :: p2) v); [exact Hp|discriminate].
Qed.

Lemma scan_keeps_bounded : forall n s st,
  length s <= n -> occurs p s -> occurs p (fst (scan find st s)).
Proof.
  induction n as [|n IH]; intros s st Hlen [u [v Hs]].
  - destruct s; [|simpl in Hlen; lia].
    destruct u; [|discriminate]. destruct p; [|discriminate].
    exists [], []. reflexivity.
  - destruct u as [|c u].
    + simpl in Hs. subst s. rewrite (scan_through p [] st v eq_refl). simpl.
      now exists [], (fst (scan find st v)).
    + subst s. cbn [app] in *.
      destruct (find st (c :: u ++ p ++ v)) as [[[rep [|k]] st']|] eqn:E.
      * rewrite scan_no_hit by (intros ? ? ?; rewrite E; discriminate).
        cbn [fst]. apply occurs_cons. apply IH; [simpl in Hlen; lia|now exists u, v].
      * pose proof (find_within _ _ _ _ _ E) as Hk.
        rewrite (scan_hit _ find st _ rep k st' E Hk). cbn [fst].
        destruct (Nat.lt_ge_cases (length (c :: u)) (S k)) as [Hlt|Hge].
        -- apply occurs_app_l.
           apply (find_reaching st (c :: u) v rep k st'); [discriminate|exact E|exact Hlt].
        -- apply occurs_app_r. apply IH.
           ++ rewrite length_skipn. simpl in Hlen |- *. lia.
           ++ change (c :: u ++ p ++ v) with ((c :: u) ++ p ++ v).
              rewrite skipn_app.
              replace (S k - length (c :: u)) with 0 by lia. cbn [skipn].
              now exists (skipn (S k) (c :: u)), v.
      * rewrite scan_no_hit by (intros ? ? ?; rewrite E; discriminate).
        cbn [fst]. apply occurs_cons. apply IH; [simpl in Hlen; lia|now exists u, v].
Qed.

(** A text that occurs in the input of the scan occurs in its output. *)
Lemma scan_keeps s st : occurs p s -> occurs p (fst (scan find st s)).
Proof. apply (scan_keeps_bounded (length s)). apply Nat.le_refl. Qed.

End ScanKeeps.

(** ** Texts that keep clear of the delimiters of a pattern *)

Lemma avoids_app D a b : avoids D (a ++ b) <-> avoids D a /\ avoids D b.
Proof. unfold avoids. rewrite forallb_app. apply andb_true_iff. Qed.

Lemma avoids_cons D c s : avoids D (c :: s) <-> D c = false /\ avoids D s.
Proof.
  unfold avoids. simpl. rewrite andb_true_iff, negb_true_iff. reflexivity.
Qed.

(** A text clear of [D] that starts where [g] starts ends before the first
    character of [D] after [g]. *)
Lemma prefix_before_delim D d : forall p g y v,
  p ++ v = g ++ d :: y -> D d = true -> avoids D p -> exists b, g = p ++ b.
Proof.
  induction p as [|c p IH]; intros g y v H Hd Hp.
  - now exists g.
  - apply avoids_cons in Hp as [Hc Hp]. destruct g as [|x g].
    + simpl in H. injection H as -> _. congruence.
    + simpl in H. injection H as -> H. destruct (IH _ _ _ H Hd Hp) as [b ->].
      now exists b.
Qed.

(** Walking over a run [g] and the delimiter that ends it: an occurrence of
    [p] that starts at offset [length u] lies inside [g] or starts after the
    delimiter. *)
Lemma walk_group D d : forall g t u p v,
  g ++ d :: t = u ++ p ++ v -> D d = true -> avoids D p -> p <> [] ->
  occurs p g \/ exists u', u = g ++ d :: u' /\ t = u' ++ p ++ v.
Proof.
  induction g as [|x g IH]; intros t u p v H Hd Hp Hne.
  - destruct u as [|c u].
    + destruct p as [|c p]; [congruence|]. simpl in H. injection H as <- _.
      apply avoids_cons in Hp as [Hc _]. congruence.
    + simpl in H. injection H as <- ->. right. now exists u.
  - destruct u as [|c u].
    + left. simpl in H. symmetry in H.
      destruct (prefix_before_delim D d p (x :: g) t v H Hd Hp) as [b ->].
      now exists [], b.
    + simpl in H. injection H as <- H.
      destruct (IH _ _ _ _ H Hd Hp Hne) as [Ho|[u' [-> ->]]].
      * left. now apply occurs_cons.
      * right. now exists u'.
Qed.

Lemma avoids_head D p p1 c p2 : avoids D p -> p = p1 ++ c :: p2 -> D c = false.
Proof.
  intros Hp ->. apply avoids_app in Hp as [_ Hp]. now apply avoids_cons in Hp as [Hc _].
Qed.

Lemma occurs_group n cs tpl :
  In (TGrp n) tpl -> occurs (group n cs) (expand tpl cs).
Proof.
  intro Hin. apply in_split in Hin as [t1 [t2 ->]]. unfold expand.
  rewrite flat_map_app. cbn [flat_map]. now eexists _, _.
Qed.

Lemma find_re_within (St : Type) r (repl : St -> caps -> str * St) st s rep n st' :
  find_re r repl st s = Some (rep, n, st') -> n <= length s.
Proof.
  unfold find_re. destruct (re_match r s) as [[[m rest] cs]|] eqn:E; [|discriminate].
  destruct (repl st cs). intro H. injection H as _ <- _.
  apply re_match_sound in E as [-> _]. rewrite length_app. lia.
Qed.

Lemma find_re_inv (St : Type) r (repl : St -> caps -> str * St) st s rep n st' :
  find_re r repl st s = Some (rep, n, st') ->
  exists m rest cs,
    s = m ++ rest /\ Matches r m [] cs /\ n = length m /\ repl st cs = (rep, st').
Proof.
  unfold find_re. destruct (re_match r s) as [[[m rest] cs]|] eqn:E; [|discriminate].
  destruct (repl st cs) as [rep0 st0] eqn:Er. intro H. injection H as <- <- <-.
  apply re_match_sound in E as [-> Hm]. now exists m, rest, cs.
Qed.

Ltac inv_matches :=
  repeat match goal with
         | H : Matches (Seq _ _) _ _ _ |- _ => inversion H; clear H; subst
         | H : Matches (Chr _) _ _ _ |- _ => inversion H; clear H; subst
         | H : Matches (Cls _) _ _ _ |- _ => inversion H; clear H; subst
         | H : Matches (Star _) _ _ _ |- _ => inversion H; clear H; subst
         | H : Matches (Plus _) _ _ _ |- _ => inversion H; clear H; subst
         | H : Matches (Grp _ _) _ _ _ |- _ => inversion H; clear H; subst
         end.

Lemma re_sub_unfold r tpl s : re_sub r tpl s = fst (scan (find_re r (pure_repl tpl)) tt s).
Proof. reflexivity. Qed.

(** *** Patterns made of delimiters and captured runs

    Each of the five rewriting patterns matches a first character followed
    by segments, a segment being a possibly empty run of characters and the
    delimiter that ends it; the runs are what the groups capture. *)
Lemma reach_segments D : forall segs rest u p v,
  flat_segments segs ++ rest = u ++ p ++ v ->
  Forall (fun gd => D (snd gd) = true) segs ->
  avoids D p -> p <> [] -> length u < length (flat_segments segs) ->
  exists g d, In (g, d) segs /\ occurs p g.
Proof.
  induction segs as [|[g d] segs IH]; intros rest u p v H Hd Hp Hne Hlen.
  - simpl in Hlen. lia.
  - cbn [flat_segments flat_map fst snd] in H, Hlen.
    fold (flat_segments segs) in H, Hlen.
    rewrite <- !app_assoc in H. cbn [app] in H.
    inversion Hd as [|? ? Hd1 Hd2]; subst. cbn [snd] in Hd1.
    destruct (walk_group D d g _ u p v H Hd1 Hp Hne) as [Ho|[u' [-> H']]].
    + exists g, d. split; [now left|exact Ho].
    + destruct (IH rest u' p v H' Hd2 Hp Hne) as [g' [d' [Hin Ho]]].
      * rewrite !length_app in Hlen. simpl in Hlen. lia.
      * exists g', d'. split; [now right|exact Ho].
Qed.

Section DelimitedKeeps.
Variable r : re.
Variable tpl : list tpl_item.
Variable D : char -> bool.
Variable p : str.

Hypothesis match_shape : forall m cs,
  Matches r m [] cs ->
  exists c0 segs,
    m = c0 :: flat_segments segs /\
    Forall (fun gd => D (snd gd) = true) segs /\
    forall g d, In (g, d) segs -> g <> [] -> occurs g (expand tpl cs).

Hypothesis match_not_inside : forall m cs p1 p2 v rest,
  Matches r m [] cs -> p = p1 ++ p2 -> p2 <> [] -> p2 ++ v <> m ++ rest.

Hypothesis p_avoids : avoids D p.

Lemma delimited_keeps s : occurs p s -> occurs p (re_sub r tpl s).
Proof.
  rewrite re_sub_unfold. apply scan_keeps.
  - intros st s0 rep n st'. apply find_re_within.
  - intros st p1 p2 v rep n st' Hsplit Hne H.
    apply find_re_inv in H as [m [rest [cs [Hs [Hm _]]]]].
    exact (match_not_inside m cs p1 p2 v rest Hm Hsplit Hne Hs).
  - intros st u v rep n st' Hu H Hlen.
    apply find_re_inv in H as [m [rest [cs [Hs [Hm [Hn Hr]]]]]].
    destruct (match_shape m cs Hm) as [c0 [segs [-> [Hd Hocc]]]].
    unfold pure_repl in Hr. injection Hr as <-.
    destruct u as [|c u]; [congruence|].
    destruct p as [|x p'] eqn:Ep; [now exists [], (expand tpl cs)|].
    rewrite <- Ep in *. assert (Hne : p <> []) by (rewrite Ep; discriminate).
    simpl in Hs. injection Hs as -> Hs. symmetry in Hs.
    destruct (reach_segments D segs rest u p v Hs Hd p_avoids Hne) as [g [d [Hin Ho]]].
    + simpl in Hn, Hlen. lia.
    + apply (occurs_trans _ _ _ Ho). apply (Hocc g d Hin).
      intros ->. destruct Ho as [a [b Ho]]. rewrite Ep in Ho.
      now destruct a.
Qed.

End DelimitedKeeps.

Lemma occurs_group_of n g cs tpl :
  group n cs = g -> In (TGrp n) tpl -> occurs g (expand tpl cs).
Proof. intros <-. apply occurs_group. Qed.

Ltac run_avoids :=
  unfold avoids; cbn [forallb]; try (apply andb_true_intro; split); assumption.

(** *** The five rewrites keep a text that is clear of their delimiters *)

Ltac shape_eq :=
  cbn [flat_segments flat_map fst snd]; rewrite <- ?app_assoc; cbn [app];
  rewrite ?app_nil_r; reflexivity.

Lemma bold_shape m cs :
  Matches bold_pattern m [] cs ->
  exists g, m = ch "*" :: ch "*" :: g ++ [ch "*"; ch "*"] /\ g <> [] /\
            avoids is_star g /\ cs = [(1, g)].
Proof.
  unfold bold_pattern. intro H. inv_matches.
  eexists. repeat split; [discriminate|run_avoids].
Qed.

Lemma italic_shape m cs :
  Matches italic_pattern m [] cs ->
  exists g, m = ch "*" :: g ++ [ch "*"] /\ g <> [] /\
            avoids is_star g /\ cs = [(1, g)].
Proof.
  unfold italic_pattern. intro H. inv_matches.
  eexists. repeat split; [discriminate|run_avoids].
Qed.

Lemma code_shape m cs :
  Matches code_pattern m [] cs ->
  exists g, m = ch "`" :: g ++ [ch "`"] /\ g <> [] /\
            avoids is_backtick g /\ cs = [(1, g)].
Proof.
  unfold code_pattern. intro H. inv_matches.
  eexists. repeat split; [discriminate|run_avoids].
Qed.

Lemma link_shape m cs :
  Matches link_pattern m [] cs ->
  exists g1 g2, m = ch "[" :: g1 ++ ch "]" :: ch "(" :: g2 ++ [ch ")"] /\
                cs = [(2, g2); (1, g1)].
Proof.
  unfold link_pattern. intro H. inv_matches.
  eexists _, _. split; reflexivity.
Qed.

Lemma image_shape m cs :
  Matches image_pattern m [] cs ->
  exists g1 g2, m = ch "!" :: ch "[" :: g1 ++ ch "]" :: ch "(" :: g2 ++ [ch ")"] /\
                cs = [(2, g2); (1, g1)].
Proof.
  unfold image_pattern. intro H. inv_matches.
  eexists _, _. split; reflexivity.
Qed.

Lemma bold_keeps p s :
  avoids is_star p -> occurs p s -> occurs p (re_sub bold_pattern bold_template s).
Proof.
  intro Hp. apply (delimited_keeps _ _ is_star); [| |exact Hp].
  - intros m cs H. apply bold_shape in H as [g [-> [_ [_ ->]]]].
    exists (ch "*"), [([], ch "*"); (g, ch "*"); ([], ch "*")].
    split; [shape_eq|]. split; [repeat constructor|].
    intros g' d [Hin|[Hin|[Hin|[]]]] Hg; injection Hin as <- <-; [congruence| |congruence].
    apply (occurs_group_of 1); [reflexivity|simpl; auto].
  - intros m cs p1 p2 v rest H Hsplit Hne Hs. apply bold_shape in H as [g [-> _]].
    destruct p2 as [|c p2]; [congruence|]. simpl in Hs. injection Hs as -> _.
    assert (Hc := avoids_head _ p p1 _ p2 Hp Hsplit). discriminate Hc.
Qed.

Lemma italic_keeps p s :
  avoids is_star p -> occurs p s -> occurs p (re_sub italic_pattern italic_template s).
Proof.
  intro Hp. apply (delimited_keeps _ _ is_star); [| |exact Hp].
  - intros m cs H. apply italic_shape in H as [g [-> [_ [_ ->]]]].
    exists (ch "*"), [(g, ch "*")].
    split; [shape_eq|]. split; [repeat constructor|].
    intros g' d [Hin|[]] Hg; injection Hin as <- <-.
    apply (occurs_group_of 1); [reflexivity|simpl; auto].
  - intros m cs p1 p2 v rest H Hsplit Hne Hs. apply italic_shape in H as [g [-> _]].
    destruct p2 as [|c p2]; [congruence|]. simpl in Hs. injection Hs as -> _.
    assert (Hc := avoids_head _ p p1 _ p2 Hp Hsplit). discriminate Hc.
Qed.

Lemma code_rewrite_keeps p s :
  avoids is_backtick p -> occurs p s -> occurs p (code_rewrite s).
Proof.
  intro Hp. apply (delimited_keeps _ _ is_backtick); [| |exact Hp].
  - intros m cs H. apply code_shape in H as [g [-> [_ [_ ->]]]].
    exists (ch "`"), [(g, ch "`")].
    split; [shape_eq|]. split; [repeat constructor|].
    intros g' d [Hin|[]] Hg; injection Hin as <- <-.
    apply (occurs_group_of 1); [reflexivity|simpl; auto].
  - intros m cs p1 p2 v rest H Hsplit Hne Hs. apply code_shape in H as [g [-> _]].
    destruct p2 as [|c p2]; [congruence|]. simpl in Hs. injection Hs as -> _.
    assert (Hc := avoids_head _ p p1 _ p2 Hp Hsplit). discriminate Hc.
Qed.

Lemma link_keeps p s :
  avoids is_bracket p -> occurs p s -> occurs p (re_sub link_pattern link_template s).
Proof.
  intro Hp. apply (delimited_keeps _ _ is_bracket); [| |exact Hp].
  - intros m cs H. apply link_shape in H as [g1 [g2 [-> ->]]].
    exists (ch "["), [(g1, ch "]"); ([], ch "("); (g2, ch ")")].
    split; [shape_eq|]. split; [repeat constructor|].
    intros g d [Hin|[Hin|[Hin|[]]]] Hg; injection Hin as <- <-; [|congruence|].
    + apply (occurs_group_of 1); [reflexivity|simpl; auto].
    + apply (occurs_group_of 2); [reflexivity|simpl; auto].
  - intros m cs p1 p2 v rest H Hsplit Hne Hs. apply link_shape in H as [g1 [g2 [-> _]]].
    destruct p2 as [|c p2]; [congruence|]. simpl in Hs. injection Hs as -> _.
    assert (Hc := avoids_head _ p p1 _ p2 Hp Hsplit). discriminate Hc.
Qed.

(** The image pattern starts with an exclamation mark, which may well occur
    in the kept text, only not as its last character. *)
Lemma image_keeps p s :
  avoids is_bracket p -> last p 0%N <> ch "!" ->
  occurs p s -> occurs p (re_sub image_pattern image_template s).
Proof.
  intros Hp Hlast. apply (delimited_keeps _ _ is_bracket); [| |exact Hp].
  - intros m cs H. apply image_shape in H as [g1 [g2 [-> ->]]].
    exists (ch "!"), [([], ch "["); (g1, ch "]"); ([], ch "("); (g2, ch ")")].
    split; [shape_eq|]. split; [repeat constructor|].
    intros g d [Hin|[Hin|[Hin|[Hin|[]]]]] Hg; injection Hin as <- <-;
      [congruence| |congruence|].
    + apply (occurs_group_of 1); [reflexivity|simpl; auto].
    + apply (occurs_group_of 2); [reflexivity|simpl; auto].
  - intros m cs p1 p2 v rest H Hsplit Hne Hs. apply image_shape in H as [g1 [g2 [-> _]]].
    destruct p2 as [|c p2]; [congruence|]. simpl in Hs. injection Hs as -> Hs.
    destruct p2 as [|c p2].
    + apply Hlast. rewrite Hsplit. now rewrite last_last.
    + injection Hs as -> _.
      assert (Hc := avoids_head is_bracket p (p1 ++ [ch "!"]) (ch "[") p2 Hp).
      rewrite <- app_assoc in Hc. specialize (Hc Hsplit). discriminate Hc.
Qed.

(** ** [str.replace] and occurrences *)

Lemma find_literal_inv old new st s rep n st' :
  find_literal old new st s = Some (rep, n, st') ->
  rep = new /\ n = length old /\ exists t, s = old ++ t.
Proof.
  unfold find_literal. destruct (startswith old s) eqn:E; [|discriminate].
  intro H. injection H as <- <- _. repeat split. now apply startswith_prefix.
Qed.

Lemma replace_unfold old new s :
  old <> [] -> replace old new s = fst (scan (find_literal old new) tt s).
Proof. now destruct old. Qed.

Lemma last_app_nonempty (p1 p2 : str) d : p2 <> [] -> last (p1 ++ p2) d = last p2 d.
Proof.
  intro Hne. induction p1 as [|a p1 IH]; [reflexivity|].
  cbn [app]. cbn [last]. rewrite IH. destruct (p1 ++ p2) eqn:E; [|reflexivity].
  apply app_eq_nil in E as [_ ->]. congruence.
Qed.

(** A text whose first and last characters do not occur in [old], and in
    which [old] does not occur, survives the replacement of [old]. *)
Lemma replace_keeps old new p s :
  old <> [] ->
  ~ In (hd 0%N p) old -> ~ In (last p 0%N) old -> ~ occurs old p ->
  occurs p s -> occurs p (replace old new s).
Proof.
  intros Hold Hfirst Hlast Hocc. rewrite replace_unfold by exact Hold.
  apply scan_keeps.
  - intros st s0 rep n st' H. apply find_literal_inv in H as [_ [-> [t ->]]].
    rewrite length_app. lia.
  - intros st p1 p2 v rep n st' Hsplit Hne H.
    apply find_literal_inv in H as [_ [_ [t Ht]]].
    apply app_eq_app in Ht as [l [[-> _]|[-> _]]].
    + apply Hocc. exists p1, l. now rewrite Hsplit.
    + apply Hlast. rewrite Hsplit, last_app_nonempty by exact Hne.
      destruct (exists_last Hne) as [q [c ->]]. rewrite last_last.
      apply in_or_app. left. apply in_or_app. right. now left.
  - intros st u v rep n st' Hu H Hlen.
    apply find_literal_inv in H as [_ [Hn [t Ht]]].
    apply app_eq_app in Ht as [l [[-> _]|[-> Hl]]].
    + rewrite length_app in Hlen. lia.
    + destruct l as [|c l].
      * rewrite app_nil_r in Hn. lia.
      * destruct p as [|x p']; [now exists [], rep|].
        simpl in Hl. injection Hl as -> _. exfalso. apply Hfirst.
        apply in_or_app. right. now left.
Qed.

(** Replacing [old] where it occurs leaves [new] in the result. *)
Lemma replace_hits old new : forall u v,
  old <> [] -> occurs new (replace old new (u ++ old ++ v)).
Proof.
  intros u v Hold. rewrite replace_unfold by exact Hold.
  induction u as [|c u IH].
  - cbn [app]. destruct old as [|x old']; [congruence|].
    rewrite (scan_hit _ _ tt _ new (length old') tt).
    + cbn [fst]. apply occurs_app_l, occurs_refl.
    + unfold find_literal. now rewrite startswith_app.
    + simpl. rewrite length_app. lia.
  - cbn [app].
    destruct (find_literal old new tt (c :: u ++ old ++ v)) as [[[rep [|k]] []]|] eqn:E.
    + apply find_literal_inv in E as [_ [Hn _]]. destruct old; [congruence|discriminate].
    + pose proof (find_literal_inv _ _ _ _ _ _ _ E) as [-> [Hn [t Ht]]].
      rewrite (scan_hit _ _ tt _ new k tt E).
      * cbn [fst]. apply occurs_app_l, occurs_refl.
      * rewrite Hn, Ht, length_app. lia.
    + rewrite scan_miss by exact E. cbn [fst]. now apply occurs_cons.
Qed.

(** An occurrence in a concatenation lies in one part or straddles the
    seam. *)
Lemma occurs_app_cases k x y :
  occurs k (x ++ y) ->
  occurs k x \/ occurs k y \/
  exists k1 k2 x1 y2,
    k = k1 ++ k2 /\ k1 <> [] /\ k2 <> [] /\ x = x1 ++ k1 /\ y = k2 ++ y2.
Proof.
  intros [u [v H]]. symmetry in H.
  apply app_eq_app in H as [l [[-> ->]|[-> H]]].
  - right. left. now exists l, v.
  - apply app_eq_app in H as [l' [[-> ->]|[-> ->]]].
    + destruct l as [|a l].
      * right. left. now exists [], v.
      * destruct l' as [|b l'].
        -- left. exists u, []. now rewrite !app_nil_r.
        -- right. right. exists (a :: l), (b :: l'), u, v.
           repeat split; discriminate.
    + left. now exists u, l'.
Qed.

(** A text [n] whose first and last characters do not occur in [k] separates
    what is before it from what is after it. *)
Lemma occurs_separated k x n y :
  n <> [] -> ~ In (hd 0%N n) k -> ~ In (last n 0%N) k ->
  occurs k (x ++ n ++ y) -> occurs k x \/ occurs k n \/ occurs k y.
Proof.
  intros Hn Hfirst Hlast H.
  apply occurs_app_cases in H as [H|[H|[k1 [k2 [x1 [y2 [-> [H1 [H2 [-> H]]]]]]]]]].
  - now left.
  - apply occurs_app_cases in H as [H|[H|[k1 [k2 [x1 [y2 [-> [H1 [H2 [-> H]]]]]]]]]].
    + right. now left.
    + right. now right.
    + exfalso. apply Hlast. rewrite last_app_nonempty by exact H1.
      destruct (exists_last H1) as [q [c ->]]. rewrite last_last.
      apply in_or_app. left. apply in_or_app. right. now left.
  - exfalso. apply Hfirst. destruct n as [|a n]; [congruence|].
    destruct k2 as [|b k2]; [congruence|]. simpl in H. injection H as -> _.
    apply in_or_app. right. now left.
Qed.

Lemma startswith_occurs k s : startswith k s = true -> occurs k s.
Proof. intro H. apply startswith_prefix in H as [t ->]. now exists [], t. Qed.

Section ReplaceAvoids.
Variables old new k : str.
Hypothesis old_nonempty : old <> [].
Hypothesis k_nonempty : k <> [].
Hypothesis new_nonempty : new <> [].
Hypothesis new_first : ~ In (hd 0%N new) k.
Hypothesis new_last : ~ In (last new 0%N) k.
Hypothesis new_clear : ~ occurs k new.

Lemma none_starts_in_clear acc s : none_starts_in k acc s -> ~ occurs k acc.
Proof.
  intros H [u [v Hacc]].
  assert (Hs : startswith k ((k ++ v) ++ s) = false).
  { apply (H u (k ++ v) Hacc). now destruct k. }
  rewrite <- app_assoc, startswith_app in Hs. discriminate.
Qed.

Lemma scan_avoids_bounded : forall n s acc,
  length s <= n -> miss_clear old k s -> none_starts_in k acc s ->
  ~ occurs k (acc ++ fst (scan (find_literal old new) tt s)).
Proof.
  induction n as [|n IH]; intros s acc Hlen Hmiss Hacc.
  - destruct s; [|simpl in Hlen; lia]. simpl. rewrite app_nil_r.
    now apply (none_starts_in_clear acc []).
  - destruct s as [|c s].
    { simpl. rewrite app_nil_r. now apply (none_starts_in_clear acc []). }
    destruct (find_literal old new tt (c :: s)) as [[[rep [|j]] []]|] eqn:E.
    + apply find_literal_inv in E as [_ [Hn _]]. destruct old; [congruence|discriminate].
    + pose proof (find_literal_inv _ _ _ _ _ _ _ E) as [-> [Hj [t Ht]]].
      rewrite (scan_hit _ _ tt _ new j tt E) by (rewrite Hj, Ht, length_app; lia).
      cbn [fst]. intro Ho.
      apply occurs_separated in Ho as [Ho|[Ho|Ho]];
        [| | |exact new_nonempty|exact new_first|exact new_last].
      * exact (none_starts_in_clear _ _ Hacc Ho).
      * exact (new_clear Ho).
      * revert Ho. apply (IH _ []).
        -- rewrite length_skipn. simpl in Hlen |- *. lia.
        -- intros s1 s2 Hs. apply (Hmiss (firstn (S j) (c :: s) ++ s1) s2).
           rewrite <- app_assoc, <- Hs. symmetry. apply firstn_skipn.
        -- intros a1 a2 Ha Hne. symmetry in Ha. apply app_eq_nil in Ha as [_ ->].
           congruence.
    + unfold find_literal in E. destruct (startswith old (c :: s)) eqn:Es; [discriminate|].
      rewrite scan_miss by (unfold find_literal; now rewrite Es). cbn [fst].
      change (acc ++ c :: fst (scan (find_literal old new) tt s))
        with (acc ++ [c] ++ fst (scan (find_literal old new) tt s)).
      rewrite app_assoc. apply IH.
      * simpl in Hlen. lia.
      * intros s1 s2 Hs. apply (Hmiss (c :: s1) s2). now rewrite Hs.
      * intros a1 a2 Ha Hne.
        destruct (exists_last Hne) as [q [x Hq]]. subst a2.
        rewrite app_assoc in Ha. apply app_inj_tail in Ha as [Ha ->].
        rewrite <- app_assoc. cbn [app].
        destruct q as [|y q].
        -- simpl. apply (Hmiss [] (x :: s) eq_refl Es).
        -- apply (Hacc a1 (y :: q)); [now symmetry|discriminate].
Qed.

End ReplaceAvoids.

(** After [old] has been replaced by [new] it no longer occurs. *)
Lemma replace_removes old new s :
  old <> [] -> new <> [] ->
  ~ In (hd 0%N new) old -> ~ In (last new 0%N) old -> ~ occurs old new ->
  ~ occurs old (replace old new s).
Proof.
  intros Hold Hnew Hfirst Hlast Hclear. rewrite replace_unfold by exact Hold.
  apply (scan_avoids_bounded old new old Hold Hold Hnew Hfirst Hlast Hclear
           (length s) s [] (Nat.le_refl _)).
  - intros s1 s2 _ H. exact H.
  - intros a1 a2 Ha Hne. symmetry in Ha. apply app_eq_nil in Ha as [_ ->]. congruence.
Qed.

(** Replacing [old] by [new] brings no occurrence of [k] into a text that
    had none. *)
Lemma replace_brings_none old new k s :
  old <> [] -> k <> [] -> new <> [] ->
  ~ In (hd 0%N new) k -> ~ In (last new 0%N) k -> ~ occurs k new ->
  ~ occurs k s -> ~ occurs k (replace old new s).
Proof.
  intros Hold Hk Hnew Hfirst Hlast Hclear Hs. rewrite replace_unfold by exact Hold.
  apply (scan_avoids_bounded old new k Hold Hk Hnew Hfirst Hlast Hclear
           (length s) s [] (Nat.le_refl _)).
  - intros s1 s2 -> _. destruct (startswith k s2) eqn:E; [|reflexivity].
    exfalso. apply Hs. apply occurs_app_r. now apply startswith_occurs.
  - intros a1 a2 Ha Hne. symmetry in Ha. apply app_eq_nil in Ha as [_ ->]. congruence.
Qed.

(** An occurrence of [k] in [a ++ s ++ b] lies in [s] when [k] shares no
    character with [a] and [b]. *)
Lemma occurs_disjoint k a : k <> [] -> (forall c, In c a -> ~ In c k) -> ~ occurs k a.
Proof.
  intros Hk Ha [u [v ->]]. destruct k as [|c k]; [congruence|].
  apply (Ha c); [|now left]. apply in_or_app. right. now left.
Qed.

Lemma occurs_between k a s b :
  k <> [] -> (forall c, In c a -> ~ In c k) -> (forall c, In c b -> ~ In c k) ->
  occurs k (a ++ s ++ b) -> occurs k s.
Proof.
  intros Hk Ha Hb H.
  apply occurs_app_cases in H as [H|[H|[k1 [k2 [x1 [y2 [-> [H1 [H2 [-> H]]]]]]]]]].
  - now destruct (occurs_disjoint _ _ Hk Ha H).
  - apply occurs_app_cases in H as [H|[H|[k1 [k2 [x1 [y2 [-> [H1 [H2 [-> H]]]]]]]]]].
    + exact H.
    + now destruct (occurs_disjoint _ _ Hk Hb H).
    + exfalso. destruct k2 as [|c k2]; [congruence|]. apply (Hb c).
      * rewrite H. now left.
      * apply in_or_app. right. now left.
  - exfalso. destruct (exists_last H1) as [q [c ->]]. apply (Ha c).
    + apply in_or_app. right. apply in_or_app. right. now left.
    + apply in_or_app. left. apply in_or_app. right. now left.
Qed.

(** ** Placeholder tokens *)

Lemma str_of_nat_digits n : forallb (in_range 48 57) (str_of_nat n) = true.
Proof.
  unfold str_of_nat. generalize (Nat.to_uint n). intro d.
  induction d; simpl; auto.
Qed.

Lemma str_of_nat_inj n m : str_of_nat n = str_of_nat m -> n = m.
Proof.
  unfold str_of_nat. intro H.
  apply DecimalNat.Unsigned.to_uint_inj.
  assert (Hs : DecimalString.NilEmpty.string_of_uint (Nat.to_uint n) =
               DecimalString.NilEmpty.string_of_uint (Nat.to_uint m)).
  { rewrite <- (String.string_of_list_ascii_of_string
                  (DecimalString.NilEmpty.string_of_uint (Nat.to_uint n))),
            <- (String.string_of_list_ascii_of_string
                  (DecimalString.NilEmpty.string_of_uint (Nat.to_uint m))).
    f_equal.
    assert (Hinj : forall l1 l2 : list Ascii.ascii,
               map Ascii.N_of_ascii l1 = map Ascii.N_of_ascii l2 -> l1 = l2).
    { induction l1 as [|a l1 IH]; intros [|b l2] Hm; try discriminate; [reflexivity|].
      simpl in Hm. injection Hm as Ha Hm. f_equal; [|now apply IH].
      rewrite <- (Ascii.ascii_N_embedding a), <- (Ascii.ascii_N_embedding b).
      now rewrite Ha. }
    now apply Hinj. }
  apply (f_equal DecimalString.NilEmpty.uint_of_string) in Hs.
  rewrite !DecimalString.NilEmpty.usu in Hs. now injection Hs.
Qed.

Lemma placeholder_of_inj n m : placeholder_of n = placeholder_of m -> n = m.
Proof.
  unfold placeholder_of. intro H. apply app_inv_head in H.
  apply app_inv_tail in H. now apply str_of_nat_inj.
Qed.

Lemma placeholder_chars n : forallb ph_char (placeholder_of n) = true.
Proof.
  unfold placeholder_of. rewrite !forallb_app.
  apply andb_true_intro; split; [reflexivity|].
  apply andb_true_intro; split; [|reflexivity].
  pose proof (str_of_nat_digits n) as H. rewrite forallb_forall in *.
  intros c Hc. unfold ph_char. rewrite (H c Hc). apply orb_true_r.
Qed.

Lemma placeholder_not_in c n : ph_char c = false -> ~ In c (placeholder_of n).
Proof.
  intros Hc Hin. pose proof (placeholder_chars n) as H.
  rewrite forallb_forall in H. rewrite (H c Hin) in Hc. discriminate.
Qed.

Lemma placeholder_nonempty n : placeholder_of n <> [].
Proof. unfold placeholder_of. discriminate. Qed.

Lemma placeholder_has_prefix n : occurs ph_prefix (placeholder_of n).
Proof. now exists [], (str_of_nat n ++ lit "__"). Qed.

(** A token cannot occur in [a ++ s ++ b] outside [s] when [a] and [b] hold
    no token character. *)
Lemma placeholder_between n a s b :
  forallb (fun c => negb (ph_char c)) (a ++ b) = true ->
  occurs (placeholder_of n) (a ++ s ++ b) -> occurs ph_prefix s.
Proof.
  intros Hab H. rewrite forallb_app in Hab. apply andb_true_iff in Hab as [Ha Hb].
  rewrite forallb_forall in Ha, Hb.
  apply (occurs_trans _ _ _ (placeholder_has_prefix n)).
  apply (occurs_between _ a s b (placeholder_nonempty n)); [| |exact H].
  - intros c Hc. apply placeholder_not_in. apply negb_true_iff. now apply Ha.
  - intros c Hc. apply placeholder_not_in. apply negb_true_iff. now apply Hb.
Qed.

(** ** The dict of protected spans *)

Lemma dict_set_Forall (P : str * str -> Prop) k v : forall d,
  Forall P d -> (forall k', str_eqb k' k = true -> P (k', v)) -> P (k, v) ->
  Forall P (dict_set k v d).
Proof.
  induction d as [|[k' v'] d IH]; intros Hd Hk Hkv; cbn [dict_set].
  - now constructor.
  - inversion Hd; subst. destruct (str_eqb k' k) eqn:E.
    + constructor; [now apply Hk|assumption].
    + constructor; [assumption|now apply IH].
Qed.

Section ScanInvariant.
Variable St : Type.
Variable find : St -> str -> option (str * nat * St).
Variable text : str.
Variable Inv : St -> Prop.

Hypothesis find_inv : forall st u s rep n st',
  text = u ++ s -> Inv st -> find st s = Some (rep, n, st') -> Inv st'.

Lemma scan_from_invariant : forall s k st u,
  text = u ++ s -> Inv st -> Inv (snd (scan_from find k st s)).
Proof.
  induction s as [|c s IH]; intros k st u Hu Hst; [exact Hst|].
  assert (Hu' : text = (u ++ [c]) ++ s) by now rewrite <- app_assoc.
  cbn [scan_from]. destruct k as [|k]; [|now apply (IH k st (u ++ [c]))].
  destruct (find st (c :: s)) as [[[rep [|j]] st']|] eqn:E.
  - specialize (IH 0 st _ Hu' Hst). now destruct (scan_from find 0 st s).
  - pose proof (find_inv _ _ _ _ _ _ Hu Hst E) as Hst'.
    specialize (IH j st' _ Hu' Hst'). now destruct (scan_from find j st' s).
  - specialize (IH 0 st _ Hu' Hst). now destruct (scan_from find 0 st s).
Qed.

End ScanInvariant.

(** ** Matching a math span and a code span *)

Lemma class_not_dollar (p : char -> bool) :
  p (ch "$") = false -> forall c, p c = true -> is_dollar c = false.
Proof.
  intros Hp c Hc. unfold is_dollar, is_chr.
  destruct (chr_eqb c (ch "$")) eqn:E; [|reflexivity].
  apply chr_eqb_eq in E. subst. congruence.
Qed.

Lemma avoids_of_forallb D (p : char -> bool) s :
  (forall c, p c = true -> D c = false) -> forallb p s = true -> avoids D s.
Proof.
  intros Hp Hs. unfold avoids. rewrite forallb_forall in *.
  intros c Hc. apply negb_true_iff, Hp, Hs, Hc.
Qed.

Lemma math_shape m cs :
  Matches math_pattern m [] cs ->
  exists g, m = ch "$" :: g ++ [ch "$"] /\ avoids is_dollar g /\ cs = [(1, g)].
Proof.
  unfold math_pattern. intro H. inv_matches.
  match goal with
  | Ha : Matches (Alt _ _) _ _ _ |- _ =>
    inversion Ha as [| | | | |? ? ? ? ? Hl|? ? ? ? ? Hr|]; clear Ha; subst
  end.
  - inv_matches. eexists. split; [reflexivity|split; [|reflexivity]].
    rewrite !avoids_app. repeat split; try run_avoids.
    apply avoids_cons. split; [|reflexivity].
    now apply (class_not_dollar math_op).
  - inversion Hr as [| | | | |? ? ? ? ? Hl|? ? ? ? ? Hr'|]; clear Hr; subst.
    + inv_matches. eexists. split; [reflexivity|split; [|reflexivity]].
      rewrite !avoids_app. repeat split; try run_avoids.
      apply avoids_cons. split; [now apply (class_not_dollar ascii_letter)|].
      apply (avoids_of_forallb _ ascii_letter); [|assumption].
      now apply (class_not_dollar ascii_letter).
    + inv_matches. eexists. split; [reflexivity|split; [|reflexivity]].
      rewrite !avoids_app. repeat split; try run_avoids.
      apply avoids_cons. split; [|reflexivity].
      now apply (class_not_dollar greek).
Qed.

Lemma avoids_not_chr d s : avoids (is_chr d) s -> forallb (not_chr d) s = true.
Proof. intro H. exact H. Qed.

Lemma math_matches a c b :
  avoids is_dollar a -> avoids is_dollar b -> math_trigger c = true ->
  Matches math_pattern (ch "$" :: (a ++ c :: b) ++ [ch "$"]) [] [(1, a ++ c :: b)].
Proof.
  intros Ha Hb Hc. unfold math_pattern.
  change (ch "$" :: (a ++ c :: b) ++ [ch "$"])
    with ([ch "$"] ++ (a ++ [c] ++ b) ++ [ch "$"]).
  change (a ++ c :: b) with (a ++ [c] ++ b).
  apply M_Seq with (cs1 := []); [constructor|].
  apply M_Seq with (cs1 := [(1, a ++ [c] ++ b)]); [|constructor].
  apply M_Grp. apply M_Seq with (cs1 := []); [now apply M_Star, avoids_not_chr|].
  apply M_Seq with (cs1 := []); [|now apply M_Star, avoids_not_chr].
  unfold math_trigger in Hc. destruct (math_op c) eqn:E.
  - apply M_AltL. now constructor.
  - apply M_AltR, M_AltR. now constructor.
Qed.

Lemma code_matches x c :
  avoids is_backtick (x :: c) ->
  Matches code_pattern (ch "`" :: (x :: c) ++ [ch "`"]) [] [(1, x :: c)].
Proof.
  intro Hc. unfold code_pattern.
  change (ch "`" :: (x :: c) ++ [ch "`"]) with ([ch "`"] ++ (x :: c) ++ [ch "`"]).
  apply M_Seq with (cs1 := []); [constructor|].
  apply M_Seq with (cs1 := [(1, x :: c)]); [|constructor].
  apply M_Grp. apply avoids_not_chr in Hc. cbn [forallb] in Hc.
  apply andb_true_iff in Hc as [Hx Hc]. now constructor.
Qed.

(** Two runs clear of [D] that end at a character of [D] and start at the
    same place are the same run. *)
Lemma unique_run D d : forall g m r r',
  avoids D g -> avoids D m -> D d = true ->
  g ++ d :: r = m ++ d :: r' -> g = m /\ r = r'.
Proof.
  induction g as [|x g IH]; intros [|y m] r r' Hg Hm Hd H; simpl in H.
  - injection H as ->. now split.
  - injection H as <- _. apply avoids_cons in Hm as [Hy _]. congruence.
  - injection H as -> _. apply avoids_cons in Hg as [Hx _]. congruence.
  - injection H as -> H. apply avoids_cons in Hg as [_ Hg].
    apply avoids_cons in Hm as [_ Hm].
    destruct (IH _ _ _ Hg Hm Hd H) as [-> ->]. now split.
Qed.

Lemma math_find st m post :
  avoids is_dollar m -> existsb math_trigger m = true ->
  find_re math_pattern protect_math st (ch "$" :: m ++ ch "$" :: post) =
    Some (placeholder_of (math_counter st), S (S (length m)),
          snd (protect_math st [(1, m)])).
Proof.
  intros Hm Ht. unfold find_re.
  destruct (re_match math_pattern (ch "$" :: m ++ ch "$" :: post))
    as [[[mm rest] cs]|] eqn:E.
  - apply re_match_sound in E as [Hs Hmm].
    apply math_shape in Hmm as [g [-> [Hg ->]]].
    simpl in Hs. injection Hs as Hs. rewrite <- app_assoc in Hs. cbn [app] in Hs.
    symmetry in Hs. destruct (unique_run is_dollar (ch "$") _ _ _ _ Hg Hm eq_refl Hs) as [-> ->].
    cbn [protect_math snd].
    replace (length (ch "$" :: m ++ [ch "$"])) with (S (S (length m)))
      by (simpl; rewrite length_app; simpl; lia).
    reflexivity.
  - exfalso. apply existsb_exists in Ht as [c [Hin Hc]].
    apply in_split in Hin as [a [b ->]].
    apply avoids_app in Hm as [Ha Hb]. apply avoids_cons in Hb as [_ Hb].
    apply (re_match_complete _ _ post _ (math_matches a c b Ha Hb Hc)).
    rewrite <- E. f_equal. simpl. now rewrite <- app_assoc.
Qed.

Lemma code_find c post :
  c <> [] -> avoids is_backtick c ->
  find_re code_pattern (pure_repl code_template) tt (ch "`" :: c ++ ch "`" :: post) =
    Some (lit "<code>" ++ c ++ lit "</code>", S (S (length c)), tt).
Proof.
  intros Hne Hc. unfold find_re.
  destruct (re_match code_pattern (ch "`" :: c ++ ch "`" :: post))
    as [[[mm rest] cs]|] eqn:E.
  - apply re_match_sound in E as [Hs Hmm].
    apply code_shape in Hmm as [g [-> [_ [Hg ->]]]].
    simpl in Hs. injection Hs as Hs. rewrite <- app_assoc in Hs. cbn [app] in Hs.
    symmetry in Hs.
    destruct (unique_run is_backtick (ch "`") _ _ _ _ Hg Hc eq_refl Hs) as [-> ->].
    unfold pure_repl.
    replace (length (ch "`" :: c ++ [ch "`"])) with (S (S (length c)))
      by (simpl; rewrite length_app; simpl; lia).
    reflexivity.
  - exfalso. destruct c as [|x c]; [congruence|].
    apply (re_match_complete _ _ post _ (code_matches x c Hc)).
    rewrite <- E. f_equal. simpl. now rewrite <- app_assoc.
Qed.

Lemma find_re_not_inside (St : Type) r (repl : St -> caps -> str * St) D p :
  (forall m cs, Matches r m [] cs -> exists d m', m = d :: m' /\ D d = true) ->
  avoids D p ->
  forall st p1 p2 v rep n st',
    p = p1 ++ p2 -> p2 <> [] -> find_re r repl st (p2 ++ v) <> Some (rep, S n, st').
Proof.
  intros Hstart Hp st p1 p2 v rep n st' Hsplit Hne H.
  apply find_re_inv in H as [m [rest [cs [Hs [Hm _]]]]].
  destruct (Hstart m cs Hm) as [d [m' [-> Hd]]].
  destruct p2 as [|c p2]; [congruence|]. simpl in Hs. injection Hs as -> _.
  rewrite (avoids_head D p p1 d p2 Hp Hsplit) in Hd. discriminate.
Qed.

(** Scanning a text in which no match starts, up to a match. *)
Lemma scan_prefix_hit (St : Type) (find : St -> str -> option (str * nat * St))
      pre x st rep n st' :
  (forall st p1 p2 v rep n st',
     pre = p1 ++ p2 -> p2 <> [] -> find st (p2 ++ v) <> Some (rep, S n, st')) ->
  find st x = Some (rep, S n, st') -> S n <= length x ->
  scan find st (pre ++ x) =
    (pre ++ rep ++ fst (scan find st' (skipn (S n) x)),
     snd (scan find st' (skipn (S n) x))).
Proof.
  intros Hpre Hx Hn.
  rewrite (scan_through St find pre Hpre pre [] st x eq_refl).
  now rewrite (scan_hit St find st x rep n st' Hx Hn).
Qed.

(** ** The inline formatter *)

Lemma last_between (a g b : str) d : b <> [] -> last (a ++ g ++ b) d = last b d.
Proof. intro Hb. rewrite app_assoc. now apply last_app_nonempty. Qed.

Lemma protect_math_entries text : forall s k st u,
  text = u ++ s -> Forall (entry_of text) (math_placeholders st) ->
  Forall (entry_of text)
         (math_placeholders (snd (scan_from (find_re math_pattern protect_math) k st s))).
Proof.
  intros s k st u Hu Hst.
  apply (scan_from_invariant _ _ text
           (fun st => Forall (entry_of text) (math_placeholders st))) with (u := u);
    [|exact Hu|exact Hst].
  clear. intros st u s rep n st' Hu Hinv Hf.
  apply find_re_inv in Hf as [m [rest [cs [-> [Hm [_ Hr]]]]]].
  apply math_shape in Hm as [g [-> [_ ->]]].
  unfold protect_math in Hr. injection Hr as _ <-. cbn [math_placeholders].
  change (group 1 [(1, g)]) with g.
  assert (He : entry_of text (placeholder_of (math_counter st), lit "\(" ++ g ++ lit "\)")).
  { exists (math_counter st), g. repeat split. rewrite Hu.
    exists (u ++ [ch "$"]), ([ch "$"] ++ rest). simpl. now rewrite <- !app_assoc. }
  apply dict_set_Forall; [exact Hinv| |exact He].
  intros k' Hk. apply str_eqb_eq in Hk. now subst.
Qed.

Lemma before_code_entries text : Forall (entry_of text) (snd (before_code text)).
Proof.
  unfold before_code, re_sub_with, scan.
  pose proof (protect_math_entries text text 0 math_state0 [] eq_refl) as H.
  destruct (scan_from (find_re math_pattern protect_math) 0 math_state0 text) as [t st].
  cbn [snd] in *. apply H. constructor.
Qed.

Lemma protect_first_entry v0 : forall s k st,
  (exists d', math_placeholders st = (placeholder_of 0, v0) :: d' /\ 1 <= math_counter st) ->
  exists d',
    math_placeholders (snd (scan_from (find_re math_pattern protect_math) k st s)) =
    (placeholder_of 0, v0) :: d'.
Proof.
  intros s k st Hst.
  assert (H : exists d',
             math_placeholders (snd (scan_from (find_re math_pattern protect_math) k st s)) =
             (placeholder_of 0, v0) :: d' /\
             1 <= math_counter (snd (scan_from (find_re math_pattern protect_math) k st s))).
  { apply (scan_from_invariant _ _ s
             (fun st => exists d', math_placeholders st = (placeholder_of 0, v0) :: d'
                                   /\ 1 <= math_counter st)) with (u := []);
      [|reflexivity|exact Hst].
    clear. intros st u s0 rep n st' _ [d' [Hd Hc]] Hf.
    apply find_re_inv in Hf as [m [rest [cs [_ [_ [_ Hr]]]]]].
    unfold protect_math in Hr. injection Hr as _ <-.
    cbn [math_placeholders math_counter]. rewrite Hd. cbn [dict_set].
    destruct (str_eqb (placeholder_of 0) (placeholder_of (math_counter st))) eqn:E.
    - apply str_eqb_eq, placeholder_of_inj in E. lia.
    - eexists. split; [reflexivity|lia]. }
  destruct H as [d' [H _]]. now exists d'.
Qed.

(** The protection pass on a text whose first dollar opens a protected
    span. *)
Lemma before_code_first pre m post :
  avoids is_dollar pre -> avoids is_dollar m -> existsb math_trigger m = true ->
  exists t d',
    before_code (pre ++ ch "$" :: m ++ ch "$" :: post) =
      (t, (placeholder_of 0, math_value m) :: d') /\
    occurs (placeholder_of 0) t.
Proof.
  intros Hpre Hm Ht. unfold before_code, re_sub_with.
  rewrite (scan_prefix_hit _ _ pre _ math_state0 _ _ _
             (find_re_not_inside _ math_pattern protect_math is_dollar pre
                (fun m cs H => match math_shape m cs H with
                               | ex_intro _ g (conj Hg _) =>
                                 ex_intro _ (ch "$")
                                   (ex_intro _ (g ++ [ch "$"]) (conj Hg eq_refl))
                               end) Hpre)
             (math_find math_state0 m post Hm Ht));
    [|simpl; rewrite length_app; simpl; lia].
  destruct (protect_first_entry (math_value m)
              (skipn (S (S (length m))) (ch "$" :: m ++ ch "$" :: post)) 0
              (snd (protect_math math_state0 [(1, m)]))) as [d' Hd].
  { exists []. split; [reflexivity|]. simpl. lia. }
  unfold scan. rewrite Hd. do 2 eexists. split; [reflexivity|].
  apply italic_keeps; [reflexivity|]. apply bold_keeps; [reflexivity|].
  apply occurs_app_r, occurs_app_l, occurs_refl.
Qed.

(** What the restoration loop keeps and what it removes. *)
Lemma restore_keeps p : forall d t,
  (forall kv, In kv d ->
     fst kv <> [] /\ ~ In (hd 0%N p) (fst kv) /\ ~ In (last p 0%N) (fst kv)
     /\ ~ occurs (fst kv) p) ->
  occurs p t -> occurs p (restore_math d t).
Proof.
  unfold restore_math. induction d as [|kv d IH]; intros t Hd Ht; [exact Ht|].
  cbn [fold_left]. apply IH.
  - intros kv' Hin. apply Hd. now right.
  - destruct (Hd kv (or_introl eq_refl)) as [H1 [H2 [H3 H4]]].
    now apply replace_keeps.
Qed.

Lemma math_value_clear n g : ~ occurs ph_prefix g -> ~ occurs (placeholder_of n) (math_value g).
Proof.
  intros Hg H. apply Hg. apply (placeholder_between n (lit "\(") g (lit "\)")); [reflexivity|exact H].
Qed.

Lemma math_value_first n g : ~ In (hd 0%N (math_value g)) (placeholder_of n).
Proof. now apply placeholder_not_in. Qed.

Lemma math_value_last n g : ~ In (last (math_value g) 0%N) (placeholder_of n).
Proof.
  unfold math_value. rewrite last_between by discriminate. now apply placeholder_not_in.
Qed.

Lemma restore_removes n : forall d t,
  Forall clean_entry d ->
  ~ occurs (placeholder_of n) t \/ In (placeholder_of n) (map fst d) ->
  ~ occurs (placeholder_of n) (restore_math d t).
Proof.
  unfold restore_math. induction d as [|[k v] d IH]; intros t Hd Hn.
  - destruct Hn as [Hn|[]]. exact Hn.
  - inversion Hd as [|? ? [[j Hj] [g [Hv Hg]]] Hd']; subst. cbn [fst snd] in Hj, Hv. subst.
    cbn [fold_left fst snd]. apply IH; [exact Hd'|].
    destruct Hn as [Hn|[Hn|Hn]].
    + left. apply replace_brings_none;
        [apply placeholder_nonempty|apply placeholder_nonempty|discriminate
        |apply math_value_first|apply math_value_last|now apply math_value_clear|exact Hn].
    + left. cbn [fst] in Hn. rewrite <- Hn. apply replace_removes;
        [apply placeholder_nonempty|discriminate
        |apply math_value_first|apply math_value_last|now apply math_value_clear].
    + now right.
Qed.

Lemma entry_of_clean text kv :
  ~ occurs ph_prefix text -> entry_of text kv -> clean_entry kv.
Proof.
  intros Ht [j [g [Hk [Hv Hg]]]]. split; [now exists j|].
  exists g. split; [exact Hv|]. intro H. apply Ht. exact (occurs_trans _ _ _ H Hg).
Qed.

Lemma skipn_span (x y : char) c post :
  skipn (S (S (length c))) (x :: c ++ y :: post) = post.
Proof. cbn [skipn]. induction c as [|a c IH]; [reflexivity|exact IH]. Qed.

Lemma process_inline_unfold text :
  process_inline_formatting text =
  after_code (snd (before_code text)) (code_rewrite (fst (before_code text))).
Proof. unfold process_inline_formatting. now destruct (before_code text). Qed.

Lemma after_code_keeps p d t :
  avoids is_bracket p -> last p 0%N <> ch "!" ->
  (forall kv, In kv d ->
     fst kv <> [] /\ ~ In (hd 0%N p) (fst kv) /\ ~ In (last p 0%N) (fst kv)
     /\ ~ occurs (fst kv) p) ->
  occurs p t -> occurs p (after_code d t).
Proof.
  intros Hp Hlast Hd Ht. unfold after_code.
  apply restore_keeps; [exact Hd|]. apply link_keeps; [exact Hp|].
  now apply image_keeps.
Qed.

(** ** Texts made of plain stretches and tokens *)

Lemma ph_core_chars c : In c ph_core -> ph_char c = true.
Proof.
  intro H. assert (Hall : forallb ph_char ph_core = true) by reflexivity.
  rewrite forallb_forall in Hall. now apply Hall.
Qed.

Lemma placeholder_core j :
  placeholder_of j = lit "__" ++ ph_core ++ lit "_" ++ str_of_nat j ++ lit "__".
Proof. reflexivity. Qed.

Lemma plain_app_l x y : plain (x ++ y) -> plain x.
Proof. intros H Ho. apply H. now apply occurs_app_l. Qed.

Lemma plain_app_r x y : plain (x ++ y) -> plain y.
Proof. intros H Ho. apply H. now apply occurs_app_r. Qed.

Lemma cons_inj (a b : char) l l' : a :: l = b :: l' -> a = b /\ l = l'.
Proof. intro H. now injection H. Qed.

(** An occurrence of [c :: k] cannot start inside a text without [c]. *)
Lemma first_char_absent (c : char) k : forall s1 t u v,
  s1 ++ t = u ++ (c :: k) ++ v -> ~ In c s1 ->
  exists u', u = s1 ++ u' /\ t = u' ++ (c :: k) ++ v.
Proof.
  induction s1 as [|a s1 IH]; intros t u v H Hc.
  - now exists u.
  - destruct u as [|b u].
    + simpl in H. injection H as -> _. exfalso. apply Hc. now left.
    + simpl in H. injection H as -> H.
      destruct (IH t u v H) as [u' [-> ->]].
      * intro Hin. apply Hc. now right.
      * now exists u'.
Qed.

Lemma str_of_nat_no_M j : ~ In (ch "M") (str_of_nat j).
Proof.
  intro H. pose proof (str_of_nat_digits j) as Hd. rewrite forallb_forall in Hd.
  specialize (Hd _ H). discriminate Hd.
Qed.

(** The core of a token occurs in it once. *)
Lemma core_in_token j t u v :
  placeholder_of j ++ t = u ++ ph_core ++ v ->
  (u = lit "__" /\ v = lit "_" ++ str_of_nat j ++ lit "__" ++ t) \/
  exists u', u = placeholder_of j ++ u' /\ t = u' ++ ph_core ++ v.
Proof.
  rewrite placeholder_core. intro H.
  destruct u as [|a [|b u]].
  - simpl in H. discriminate H.
  - simpl in H. discriminate H.
  - change ((lit "__" ++ ph_core ++ lit "_" ++ str_of_nat j ++ lit "__") ++ t)
      with (ch "_" :: ch "_" :: ph_core ++ lit "_" ++ (str_of_nat j ++ lit "__") ++ t) in H.
    cbn [app] in H. apply cons_inj in H as [Ha H]. apply cons_inj in H as [Hb H].
    subst a b.
    destruct u as [|c u].
    + left. split; [reflexivity|]. cbn [app] in H. apply app_inv_head in H.
      rewrite <- H. now rewrite <- app_assoc.
    + right.
      change (ph_core ++ lit "_" ++ (str_of_nat j ++ lit "__") ++ t)
        with (ch "M" :: (lit "ATH_PLACEHOLDER_" ++ str_of_nat j ++ lit "__") ++ t) in H.
      cbn [app] in H. apply cons_inj in H as [Hc H]. subst c.
      change (u ++ ph_core ++ v) with (u ++ (ch "M" :: lit "ATH_PLACEHOLDER") ++ v) in H.
      apply first_char_absent in H as [u' [-> ->]].
      * exists u'. split; reflexivity.
      * rewrite !in_app_iff. intros [Hin|[Hin|Hin]].
        -- vm_compute in Hin. intuition discriminate.
        -- now apply str_of_nat_no_M in Hin.
        -- vm_compute in Hin. intuition discriminate.
Qed.

(** The core neither holds two underscores in a row nor ends with one, so
    it cannot run from a plain stretch into the token that follows. *)
Lemma core_suffix_not_token_start l l2 rest v :
  ph_core = l ++ l2 -> l <> [] -> l2 <> [] ->
  l2 ++ v = ch "_" :: ch "_" :: rest -> False.
Proof.
  intros Hk Hl Hl2 H. destruct l2 as [|c [|c' l2]]; [congruence| |].
  - simpl in H. apply cons_inj in H as [-> _].
    apply (f_equal (fun s => last s 0%N)) in Hk. rewrite last_last in Hk.
    vm_compute in Hk. discriminate Hk.
  - simpl in H. apply cons_inj in H as [-> H]. apply cons_inj in H as [-> _].
    assert (Ho : occurs (lit "__") ph_core) by (exists l, l2; exact Hk).
    apply contains_occurs in Ho. vm_compute in Ho. discriminate Ho.
Qed.

Lemma core_not_before x j t u v :
  plain x -> x ++ placeholder_of j ++ t = u ++ ph_core ++ v ->
  exists u', u = x ++ u' /\ placeholder_of j ++ t = u' ++ ph_core ++ v.
Proof.
  intros Hx H. apply app_eq_app in H as [l [[-> H]|[-> H]]].
  - destruct l as [|a l].
    + exists []. rewrite !app_nil_r. split; [reflexivity|]. now rewrite H.
    + exfalso. symmetry in H. apply app_eq_app in H as [l2 [[Hl Hv]|[Hk Hp]]].
      * apply Hx. exists u, l2. now rewrite Hl.
      * destruct l2 as [|b l2].
        -- rewrite app_nil_r in Hk. apply Hx. exists u, []. now rewrite <- Hk, app_nil_r.
        -- rewrite placeholder_core in Hp.
           apply (core_suffix_not_token_start (a :: l) (b :: l2)
                    (ph_core ++ lit "_" ++ (str_of_nat j ++ lit "__") ++ t) v Hk);
             [discriminate|discriminate|].
           rewrite <- Hp. cbn [lit app]. simpl. now rewrite <- !app_assoc.
  - now exists l.
Qed.

(** In a tokenized text the core only occurs inside the tokens: an
    occurrence splits the text into two tokenized parts around one token. *)
Lemma core_in_tokenized : forall js t,
  Tokenized js t -> forall u v, t = u ++ ph_core ++ v ->
  exists js1 j js2 a b,
    js = js1 ++ j :: js2 /\ u = a ++ lit "__" /\
    v = lit "_" ++ str_of_nat j ++ lit "__" ++ b /\
    Tokenized js1 a /\ Tokenized js2 b.
Proof.
  induction 1 as [x Hx|x j js t Hx Ht IH]; intros u v H.
  - exfalso. apply Hx. now exists u, v.
  - apply (core_not_before x j t u v Hx) in H as [u' [-> H]].
    apply core_in_token in H as [[-> ->]|[u2 [-> H]]].
    + exists [], j, js, x, t. repeat split; [now constructor|exact Ht].
    + destruct (IH _ _ H) as [js1 [j' [js2 [a [b [-> [-> [-> [Ha Hb]]]]]]]]].
      exists (j :: js1), j', js2, (x ++ placeholder_of j ++ a), b.
      repeat split; [now rewrite <- !app_assoc|now constructor|exact Hb].
Qed.

Lemma digits_then_underscore j k r r' :
  str_of_nat j ++ ch "_" :: r = str_of_nat k ++ ch "_" :: r' -> j = k /\ r = r'.
Proof.
  intro H.
  assert (Hd : forall n, avoids (fun c => negb (in_range 48 57 c)) (str_of_nat n)).
  { intro n. unfold avoids. pose proof (str_of_nat_digits n) as Hn.
    rewrite forallb_forall in *. intros c Hc. rewrite negb_involutive. now apply Hn. }
  destruct (unique_run _ (ch "_") _ _ _ _ (Hd j) (Hd k) eq_refl H) as [Hjk ->].
  split; [now apply str_of_nat_inj|reflexivity].
Qed.

(** A token that occurs in a tokenized text is one of its tokens. *)
Lemma token_in_tokenized js t k u v :
  Tokenized js t -> t = u ++ placeholder_of k ++ v ->
  exists js1 js2, js = js1 ++ k :: js2 /\ Tokenized js1 u /\ Tokenized js2 v.
Proof.
  intros Ht H.
  assert (H' : t = (u ++ lit "__") ++ ph_core ++ lit "_" ++ str_of_nat k ++ lit "__" ++ v).
  { rewrite H, placeholder_core. now rewrite <- !app_assoc. }
  destruct (core_in_tokenized js t Ht _ _ H')
    as [js1 [j [js2 [a [b [-> [Ha [Hb [Hta Htb]]]]]]]]].
  apply app_inv_tail in Ha. subst a.
  cbn [lit app] in Hb. simpl in Hb. apply cons_inj in Hb as [_ Hb].
  change (str_of_nat k ++ ch "_" :: ch "_" :: v = str_of_nat j ++ ch "_" :: ch "_" :: b) in Hb.
  apply digits_then_underscore in Hb as [-> Hb]. apply cons_inj in Hb as [_ ->].
  now exists js1, js2.
Qed.

Lemma tokenized_occurs js t k : Tokenized js t -> In k js -> occurs (placeholder_of k) t.
Proof.
  induction 1 as [x Hx|x j js t Hx Ht IH]; intros Hin; [destruct Hin|].
  destruct Hin as [->|Hin].
  - now exists x, t.
  - apply occurs_app_r, occurs_app_r. now apply IH.
Qed.

Lemma occurs_tokenized js t k : Tokenized js t -> occurs (placeholder_of k) t -> In k js.
Proof.
  intros Ht [u [v H]].
  destruct (token_in_tokenized js t k u v Ht H) as [js1 [js2 [-> _]]].
  apply in_or_app. right. now left.
Qed.

Lemma tokenized_core_offset js t u v :
  Tokenized js t -> t = u ++ ph_core ++ v -> 2 <= length u.
Proof.
  intros Ht H.
  destruct (core_in_tokenized js t Ht u v H) as [js1 [j [js2 [a [b [_ [-> _]]]]]]].
  rewrite length_app. simpl. lia.
Qed.

Lemma not_ph_not_core c : ph_char c = false -> ~ In c ph_core.
Proof. intros Hc Hin. apply ph_core_chars in Hin. congruence. Qed.

Lemma placeholder_head j : exists r, placeholder_of j = ch "_" :: r.
Proof. eexists. reflexivity. Qed.

(** Cutting a tokenized text at a character no token holds. *)
Lemma tokenized_split d : ph_char d = false ->
  forall js t, Tokenized js t -> forall a b, t = a ++ d :: b ->
  exists js1 js2, js = js1 ++ js2 /\ Tokenized js1 a /\ Tokenized js2 b.
Proof.
  intro Hd. induction 1 as [x Hx|x j js t Hx Ht IH]; intros a b H.
  - exists [], []. subst x. repeat split; constructor.
    + now apply plain_app_l in Hx.
    + apply plain_app_r in Hx. now apply (plain_app_r [d]) in Hx.
  - apply app_eq_app in H as [l [[-> H]|[-> H]]].
    + destruct l as [|d' l].
      * exfalso. destruct (placeholder_head j) as [r Hr]. rewrite Hr in H.
        simpl in H. apply cons_inj in H as [-> _]. discriminate Hd.
      * simpl in H. apply cons_inj in H as [<- ->].
        exists [], (j :: js). repeat split.
        -- constructor. now apply plain_app_l in Hx.
        -- constructor; [|exact Ht]. apply plain_app_r in Hx.
           now apply (plain_app_r [d]) in Hx.
    + apply app_eq_app in H as [l2 [[Hp H]|[-> H]]].
      * destruct l2 as [|d' l2].
        -- rewrite app_nil_r in Hp. subst l. simpl in H.
           destruct (IH [] b (eq_sym H)) as [js1 [js2 [-> [H1 H2]]]].
           exists (j :: js1), js2. repeat split; [|exact H2].
           rewrite <- (app_nil_r (placeholder_of j)). now constructor.
        -- exfalso. simpl in H. apply cons_inj in H as [<- _].
           apply (placeholder_not_in d j Hd). rewrite Hp.
           apply in_or_app. right. now left.
      * destruct (IH _ _ H) as [js1 [js2 [-> [H1 H2]]]].
        exists (j :: js1), js2. repeat split; [|exact H2].
        rewrite <- ?app_assoc. now constructor.
Qed.

Lemma plain_join_r x y :
  plain x -> plain y -> y <> [] -> ph_char (hd 0%N y) = false -> plain (x ++ y).
Proof.
  intros Hx Hy Hne Hh Ho.
  apply occurs_app_cases in Ho as [Ho|[Ho|[k1 [k2 [x1 [y2 [Hk [H1 [H2 [-> ->]]]]]]]]]].
  - now apply Hx.
  - now apply Hy.
  - destruct k2 as [|c k2]; [congruence|]. simpl in Hh.
    apply (not_ph_not_core c Hh). rewrite Hk. apply in_or_app. right. now left.
Qed.

Lemma plain_join_l x y :
  plain x -> plain y -> x <> [] -> ph_char (last x 0%N) = false -> plain (x ++ y).
Proof.
  intros Hx Hy Hne Hl Ho.
  apply occurs_app_cases in Ho as [Ho|[Ho|[k1 [k2 [x1 [y2 [Hk [H1 [H2 [-> ->]]]]]]]]]].
  - now apply Hx.
  - now apply Hy.
  - rewrite last_app_nonempty in Hl by exact H1.
    destruct (exists_last H1) as [q [c ->]]. rewrite last_last in Hl.
    apply (not_ph_not_core c Hl). rewrite Hk.
    apply in_or_app. left. apply in_or_app. right. now left.
Qed.

Lemma tokenized_join_r js1 a js2 b :
  Tokenized js1 a -> Tokenized js2 b -> b <> [] -> ph_char (hd 0%N b) = false ->
  Tokenized (js1 ++ js2) (a ++ b).
Proof.
  intros Ha Hb Hne Hh. induction Ha as [x Hx|x j js t Hx Ht IH].
  - destruct Hb as [y Hy|y j js t Hy Ht].
    + constructor. now apply plain_join_r.
    + destruct y as [|c y].
      * destruct (placeholder_head j) as [r Hr]. rewrite Hr in Hh. discriminate Hh.
      * rewrite app_assoc. constructor; [|exact Ht].
        apply plain_join_r; [assumption|assumption|discriminate|exact Hh].
  - rewrite <- !app_assoc. cbn [app]. constructor; [exact Hx|exact IH].
Qed.

Lemma last_placeholder j : last (placeholder_of j) 0%N = ch "_".
Proof.
  unfold placeholder_of. rewrite app_assoc. now rewrite last_app_nonempty by discriminate.
Qed.

Lemma tokenized_join_l js1 a js2 b :
  Tokenized js1 a -> Tokenized js2 b -> a <> [] -> ph_char (last a 0%N) = false ->
  Tokenized (js1 ++ js2) (a ++ b).
Proof.
  intros Ha Hb. induction Ha as [x Hx|x j js t Hx Ht IH]; intros Hne Hl.
  - destruct Hb as [y Hy|y j js t Hy Ht].
    + constructor. now apply plain_join_l.
    + rewrite app_assoc. constructor; [|exact Ht].
      destruct y as [|c y]; [now rewrite app_nil_r|].
      now apply plain_join_l.
  - rewrite <- !app_assoc. cbn [app]. constructor; [exact Hx|].
    destruct t as [|c t].
    + exfalso. rewrite app_nil_r, last_app_nonempty in Hl by apply placeholder_nonempty.
      rewrite last_placeholder in Hl. discriminate Hl.
    + apply IH; [discriminate|].
      rewrite app_assoc, last_app_nonempty in Hl by discriminate. exact Hl.
Qed.

Lemma tokenized_sandwich js1 a js2 m js3 b :
  Tokenized js1 a -> Bounded js2 m -> Tokenized js3 b ->
  Tokenized (js1 ++ js2 ++ js3) (a ++ m ++ b).
Proof.
  intros Ha [Hm [Hne [Hh Hl]]] Hb.
  rewrite !app_assoc. apply tokenized_join_l; [|exact Hb| |].
  - now apply tokenized_join_r.
  - destruct m; [congruence|]. now destruct a.
  - now rewrite last_app_nonempty.
Qed.

Lemma bounded_literal l : literal_ok l -> Bounded [] l.
Proof.
  intros [Hc [Hne [Hh Hl]]]. repeat split; try assumption.
  constructor. now apply contains_false_occurs.
Qed.

Lemma bounded_cons l js g js' x :
  literal_ok l -> Tokenized js g -> Bounded js' x -> Bounded (js ++ js') (l ++ g ++ x).
Proof.
  intros Hl Hg [Hx [Hne [Hh Hla]]].
  destruct (bounded_literal l Hl) as [Htl [Hnel [Hhl Hll]]].
  repeat split.
  - apply (tokenized_join_l [] l (js ++ js') (g ++ x)); [exact Htl| |exact Hnel|exact Hll].
    now apply tokenized_join_r.
  - destruct l; [congruence|discriminate].
  - destruct l; [congruence|exact Hhl].
  - rewrite app_assoc. now rewrite last_app_nonempty.
Qed.

Lemma split_segments : forall segs js rest,
  Tokenized js (flat_segments segs ++ rest) ->
  Forall (fun gd => ph_char (snd gd) = false) segs ->
  Forall (fun gd => exists js', Tokenized js' (fst gd)) segs /\
  exists js', Tokenized js' rest.
Proof.
  induction segs as [|[g d] segs IH]; intros js rest Ht Hd.
  - split; [constructor|now exists js].
  - inversion Hd as [|? ? Hd1 Hd2]; subst. cbn [snd] in Hd1.
    cbn [flat_segments flat_map fst snd] in Ht. fold (flat_segments segs) in Ht.
    rewrite <- !app_assoc in Ht. cbn [app] in Ht.
    destruct (tokenized_split d Hd1 js _ Ht g _ eq_refl) as [js1 [js2 [_ [H1 H2]]]].
    destruct (IH js2 rest H2 Hd2) as [Hsegs Hrest].
    split; [|exact Hrest]. constructor; [now exists js1|exact Hsegs].
Qed.

Section TokenizedPass.
Variable r : re.
Variable tpl : list tpl_item.

Hypothesis match_tokens : forall m cs,
  Matches r m [] cs ->
  exists c0 segs,
    m = c0 :: flat_segments segs /\ ph_char c0 = false /\
    Forall (fun gd => ph_char (snd gd) = false) segs /\
    (Forall (fun gd => exists js, Tokenized js (fst gd)) segs ->
     exists js, Bounded js (expand tpl cs)).

Lemma pass_tokenized_bounded : forall n s acc js,
  length s <= n -> Tokenized js (acc ++ s) ->
  exists js', Tokenized js' (acc ++ fst (scan (find_re r (pure_repl tpl)) tt s)).
Proof.
  induction n as [|n IH]; intros s acc js Hlen Ht.
  - destruct s; [|simpl in Hlen; lia]. now exists js.
  - destruct s as [|c s]; [now exists js|].
    assert (Hmiss : exists js',
               Tokenized js' (acc ++ c :: fst (scan (find_re r (pure_repl tpl)) tt s))).
    { change (acc ++ c :: fst (scan (find_re r (pure_repl tpl)) tt s))
        with (acc ++ [c] ++ fst (scan (find_re r (pure_repl tpl)) tt s)).
      rewrite app_assoc. apply (IH s (acc ++ [c]) js); [simpl in Hlen; lia|].
      now rewrite <- app_assoc. }
    destruct (find_re r (pure_repl tpl) tt (c :: s)) as [[[rep [|k]] []]|] eqn:E.
    + rewrite scan_no_hit by (intros ? ? ?; rewrite E; discriminate). exact Hmiss.
    + pose proof (find_re_within _ _ _ _ _ _ _ _ E) as Hk.
      rewrite (scan_hit _ _ tt _ rep k tt E Hk). cbn [fst].
      apply find_re_inv in E as [m [rest [cs [Hs [Hm [Hn Hr]]]]]].
      unfold pure_repl in Hr. injection Hr as <-.
      destruct (match_tokens m cs Hm) as [c0 [segs [-> [Hc0 [Hd Hrep]]]]].
      rewrite Hs in Ht. cbn [app] in Ht.
      destruct (tokenized_split c0 Hc0 js _ Ht acc _ eq_refl) as [js1 [js2 [_ [H1 H2]]]].
      destruct (split_segments segs js2 rest H2 Hd) as [Hsegs [js3 Hrest]].
      destruct (Hrep Hsegs) as [jsr Hb].
      assert (Hskip : skipn (S k) (c :: s) = rest).
      { rewrite Hs, Hn. rewrite skipn_app, skipn_all, Nat.sub_diag. reflexivity. }
      rewrite Hskip.
      destruct (IH rest [] js3) as [js4 H4]; [|exact Hrest|].
      * apply (f_equal (@length char)) in Hs. simpl in Hs, Hlen.
        rewrite length_app in Hs. simpl in Hs. lia.
      * eexists. apply tokenized_sandwich; [exact H1|exact Hb|exact H4].
    + rewrite scan_no_hit by (intros ? ? ?; rewrite E; discriminate). exact Hmiss.
Qed.

Lemma pass_tokenized js s :
  Tokenized js s -> exists js', Tokenized js' (re_sub r tpl s).
Proof.
  intro Ht. rewrite re_sub_unfold.
  apply (pass_tokenized_bounded (length s) s [] js (Nat.le_refl _) Ht).
Qed.

End TokenizedPass.

Ltac literal_ok_tac :=
  split; [vm_compute; reflexivity|split; [discriminate|split; vm_compute; reflexivity]].

Lemma tokenized_nil : Tokenized [] [].
Proof. constructor. intros [u [v H]]. destruct u; discriminate H. Qed.

Lemma bold_tokenized js s :
  Tokenized js s -> exists js', Tokenized js' (re_sub bold_pattern bold_template s).
Proof.
  apply pass_tokenized. intros m cs Hm.
  destruct (bold_shape m cs Hm) as [g [-> [_ [_ ->]]]].
  exists (ch "*"), [([], ch "*"); (g, ch "*"); ([], ch "*")].
  split; [shape_eq|]. split; [reflexivity|]. split; [repeat constructor|].
  intro HF. inversion HF as [|? ? _ HF1]; inversion HF1 as [|? ? [jg Hg] _]; subst.
  cbn [fst] in Hg. eexists.
  change (expand bold_template [(1, g)]) with (lit "<strong>" ++ g ++ lit "</strong>" ++ []).
  rewrite app_nil_r.
  apply bounded_cons; [literal_ok_tac|exact Hg|apply bounded_literal; literal_ok_tac].
Qed.

Lemma italic_tokenized js s :
  Tokenized js s -> exists js', Tokenized js' (re_sub italic_pattern italic_template s).
Proof.
  apply pass_tokenized. intros m cs Hm.
  destruct (italic_shape m cs Hm) as [g [-> [_ [_ ->]]]].
  exists (ch "*"), [(g, ch "*")].
  split; [shape_eq|]. split; [reflexivity|]. split; [repeat constructor|].
  intro HF. inversion HF as [|? ? [jg Hg] _]; subst.
  cbn [fst] in Hg. eexists.
  change (expand italic_template [(1, g)]) with (lit "<em>" ++ g ++ lit "</em>" ++ []).
  rewrite app_nil_r.
  apply bounded_cons; [literal_ok_tac|exact Hg|apply bounded_literal; literal_ok_tac].
Qed.

Lemma code_tokenized js s :
  Tokenized js s -> exists js', Tokenized js' (code_rewrite s).
Proof.
  apply pass_tokenized. intros m cs Hm.
  destruct (code_shape m cs Hm) as [g [-> [_ [_ ->]]]].
  exists (ch "`"), [(g, ch "`")].
  split; [shape_eq|]. split; [reflexivity|]. split; [repeat constructor|].
  intro HF. inversion HF as [|? ? [jg Hg] _]; subst.
  cbn [fst] in Hg. eexists.
  change (expand code_template [(1, g)]) with (lit "<code>" ++ g ++ lit "</code>" ++ []).
  rewrite app_nil_r.
  apply bounded_cons; [literal_ok_tac|exact Hg|apply bounded_literal; literal_ok_tac].
Qed.

Lemma image_tokenized js s :
  Tokenized js s -> exists js', Tokenized js' (re_sub image_pattern image_template s).
Proof.
  apply pass_tokenized. intros m cs Hm.
  destruct (image_shape m cs Hm) as [g1 [g2 [-> ->]]].
  exists (ch "!"), [([], ch "["); (g1, ch "]"); ([], ch "("); (g2, ch ")")].
  split; [shape_eq|]. split; [reflexivity|]. split; [repeat constructor|].
  intro HF. inversion HF as [|? ? _ HF1]; inversion HF1 as [|? ? [j1 Hg1] HF2];
    inversion HF2 as [|? ? _ HF3]; inversion HF3 as [|? ? [j2 Hg2] _]; subst.
  cbn [fst] in Hg1, Hg2. eexists. unfold image_template, link_template.
  match goal with |- Bounded _ (expand [TLit ?a; _; TLit ?b; _; TLit ?c] _) =>
    change (expand [TLit a; TGrp 2; TLit b; TGrp 1; TLit c] [(2, g2); (1, g1)])
      with (a ++ g2 ++ b ++ g1 ++ c ++ []) end.
  rewrite app_nil_r.
  apply bounded_cons; [literal_ok_tac|exact Hg2|].
  apply bounded_cons; [literal_ok_tac|exact Hg1|apply bounded_literal; literal_ok_tac].
Qed.

Lemma link_tokenized js s :
  Tokenized js s -> exists js', Tokenized js' (re_sub link_pattern link_template s).
Proof.
  apply pass_tokenized. intros m cs Hm.
  destruct (link_shape m cs Hm) as [g1 [g2 [-> ->]]].
  exists (ch "["), [(g1, ch "]"); ([], ch "("); (g2, ch ")")].
  split; [shape_eq|]. split; [reflexivity|]. split; [repeat constructor|].
  intro HF. inversion HF as [|? ? [j1 Hg1] HF2];
    inversion HF2 as [|? ? _ HF3]; inversion HF3 as [|? ? [j2 Hg2] _]; subst.
  cbn [fst] in Hg1, Hg2. eexists. unfold image_template, link_template.
  match goal with |- Bounded _ (expand [TLit ?a; _; TLit ?b; _; TLit ?c] _) =>
    change (expand [TLit a; TGrp 2; TLit b; TGrp 1; TLit c] [(2, g2); (1, g1)])
      with (a ++ g2 ++ b ++ g1 ++ c ++ []) end.
  rewrite app_nil_r.
  apply bounded_cons; [literal_ok_tac|exact Hg2|].
  apply bounded_cons; [literal_ok_tac|exact Hg1|apply bounded_literal; literal_ok_tac].
Qed.

(** ** The protection pass leaves a tokenized text *)

Lemma tokenized_app_token js1 a j js2 b :
  Tokenized js1 a -> Tokenized js2 b ->
  Tokenized (js1 ++ j :: js2) (a ++ placeholder_of j ++ b).
Proof.
  intros Ha Hb. induction Ha as [x Hx|x i js t Hx Ht IH].
  - now constructor.
  - rewrite <- !app_assoc. cbn [app]. constructor; [exact Hx|exact IH].
Qed.

Lemma dict_set_fresh k v : forall d,
  ~ In k (map fst d) -> dict_set k v d = d ++ [(k, v)].
Proof.
  induction d as [|[k' v'] d IH]; intro Hk; [reflexivity|].
  cbn [dict_set]. destruct (str_eqb k' k) eqn:E.
  - apply str_eqb_eq in E. exfalso. apply Hk. now left.
  - cbn [app]. f_equal. apply IH. intro Hin. apply Hk. now right.
Qed.

Lemma protect_inv_step st acc g :
  protect_inv st acc ->
  protect_inv (snd (protect_math st [(1, g)])) (acc ++ placeholder_of (math_counter st)).
Proof.
  intros [He Hn]. unfold protect_math. cbn [snd].
  assert (Hfresh : ~ In (placeholder_of (math_counter st)) (map fst (math_placeholders st))).
  { intro Hin. apply in_map_iff in Hin as [kv [Hk Hin]].
    destruct (He kv Hin) as [j [Hj [Hlt _]]]. rewrite Hj in Hk.
    apply placeholder_of_inj in Hk. lia. }
  split; cbn [math_placeholders math_counter]; rewrite dict_set_fresh by exact Hfresh.
  - intros kv Hin. apply in_app_or in Hin as [Hin|[<-|[]]].
    + destruct (He kv Hin) as [j [Hj [Hlt Ho]]]. exists j.
      split; [exact Hj|]. split; [lia|now apply occurs_app_l].
    + exists (math_counter st). split; [reflexivity|]. split; [lia|].
      apply occurs_app_r, occurs_refl.
  - rewrite map_app. cbn [map fst].
    apply NoDup_app; [exact Hn|repeat constructor; intros []|].
    intros k Hk [<-|[]]. now apply Hfresh.
Qed.

Lemma protect_inv_char st acc c : protect_inv st acc -> protect_inv st (acc ++ [c]).
Proof.
  intros [He Hn]. split; [|exact Hn].
  intros kv Hin. destruct (He kv Hin) as [j [Hj [Hlt Ho]]].
  exists j. split; [exact Hj|]. split; [exact Hlt|now apply occurs_app_l].
Qed.

Lemma protect_scan : forall n s acc st js,
  length s <= n -> Tokenized js (acc ++ s) -> protect_inv st acc ->
  exists js',
    Tokenized js' (acc ++ fst (scan (find_re math_pattern protect_math) st s)) /\
    protect_inv (snd (scan (find_re math_pattern protect_math) st s))
                (acc ++ fst (scan (find_re math_pattern protect_math) st s)).
Proof.
  induction n as [|n IH]; intros s acc st js Hlen Ht Hinv.
  - destruct s; [|simpl in Hlen; lia]. exists js. now rewrite app_nil_r in *.
  - destruct s as [|c s]; [exists js; now rewrite app_nil_r in *|].
    assert (Hmiss : exists js',
      Tokenized js' (acc ++ c :: fst (scan (find_re math_pattern protect_math) st s)) /\
      protect_inv (snd (scan (find_re math_pattern protect_math) st s))
        (acc ++ c :: fst (scan (find_re math_pattern protect_math) st s))).
    { change (acc ++ c :: fst (scan (find_re math_pattern protect_math) st s))
        with (acc ++ [c] ++ fst (scan (find_re math_pattern protect_math) st s)).
      rewrite app_assoc. apply (IH s (acc ++ [c]) st js); [simpl in Hlen; lia| |].
      - now rewrite <- app_assoc.
      - now apply protect_inv_char. }
    destruct (find_re math_pattern protect_math st (c :: s)) as [[[rep [|k]] st']|] eqn:E.
    + rewrite scan_no_hit by (intros ? ? ?; rewrite E; discriminate). exact Hmiss.
    + pose proof (find_re_within _ _ _ _ _ _ _ _ E) as Hk.
      rewrite (scan_hit _ _ st _ rep k st' E Hk). cbn [fst snd].
      apply find_re_inv in E as [m [rest [cs [Hs [Hm [Hn Hr]]]]]].
      destruct (math_shape m cs Hm) as [g [-> [_ ->]]].
      assert (Hrep : rep = placeholder_of (math_counter st) /\
                     st' = snd (protect_math st [(1, g)])).
      { unfold protect_math in Hr |- *. injection Hr as <- <-. now split. }
      destruct Hrep as [-> ->].
      rewrite Hs in Ht. cbn [app] in Ht.
      destruct (tokenized_split (ch "$") eq_refl js _ Ht acc _ eq_refl)
        as [js1 [js2 [_ [H1 H2]]]].
      rewrite <- app_assoc in H2. cbn [app] in H2.
      destruct (tokenized_split (ch "$") eq_refl js2 _ H2 g rest eq_refl)
        as [js3 [js4 [_ [_ H4]]]].
      assert (Hskip : skipn (S k) (c :: s) = rest).
      { rewrite Hs, Hn. rewrite skipn_app, skipn_all, Nat.sub_diag. reflexivity. }
      rewrite Hskip.
      destruct (IH rest (acc ++ placeholder_of (math_counter st))
                  (snd (protect_math st [(1, g)])) (js1 ++ math_counter st :: js4))
        as [js' [Ht' Hinv']].
      * apply (f_equal (@length char)) in Hs. simpl in Hs, Hlen.
        rewrite !length_app in Hs. simpl in Hs. lia.
      * rewrite <- app_assoc. now apply tokenized_app_token.
      * now apply protect_inv_step.
      * exists js'. rewrite <- app_assoc in Ht', Hinv'. now split.
    + rewrite scan_no_hit by (intros ? ? ?; rewrite E; discriminate). exact Hmiss.
Qed.

(** ** The restoration loop on a tokenized text *)

Lemma scan_pass (St : Type) (find : St -> str -> option (str * nat * St)) st v :
  forall p,
  (forall p1 p2 rep n st', p = p1 ++ p2 -> p2 <> [] ->
     find st (p2 ++ v) <> Some (rep, S n, st')) ->
  scan find st (p ++ v) = (p ++ fst (scan find st v), snd (scan find st v)).
Proof.
  induction p as [|c p IH]; intro Hp.
  - simpl. now destruct (scan find st v).
  - cbn [app]. rewrite scan_no_hit.
    + rewrite IH; [reflexivity|].
      intros p1 p2 rep n st' Hsplit Hne. apply (Hp (c :: p1) p2); [|exact Hne].
      now rewrite Hsplit.
    + intros rep n st'. apply (Hp [] (c :: p)); [reflexivity|discriminate].
Qed.

Lemma plain_no_token x j : plain x -> ~ occurs (placeholder_of j) x.
Proof.
  intros Hx Ho. apply Hx. apply (occurs_trans _ (placeholder_of j)); [|exact Ho].
  rewrite placeholder_core. exists (lit "__"), (lit "_" ++ str_of_nat j ++ lit "__").
  reflexivity.
Qed.

Lemma token_split_core j v :
  placeholder_of j ++ v =
  lit "__" ++ ph_core ++ lit "_" ++ str_of_nat j ++ lit "__" ++ v.
Proof. rewrite placeholder_core. now rewrite <- !app_assoc. Qed.

Lemma core_offset_in_token i t u v :
  placeholder_of i ++ t = u ++ ph_core ++ v -> 2 <= length u.
Proof.
  intro H. apply core_in_token in H as [[-> _]|[u' [-> _]]].
  - simpl. lia.
  - rewrite length_app, placeholder_core, length_app. simpl. lia.
Qed.

(** No token starts inside the plain stretch before a token. *)
Lemma token_not_in_plain x i t p1 p2 j v :
  plain x -> x = p1 ++ p2 -> p2 <> [] ->
  p2 ++ placeholder_of i ++ t <> placeholder_of j ++ v.
Proof.
  intros Hx Hsplit Hne H.
  assert (H' : x ++ placeholder_of i ++ t =
               (p1 ++ lit "__") ++ ph_core ++ lit "_" ++ str_of_nat j ++ lit "__" ++ v).
  { rewrite Hsplit, <- !app_assoc, H, token_split_core.
    rewrite <- ?app_assoc. reflexivity. }
  apply core_not_before in H' as [u' [Hu Hc]]; [|exact Hx].
  apply core_offset_in_token in Hc.
  apply (f_equal (@length char)) in Hu. rewrite Hsplit, !length_app in Hu.
  simpl in Hu. destruct p2; [congruence|]. simpl in Hu. lia.
Qed.

(** No token starts inside a token of a tokenized text. *)
Lemma token_not_in_token i js t p1 p2 j v :
  Tokenized js t -> placeholder_of i = p1 ++ p2 -> p1 <> [] -> p2 <> [] ->
  p2 ++ t <> placeholder_of j ++ v.
Proof.
  intros Ht Hsplit Hne1 Hne2 H.
  assert (H' : placeholder_of i ++ t =
               (p1 ++ lit "__") ++ ph_core ++ lit "_" ++ str_of_nat j ++ lit "__" ++ v).
  { rewrite Hsplit, <- !app_assoc, H, token_split_core.
    rewrite <- ?app_assoc. reflexivity. }
  apply core_in_token in H' as [[Hu _]|[u' [Hu Hc]]].
  - destruct p1; [congruence|]. apply (f_equal (@length char)) in Hu.
    rewrite length_app in Hu. simpl in Hu. lia.
  - apply (tokenized_core_offset js t u' _ Ht) in Hc.
    apply (f_equal (@length char)) in Hu.
    rewrite Hsplit, !length_app in Hu. simpl in Hu.
    destruct p2; [congruence|]. simpl in Hu. lia.
Qed.

Lemma token_start_eq i j t v :
  placeholder_of i ++ t = placeholder_of j ++ v -> i = j.
Proof.
  intro H. rewrite !token_split_core in H.
  apply app_inv_head in H. apply app_inv_head in H.
  cbn [lit app] in H. simpl in H. apply cons_inj in H as [_ H].
  now apply digits_then_underscore in H as [-> _].
Qed.

Lemma replace_tokenized j v :
  Bounded [] v -> forall js t, Tokenized js t ->
  Tokenized (remove Nat.eq_dec j js) (replace (placeholder_of j) v t).
Proof.
  intros Hv js t Ht. rewrite replace_unfold by apply placeholder_nonempty.
  induction Ht as [x Hx|x i js t Hx Ht IH].
  - rewrite <- (app_nil_r x) at 1. rewrite scan_pass.
    + cbn [fst scan scan_from]. rewrite app_nil_r. now constructor.
    + intros p1 p2 rep n st' Hsplit Hne H.
      apply find_literal_inv in H as [_ [_ [t Ht]]].
      apply (plain_no_token x j Hx). exists p1, t.
      rewrite Hsplit. rewrite app_nil_r in Ht. now rewrite Ht.
  - rewrite scan_pass.
    + cbn [fst]. cbn [remove]. destruct (Nat.eq_dec j i) as [<-|Hji].
      * pose proof (placeholder_nonempty j) as Hne.
        destruct (placeholder_of j) as [|c0 pj] eqn:Ep; [congruence|].
        rewrite (scan_hit _ _ tt _ v (length pj) tt).
        -- cbn [fst].
           change (S (length pj)) with (length (c0 :: pj)).
           rewrite skipn_app, skipn_all, Nat.sub_diag. cbn [skipn app].
           apply (tokenized_sandwich [] x [] v _ _);
             [now constructor|exact Hv|exact IH].
        -- unfold find_literal. now rewrite startswith_app.
        -- rewrite length_app. simpl. lia.
      * rewrite scan_pass.
        -- cbn [fst]. now constructor.
        -- intros p1 p2 rep n st' Hsplit Hne H.
           apply find_literal_inv in H as [_ [_ [t' Ht']]].
           destruct p1 as [|c1 p1].
           ++ cbn [app] in Hsplit. rewrite <- Hsplit in Ht'.
              apply token_start_eq in Ht'. congruence.
           ++ apply (token_not_in_token i js t (c1 :: p1) p2 j t' Ht Hsplit);
                [discriminate|exact Hne|exact Ht'].
    + intros p1 p2 rep n st' Hsplit Hne H.
      apply find_literal_inv in H as [_ [_ [t' Ht']]].
      apply (token_not_in_plain x i t p1 p2 j t' Hx Hsplit Hne Ht').
Qed.

Lemma math_value_bounded g : plain g -> Bounded [] (math_value g).
Proof.
  intro Hg. unfold math_value.
  rewrite <- (app_nil_r (lit "\)")), <- (app_nil_l []) at 1.
  change (@nil nat) with (@nil nat ++ []) at 1.
  apply bounded_cons; [literal_ok_tac|now constructor|].
  rewrite app_nil_r. apply bounded_literal. literal_ok_tac.
Qed.

Lemma plain_no_prefix g : plain g -> ~ occurs ph_prefix g.
Proof.
  intros Hg Ho. apply Hg. apply (occurs_trans _ ph_prefix); [|exact Ho].
  now exists (lit "__"), (lit "_").
Qed.

(** Every value of the dict whose token is in the text is in the restored
    text. *)
Lemma restore_values : forall d js t,
  Tokenized js t -> NoDup (map fst d) ->
  (forall kv, In kv d ->
     exists j g, fst kv = placeholder_of j /\ snd kv = math_value g /\ plain g /\ In j js) ->
  forall kv, In kv d -> occurs (snd kv) (restore_math d t).
Proof.
  induction d as [|[k v] d IH]; intros js t Ht Hn Hd kv Hin; [destruct Hin|].
  destruct (Hd (k, v) (or_introl eq_refl)) as [j [g [Hk [Hv [Hg Hj]]]]].
  cbn [fst snd] in Hk, Hv. subst k v.
  cbn [map fst] in Hn. inversion Hn as [|? ? Hfresh Hn']; subst.
  unfold restore_math. cbn [fold_left fst snd].
  fold (restore_math d (replace (placeholder_of j) (math_value g) t)).
  destruct Hin as [<-|Hin].
  - cbn [snd]. apply restore_keeps.
    + intros [k' v'] Hin'. destruct (Hd (k', v') (or_intror Hin')) as [j' [g' [Hk' _]]].
      cbn [fst] in Hk' |- *. subst k'.
      split; [apply placeholder_nonempty|].
      split; [apply math_value_first|]. split; [apply math_value_last|].
      now apply math_value_clear, plain_no_prefix.
    + destruct (tokenized_occurs js t j Ht Hj) as [u [w ->]].
      apply replace_hits, placeholder_nonempty.
  - apply (IH (remove Nat.eq_dec j js)); [|exact Hn'| |exact Hin].
    + apply replace_tokenized; [now apply math_value_bounded|exact Ht].
    + intros kv' Hin'. destruct (Hd kv' (or_intror Hin')) as [j' [g' [Hk' [Hv' [Hg' Hj']]]]].
      exists j', g'. repeat split; try assumption.
      apply in_in_remove; [|exact Hj'].
      intros ->. apply Hfresh. rewrite <- Hk'. now apply in_map.
Qed.

Lemma placeholder_avoids D j :
  (forall c, ph_char c = true -> D c = false) -> avoids D (placeholder_of j).
Proof.
  intro HD. unfold avoids. pose proof (placeholder_chars j) as H.
  rewrite forallb_forall in *. intros c Hc. apply negb_true_iff, HD, H, Hc.
Qed.

Ltac token_avoids :=
  apply placeholder_avoids; intros c Hc;
  match goal with |- ?D c = false =>
    destruct (D c) eqn:E; [|reflexivity];
    unfold D, is_chr in E; rewrite ?orb_true_iff in E;
    repeat match type of E with _ \/ _ => destruct E as [E|E] end;
    apply chr_eqb_eq in E; subst c; discriminate Hc
  end.

Lemma token_keeps_before j t :
  occurs (placeholder_of j) t ->
  occurs (placeholder_of j)
         (re_sub italic_pattern italic_template (re_sub bold_pattern bold_template t)).
Proof.
  intro Ho. apply italic_keeps; [token_avoids|]. apply bold_keeps; [token_avoids|exact Ho].
Qed.

Lemma token_keeps_after j t :
  occurs (placeholder_of j) t ->
  occurs (placeholder_of j)
         (re_sub link_pattern link_template
            (re_sub image_pattern image_template (code_rewrite t))).
Proof.
  intro Ho. apply link_keeps; [token_avoids|].
  apply image_keeps; [token_avoids| |].
  - rewrite last_placeholder. discriminate.
  - apply code_rewrite_keeps; [token_avoids|exact Ho].
Qed.

(** The formatter up to the restoration, on a text without the core. *)
Lemma before_code_tokenized text :
  plain text ->
  NoDup (map fst (snd (before_code text))) /\
  (exists js, Tokenized js (fst (before_code text))) /\
  forall kv, In kv (snd (before_code text)) ->
    exists j, fst kv = placeholder_of j /\
              occurs (placeholder_of j) (fst (before_code text)).
Proof.
  intro Hp. unfold before_code, re_sub_with.
  destruct (protect_scan (length text) text [] math_state0 [] (Nat.le_refl _))
    as [js [Ht [He Hn]]].
  - now constructor.
  - split; [|constructor]. intros kv [].
  - cbn [app] in Ht, He.
    destruct (scan (find_re math_pattern protect_math) math_state0 text) as [t st].
    cbn [fst snd] in *. split; [exact Hn|]. split.
    + destruct (bold_tokenized js t Ht) as [js2 H2].
      destruct (italic_tokenized js2 _ H2) as [js3 H3]. now exists js3.
    + intros kv Hin. destruct (He kv Hin) as [j [Hj [_ Ho]]].
      exists j. split; [exact Hj|].
      now apply token_keeps_before.
Qed.

Lemma values_restored text :
  plain text ->
  forall kv, In kv (snd (before_code text)) ->
    occurs (snd kv) (process_inline_formatting text).
Proof.
  intros Hp kv Hin. rewrite process_inline_unfold. unfold after_code.
  destruct (before_code_tokenized text Hp) as [Hn [[js3 H3] Hk]].
  destruct (code_tokenized js3 _ H3) as [js4 H4].
  destruct (image_tokenized js4 _ H4) as [js5 H5].
  destruct (link_tokenized js5 _ H5) as [js6 H6].
  apply (restore_values _ js6); [exact H6|exact Hn| |exact Hin].
  intros kv' Hin'. destruct (Hk kv' Hin') as [j [Hj Ho]].
  pose proof (before_code_entries text) as Hentries. rewrite Forall_forall in Hentries.
  destruct (Hentries kv' Hin') as [j' [g [_ [Hv Hg]]]].
  exists j, g. split; [exact Hj|]. split; [exact Hv|]. split.
  - intro Hc. apply Hp. exact (occurs_trans _ _ _ Hc Hg).
  - apply (occurs_tokenized js6 _ j H6). now apply token_keeps_after.
Qed.

(** ** Texts laid out as a sequence of protected spans *)

Lemma dict_set_in k v : forall d, In (k, v) (dict_set k v d).
Proof.
  induction d as [|[k' v'] d IH]; cbn [dict_set]; [now left|].
  destruct (str_eqb k' k) eqn:E.
  - apply str_eqb_eq in E. subst. now left.
  - now right.
Qed.

Lemma dict_set_other k v k' v' : forall d,
  k <> k' -> In (k, v) d -> In (k, v) (dict_set k' v' d).
Proof.
  induction d as [|[k0 v0] d IH]; intros Hne Hin; [destruct Hin|].
  cbn [dict_set]. destruct (str_eqb k0 k') eqn:E.
  - destruct Hin as [Heq|Hin]; [|now right].
    injection Heq as -> ->. apply str_eqb_eq in E. congruence.
  - destruct Hin as [Heq|Hin]; [now left|right; now apply IH].
Qed.

Lemma protect_entry_kept j v : forall s k st,
  In (placeholder_of j, v) (math_placeholders st) -> j < math_counter st ->
  In (placeholder_of j, v)
     (math_placeholders (snd (scan_from (find_re math_pattern protect_math) k st s))).
Proof.
  intros s k st Hin Hlt.
  apply (scan_from_invariant _ _ s
           (fun st => In (placeholder_of j, v) (math_placeholders st)
                      /\ j < math_counter st)) with (u := []);
    [|reflexivity|now split].
  clear. intros st u s0 rep n st' _ [Hin Hlt] Hf.
  apply find_re_inv in Hf as [m [rest [cs [_ [_ [_ Hr]]]]]].
  unfold protect_math in Hr. injection Hr as _ <-.
  cbn [math_placeholders math_counter]. split; [|lia].
  apply dict_set_other; [|exact Hin].
  intro H. apply placeholder_of_inj in H. lia.
Qed.

Lemma math_start_dollar m cs :
  Matches math_pattern m [] cs -> exists d m', m = d :: m' /\ is_dollar d = true.
Proof.
  intro H. destruct (math_shape m cs H) as [g [-> _]].
  now exists (ch "$"), (g ++ [ch "$"]).
Qed.

Lemma protect_layout : forall spans x0 post st,
  avoids is_dollar x0 -> forallb span_ok spans = true ->
  forall m x, In (m, x) spans ->
  exists j, In (placeholder_of j, math_value m)
               (math_placeholders
                  (snd (scan (find_re math_pattern protect_math) st
                          (x0 ++ layout spans ++ post)))).
Proof.
  induction spans as [|[m1 x1] spans IH]; intros x0 post st Hx0 Hok m x Hin;
    [destruct Hin|].
  cbn [forallb] in Hok. apply andb_true_iff in Hok as [H1 Hok].
  unfold span_ok in H1. cbn [fst snd] in H1.
  apply andb_true_iff in H1 as [H1 Hx1]. apply andb_true_iff in H1 as [Hm1 Ht1].
  cbn [layout flat_map fst snd]. fold (layout spans).
  rewrite <- !app_assoc. cbn [app]. rewrite <- !app_assoc. cbn [app].
  rewrite (scan_prefix_hit _ _ x0 _ st _ _ _
             (find_re_not_inside _ math_pattern protect_math is_dollar x0
                math_start_dollar Hx0)
             (math_find st m1 (x1 ++ layout spans ++ post) Hm1 Ht1));
    [|simpl; rewrite length_app; simpl; lia].
  cbn [snd]. rewrite skipn_span.
  destruct Hin as [Heq|Hin].
  - injection Heq as <- <-. exists (math_counter st). unfold scan.
    apply protect_entry_kept.
    + cbn [protect_math snd math_placeholders]. apply dict_set_in.
    + cbn [protect_math snd math_counter]. lia.
  - apply (IH x1 post _ Hx1 Hok m x Hin).
Qed.

Lemma keys_removed text :
  ~ occurs ph_prefix text ->
  forall kv, In kv (snd (before_code text)) ->
    ~ occurs (fst kv) (process_inline_formatting text).
Proof.
  intros Hprefix [k v] Hin.
  pose proof (before_code_entries text) as Hentries.
  rewrite Forall_forall in Hentries.
  destruct (Hentries _ Hin) as [j [g [Hk _]]]. cbn [fst] in Hk |- *. subst k.
  rewrite process_inline_unfold. unfold after_code. apply restore_removes.
  - apply Forall_forall. intros kv' Hin'.
    apply (entry_of_clean text); [exact Hprefix|now apply Hentries].
  - right. apply (in_map fst) in Hin. exact Hin.
Qed.

Lemma first_span_restored pre m post :
  avoids is_dollar pre -> avoids is_dollar m -> existsb math_trigger m = true ->
  ~ occurs ph_prefix (pre ++ ch "$" :: m ++ ch "$" :: post) ->
  occurs (math_value m)
         (process_inline_formatting (pre ++ ch "$" :: m ++ ch "$" :: post)).
Proof.
  intros Hpre Hm Ht Hprefix.
  pose proof (before_code_entries (pre ++ ch "$" :: m ++ ch "$" :: post)) as Hentries.
  rewrite process_inline_unfold.
  destruct (before_code_first pre m post Hpre Hm Ht) as [t [d' [Hb Ho]]].
  rewrite Hb in *. cbn [fst snd] in *.
  inversion Hentries as [|? ? _ Hd']; subst.
  unfold after_code, restore_math. cbn [fold_left fst snd].
  fold (restore_math d' (replace (placeholder_of 0) (math_value m)
          (re_sub link_pattern link_template
             (re_sub image_pattern image_template (code_rewrite t))))).
  apply restore_keeps.
  - intros [k v] Hin. rewrite Forall_forall in Hd'.
    destruct (Hd' _ Hin) as [j [g [Hk _]]]. cbn [fst] in Hk |- *. subst k.
    split; [apply placeholder_nonempty|].
    split; [apply math_value_first|]. split; [apply math_value_last|].
    apply math_value_clear. intro H. apply Hprefix.
    apply (occurs_trans _ _ _ H). exists (pre ++ [ch "$"]), (ch "$" :: post).
    now rewrite <- app_assoc.
  - destruct (token_keeps_after 0 t Ho) as [u [v ->]].
    apply replace_hits, placeholder_nonempty.
Qed.

(** C5, as the code has it.  Take a text that nowhere holds the token prefix
    [__MATH_PLACEHOLDER_] and that starts with a stretch [x0] free of dollars
    followed by the spans [$m$], each [m] free of dollars and holding an
    operator or structural character or a Greek letter, with a text free of
    dollars after each of them; what follows the last one is arbitrary.  The
    formatted text contains none of the tokens that stood for the protected
    spans, and it contains the first span with the parenthesis delimiters,
    [\(m\)].  When the text does not hold [MATH_PLACEHOLDER] at all, it
    contains every span of the sequence with the parenthesis delimiters, and
    every value the protection pass recorded. *)
Theorem math_span_protected x0 spans post :
  let text := x0 ++ layout spans ++ post in
  avoids is_dollar x0 ->
  forallb span_ok spans = true ->
  contains ph_prefix text = false ->
  (forall kv, In kv (snd (before_code text)) ->
     contains (fst kv) (process_inline_formatting text) = false) /\
  (forall m x rest, spans = (m, x) :: rest ->
     contains (math_value m) (process_inline_formatting text) = true) /\
  (contains ph_core text = false ->
   (forall m x, In (m, x) spans ->
      contains (math_value m) (process_inline_formatting text) = true) /\
   (forall kv, In kv (snd (before_code text)) ->
      contains (snd kv) (process_inline_formatting text) = true)).
Proof.
  intros text Hx0 Hok Hprefix. apply contains_false_occurs in Hprefix.
  split; [|split].
  - intros kv Hin. apply contains_false_occurs. now apply keys_removed.
  - intros m x rest Hs. apply contains_occurs. unfold text in *. subst spans.
    cbn [forallb] in Hok. apply andb_true_iff in Hok as [H1 _].
    unfold span_ok in H1. cbn [fst snd] in H1.
    apply andb_true_iff in H1 as [H1 _]. apply andb_true_iff in H1 as [Hm Ht].
    cbn [layout flat_map fst snd] in *. fold (layout rest) in *.
    rewrite <- !app_assoc in *. cbn [app] in *. rewrite <- !app_assoc in *.
    cbn [app] in *. now apply first_span_restored.
  - intro Hcore. apply contains_false_occurs in Hcore.
    split.
    + intros m x Hin. apply contains_occurs.
      destruct (protect_layout spans x0 post math_state0 Hx0 Hok m x Hin) as [j Hj].
      apply (values_restored text Hcore (placeholder_of j, math_value m)).
      unfold before_code, re_sub_with. fold text in Hj.
      destruct (scan (find_re math_pattern protect_math) math_state0 text) as [t st].
      exact Hj.
    + intros kv Hin. apply contains_occurs. now apply values_restored.
Qed.


(** ** The code-span rewrite, span by span *)

Lemma code_starts m cs :
  Matches code_pattern m [] cs -> exists d m', m = d :: m' /\ is_backtick d = true.
Proof.
  intro H. destruct (code_shape m cs H) as [g [-> _]].
  exists (ch "`"), (g ++ [ch "`"]). now split.
Qed.

Lemma code_rewrite_pass x v :
  avoids is_backtick x -> code_rewrite (x ++ v) = x ++ code_rewrite v.
Proof.
  intro Hx. unfold code_rewrite. rewrite !re_sub_unfold.
  rewrite scan_pass; [reflexivity|].
  intros p1 p2 rep n st' Hs Hne.
  exact (find_re_not_inside _ code_pattern (pure_repl code_template) is_backtick x
           code_starts Hx tt p1 p2 v rep n st' Hs Hne).
Qed.

Lemma code_rewrite_span x c post :
  avoids is_backtick x -> c <> [] -> avoids is_backtick c ->
  code_rewrite (x ++ ch "`" :: c ++ ch "`" :: post) = x ++ code_span c ++ code_rewrite post.
Proof.
  intros Hx Hne Hc. unfold code_rewrite. rewrite !re_sub_unfold.
  rewrite (scan_prefix_hit _ _ x _ tt _ _ _
             (find_re_not_inside _ code_pattern (pure_repl code_template)
                is_backtick x code_starts Hx)
             (code_find c post Hne Hc));
    [|simpl; rewrite length_app; simpl; lia].
  cbn [fst]. now rewrite skipn_span.
Qed.

Lemma code_rewrite_layout : forall spans x0 post,
  avoids is_backtick x0 -> forallb code_span_ok spans = true ->
  code_rewrite (x0 ++ code_layout spans ++ post) =
    x0 ++ code_rendered spans ++ code_rewrite post.
Proof.
  induction spans as [|[c x] spans IH]; intros x0 post Hx0 Hok.
  - cbn [code_layout code_rendered flat_map app]. now apply code_rewrite_pass.
  - cbn [forallb] in Hok. apply andb_true_iff in Hok as [H1 Hok].
    unfold code_span_ok in H1. cbn [fst snd] in H1.
    apply andb_true_iff in H1 as [H1 Hx]. apply andb_true_iff in H1 as [Hne Hc].
    cbn [code_layout code_rendered flat_map fst snd].
    fold (code_layout spans). fold (code_rendered spans).
    rewrite <- !app_assoc. cbn [app]. rewrite <- !app_assoc. cbn [app].
    rewrite code_rewrite_span; [|exact Hx0|now destruct c|exact Hc].
    rewrite (IH x post Hx Hok). now rewrite <- ?app_assoc.
Qed.

Lemma code_no_empty r : re_match code_pattern (ch "`" :: ch "`" :: r) = None.
Proof.
  destruct (re_match code_pattern (ch "`" :: ch "`" :: r)) as [[[m rest] cs]|] eqn:E;
    [|reflexivity].
  exfalso. apply re_match_sound in E as [Hs Hm].
  apply code_shape in Hm as [g [-> [Hne [Hg _]]]].
  destruct g as [|c g]; [congruence|].
  simpl in Hs. injection Hs as Hs _. subst c.
  apply avoids_cons in Hg as [Hg _]. discriminate Hg.
Qed.

Lemma code_no_close r :
  avoids is_backtick r -> re_match code_pattern (ch "`" :: r) = None.
Proof.
  intro Hr.
  destruct (re_match code_pattern (ch "`" :: r)) as [[[m rest] cs]|] eqn:E;
    [|reflexivity].
  exfalso. apply re_match_sound in E as [Hs Hm].
  apply code_shape in Hm as [g [-> _]].
  simpl in Hs. injection Hs as Hs. rewrite <- app_assoc in Hs. cbn [app] in Hs.
  rewrite Hs in Hr. apply avoids_app in Hr as [_ Hr].
  apply avoids_cons in Hr as [Hr _]. discriminate Hr.
Qed.

Lemma code_rewrite_miss s :
  re_match code_pattern (ch "`" :: s) = None ->
  code_rewrite (ch "`" :: s) = ch "`" :: code_rewrite s.
Proof.
  intro H. unfold code_rewrite. rewrite !re_sub_unfold.
  rewrite scan_miss; [reflexivity|]. unfold find_re. now rewrite H.
Qed.

Lemma code_rendered_occurs c x : forall spans,
  In (c, x) spans -> occurs (code_span c) (code_rendered spans).
Proof.
  induction spans as [|[c' x'] spans IH]; [intros []|intros [H|H]].
  - injection H as -> ->. exists [], (x ++ code_rendered spans).
    cbn [code_rendered flat_map fst snd app]. now rewrite <- app_assoc.
  - destruct (IH H) as [u [v Huv]].
    exists (code_span c' ++ x' ++ u), v.
    cbn [code_rendered flat_map fst snd]. fold (code_rendered spans).
    rewrite Huv. now rewrite <- !app_assoc.
Qed.

Lemma code_span_survives text c :
  occurs (code_span c) (code_rewrite (fst (before_code text))) ->
  avoids is_bracket c -> ~ occurs ph_prefix c ->
  occurs (code_span c) (process_inline_formatting text).
Proof.
  intros Hocc Hbr Hprefix. rewrite process_inline_unfold.
  pose proof (before_code_entries text) as Hentries. rewrite Forall_forall in Hentries.
  apply after_code_keeps; [| | |exact Hocc].
  - unfold code_span. rewrite !avoids_app.
    split; [reflexivity|]. split; [exact Hbr|reflexivity].
  - unfold code_span. rewrite last_between by discriminate. vm_compute. discriminate.
  - intros [k v] Hin. destruct (Hentries _ Hin) as [j [g [Hk _]]].
    cbn [fst] in Hk |- *. subst k.
    split; [apply placeholder_nonempty|].
    split; [now apply placeholder_not_in|].
    split.
    + unfold code_span. rewrite last_between by discriminate.
      now apply placeholder_not_in.
    + intro H. apply Hprefix.
      apply (placeholder_between j (lit "<code>") c (lit "</code>"));
        [reflexivity|exact H].
Qed.

(** C1, as the code has it.  The code-span rewrite goes through the text from
    left to right and pairs the backticks as it meets them.  A text that
    starts with a stretch free of backticks followed by spans [`c`], each [c]
    not empty and free of backticks, with a text free of backticks after each
    of them, has every one of these spans turned into [<code>c</code>] with
    [c] unchanged; what follows the last one is rewritten in the same way.  A
    backtick followed by another one opens no span and stays, and so does a
    backtick with no other one after it.  The image and link rewrites and the
    restoration of the math spans, which follow, run over the code spans as
    over the rest of the text; they leave a code span [<code>c</code>] of the
    rewritten text in the output when [c] holds no bracket or parenthesis and
    no token prefix [__MATH_PLACEHOLDER_]: every such span of the sequence is
    in the formatted text. *)
Theorem code_span_kept :
  (forall x0 spans post,
     avoids is_backtick x0 -> forallb code_span_ok spans = true ->
     code_rewrite (x0 ++ code_layout spans ++ post) =
       x0 ++ code_rendered spans ++ code_rewrite post) /\
  (forall x r,
     avoids is_backtick x ->
     code_rewrite (x ++ ch "`" :: ch "`" :: r) = x ++ ch "`" :: code_rewrite (ch "`" :: r)) /\
  (forall x r,
     avoids is_backtick x -> avoids is_backtick r ->
     code_rewrite (x ++ ch "`" :: r) = x ++ ch "`" :: r) /\
  (forall text c,
     contains (code_span c) (code_rewrite (fst (before_code text))) = true ->
     avoids is_bracket c ->
     contains ph_prefix c = false ->
     contains (code_span c) (process_inline_formatting text) = true) /\
  (forall text x0 spans post c x,
     fst (before_code text) = x0 ++ code_layout spans ++ post ->
     avoids is_backtick x0 -> forallb code_span_ok spans = true ->
     In (c, x) spans ->
     avoids is_bracket c ->
     contains ph_prefix c = false ->
     contains (code_span c) (process_inline_formatting text) = true).
Proof.
  split; [intros x0 spans post; apply code_rewrite_layout|].
  split.
  { intros x r Hx. rewrite code_rewrite_pass by exact Hx.
    now rewrite (code_rewrite_miss _ (code_no_empty r)). }
  split.
  { intros x r Hx Hr. rewrite code_rewrite_pass by exact Hx.
    rewrite (code_rewrite_miss _ (code_no_close r Hr)).
    rewrite <- (app_nil_r r) at 1. rewrite code_rewrite_pass by exact Hr.
    now rewrite app_nil_r. }
  split.
  { intros text c Hocc Hbr Hprefix.
    apply contains_false_occurs in Hprefix. apply contains_occurs in Hocc.
    apply contains_occurs. now apply code_span_survives. }
  intros text x0 spans post c x Hb Hx0 Hok Hin Hbr Hprefix.
  apply contains_false_occurs in Hprefix. apply contains_occurs.
  apply code_span_survives; [|exact Hbr|exact Hprefix].
  rewrite Hb, code_rewrite_layout by assumption.
  destruct (code_rendered_occurs c x spans Hin) as [u [v ->]].
  exists (x0 ++ u), (v ++ code_rewrite post). now rewrite <- !app_assoc.
Qed.

(** The claim C5 as stated covers every protected span.  In the text
    "$__MATH_PLACEHOLDER_0__$" the span holds an underscore, so it is
    protected, and its content is the very token that stands for it: the
    restoration puts the token back into the output. *)
Lemma math_span_counterexample :
  ~ (forall pre m post,
       let text := pre ++ ch "$" :: m ++ ch "$" :: post in
       avoids is_dollar m ->
       existsb math_trigger m = true ->
       contains (math_value m) (process_inline_formatting text) = true /\
       forall kv, In kv (snd (before_code text)) ->
                  contains (fst kv) (process_inline_formatting text) = false).
Proof.
  intro H.
  destruct (H [] (lit "__MATH_PLACEHOLDER_0__") [] eq_refl eq_refl) as [_ H2].
  specialize (H2 (placeholder_of 0, math_value (lit "__MATH_PLACEHOLDER_0__"))).
  assert (Hin : In (placeholder_of 0, math_value (lit "__MATH_PLACEHOLDER_0__"))
                   (snd (before_code (lit "$__MATH_PLACEHOLDER_0__$"))))
    by (vm_compute; auto).
  specialize (H2 Hin). vm_compute in H2. discriminate H2.
Qed.

(** A span that is not reached by the left-to-right scan is not rewritten
    either: in "$x+y$a+b$" the second dollar closes the first span. *)
Example math_span_overlap :
  process_inline_formatting (lit "$x+y$a+b$") = lit "\(x+y\)a+b$".
Proof. vm_compute. reflexivity. Qed.

(** With [MATH_PLACEHOLDER] in the text, a token made by the protection pass
    can run into it: here the restoration of the first span takes the end of
    the second token for the start of the first, and the second span is
    lost. *)
Example math_span_later_lost :
  process_inline_formatting (lit "$a+b$ $c_1$MATH_PLACEHOLDER_0__") =
    lit "\(a+b\) __MATH_PLACEHOLDER_1\(a+b\)".
Proof. vm_compute. reflexivity. Qed.

Lemma math_span_protected_witness :
  (forall kv,
     In kv (snd (before_code (lit "so $a+b$ and **$c_1$** hold, `$x>y$`"))) ->
     contains (fst kv)
              (process_inline_formatting (lit "so $a+b$ and **$c_1$** hold, `$x>y$`")) = false) /\
  (forall m x rest,
     [(lit "a+b", lit " and **"); (lit "c_1", lit "** hold, `")] = (m, x) :: rest ->
     contains (math_value m)
              (process_inline_formatting (lit "so $a+b$ and **$c_1$** hold, `$x>y$`")) = true) /\
  (forall m x,
     In (m, x) [(lit "a+b", lit " and **"); (lit "c_1", lit "** hold, `")] ->
     contains (math_value m)
              (process_inline_formatting (lit "so $a+b$ and **$c_1$** hold, `$x>y$`")) = true) /\
  (forall kv,
     In kv (snd (before_code (lit "so $a+b$ and **$c_1$** hold, `$x>y$`"))) ->
     contains (snd kv)
              (process_inline_formatting (lit "so $a+b$ and **$c_1$** hold, `$x>y$`")) = true).
Proof.
  pose proof (math_span_protected (lit "so ")
                [(lit "a+b", lit " and **"); (lit "c_1", lit "** hold, `")]
                (lit "$x>y$`") eq_refl eq_refl eq_refl) as [H1 [H2 H3]].
  split; [exact H1|]. split; [exact H2|]. exact (H3 eq_refl).
Defined.

(** The claim C1 as stated keeps the content of every code span from the
    later rewrites.  In "`[a](b)`" the content is link syntax, and the link
    rewrite, which runs after the code-span rewrite, turns it into an
    anchor. *)
Lemma code_span_counterexample :
  ~ (forall text c,
       contains (code_span c) (code_rewrite (fst (before_code text))) = true ->
       contains (code_span c) (process_inline_formatting text) = true).
Proof.
  intro H.
  specialize (H (lit "`[a](b)`") (lit "[a](b)") ltac:(vm_compute; reflexivity)).
  vm_compute in H. discriminate H.
Qed.

Example code_span_link :
  process_inline_formatting (lit "`[a](b)`") =
    lit "<code><a href=" ++ dq ++ lit "b" ++ dq ++ lit ">a</a></code>".
Proof. vm_compute. reflexivity. Qed.

Example code_span_math :
  process_inline_formatting (lit "`$a+b$`") = lit "<code>\(a+b\)</code>".
Proof. vm_compute. reflexivity. Qed.

(** A later span is rewritten after a closed one; an empty pair of backticks
    is no span, and its second backtick opens the next one. *)
Example code_span_later :
  process_inline_formatting (lit "see `a` and `b`, not `` or `c") =
    lit "see <code>a</code> and <code>b</code>, not `<code> or </code>c".
Proof. vm_compute. reflexivity. Qed.

Lemma code_span_kept_witness :
  code_rewrite (lit "see `a` and `b`, not `c") =
    lit "see <code>a</code> and <code>b</code>, not `c" /\
  contains (code_span (lit "b"))
           (process_inline_formatting (lit "see `a` and `b`, not `c")) = true.
Proof.
  destruct code_span_kept as [H1 [_ [H3 [_ H5]]]].
  split.
  - refine (eq_trans (H1 (lit "see ") [(lit "a", lit " and "); (lit "b", lit ", not ")]
                         (lit "`c") eq_refl eq_refl) _).
    change (lit "`c") with ([] ++ ch "`" :: lit "c").
    rewrite (H3 [] (lit "c") eq_refl eq_refl). reflexivity.
  - apply (H5 (lit "see `a` and `b`, not `c") (lit "see ")
              [(lit "a", lit " and "); (lit "b", lit ", not ")] (lit "`c")
              (lit "b") (lit ", not "));
      try reflexivity.
    right. left. reflexivity.
Defined.

(** * Further properties of the code *)

(** ** The HTML escaper, one character at a time *)

Lemma entity_of_stages x :
  flat_map (subst_chr (ch "'") (lit "&#39;"))
    (flat_map (subst_chr 34%N (lit "&quot;"))
       (flat_map (subst_chr (ch ">") (lit "&gt;"))
          (flat_map (subst_chr (ch "<") (lit "&lt;"))
             (subst_chr (ch "&") (lit "&amp;") x)))) = entity_of x.
Proof.
  unfold entity_of, subst_chr at 5.
  destruct (chr_eqb x (ch "&")) eqn:E1; [reflexivity|].
  cbn [flat_map app]. unfold subst_chr at 4.
  destruct (chr_eqb x (ch "<")) eqn:E2; [reflexivity|].
  cbn [flat_map app]. unfold subst_chr at 3.
  destruct (chr_eqb x (ch ">")) eqn:E3; [reflexivity|].
  cbn [flat_map app]. unfold subst_chr at 2.
  destruct (chr_eqb x 34%N) eqn:E4; [reflexivity|].
  cbn [flat_map app]. unfold subst_chr.
  destruct (chr_eqb x (ch "'")) eqn:E5; reflexivity.
Qed.

Lemma escape_html_flat_map text : escape_html text = flat_map entity_of text.
Proof.
  rewrite escape_html_unfold, !replace_chr.
  induction text as [|x text IH]; [reflexivity|].
  cbn [flat_map]. rewrite !flat_map_app, IH. f_equal. apply entity_of_stages.
Qed.

(** X1. The five replacements of [escape_html] amount to one pass that
    writes each character once, as itself or as its entity: the ampersand of
    an entity written for a later character is not escaped again. *)
Theorem escape_html_chars text : escape_html text = flat_map entity_of text.
Proof. apply escape_html_flat_map. Qed.

Lemma entity_of_cases c :
  (c = ch "&" /\ entity_of c = lit "&amp;") \/
  (c = ch "<" /\ entity_of c = lit "&lt;") \/
  (c = ch ">" /\ entity_of c = lit "&gt;") \/
  (c = 34%N /\ entity_of c = lit "&quot;") \/
  (c = ch "'" /\ entity_of c = lit "&#39;") \/
  (~ In c html_special /\ entity_of c = [c]).
Proof.
  unfold entity_of.
  destruct (chr_eqb c (ch "&")) eqn:E1; [apply chr_eqb_eq in E1; auto|].
  destruct (chr_eqb c (ch "<")) eqn:E2; [apply chr_eqb_eq in E2; auto|].
  destruct (chr_eqb c (ch ">")) eqn:E3; [apply chr_eqb_eq in E3; auto 6|].
  destruct (chr_eqb c 34%N) eqn:E4; [apply chr_eqb_eq in E4; auto 6|].
  destruct (chr_eqb c (ch "'")) eqn:E5; [apply chr_eqb_eq in E5; auto 8|].
  do 5 right. split; [|reflexivity].
  intro H. vm_compute in H.
  destruct H as [H|[H|[H|[H|[H|[]]]]]]; subst c; vm_compute in *; congruence.
Qed.

Lemma entity_of_injective : forall a b,
  flat_map entity_of a = flat_map entity_of b -> a = b.
Proof.
  induction a as [|x a IH]; intros [|y b] H.
  - reflexivity.
  - exfalso. cbn [flat_map] in H.
    destruct (entity_of_cases y) as [[_ E]|[[_ E]|[[_ E]|[[_ E]|[[_ E]|[_ E]]]]]];
      rewrite E in H; discriminate H.
  - exfalso. cbn [flat_map] in H.
    destruct (entity_of_cases x) as [[_ E]|[[_ E]|[[_ E]|[[_ E]|[[_ E]|[_ E]]]]]];
      rewrite E in H; discriminate H.
  - cbn [flat_map] in H.
    destruct (entity_of_cases x) as [[Hx E]|[[Hx E]|[[Hx E]|[[Hx E]|[[Hx E]|[Hx E]]]]]];
    destruct (entity_of_cases y) as [[Hy F]|[[Hy F]|[[Hy F]|[[Hy F]|[[Hy F]|[Hy F]]]]]];
      rewrite E, F in H; cbn [lit app] in H; simpl in H;
      try discriminate H;
      try (subst x y; f_equal; apply IH; now injection H);
      try (exfalso; injection H as H _; subst; (apply Hx || apply Hy);
           vm_compute; tauto).
    injection H as -> H. f_equal. now apply IH.
Qed.

(** X2. Escaping loses nothing: two texts with the same escaped form are the
    same text. *)
Theorem escape_html_injective a b : escape_html a = escape_html b -> a = b.
Proof. rewrite !escape_html_flat_map. apply entity_of_injective. Qed.

(** X3. The escaped text holds none of the characters less-than, greater-than,
    double quote and single quote. *)
Theorem escape_html_no_markup text c :
  In c (escape_html text) ->
  c <> ch "<" /\ c <> ch ">" /\ c <> 34%N /\ c <> ch "'".
Proof.
  rewrite escape_html_flat_map. intro H.
  apply in_flat_map in H as [x [_ H]].
  destruct (entity_of_cases x) as [[_ E]|[[_ E]|[[_ E]|[[_ E]|[[_ E]|[Hx E]]]]]];
    rewrite E in H.
  1-5: vm_compute in H; repeat split; intro; subst c; intuition discriminate.
  destruct H as [<-|[]].
  repeat split; intros ->; apply Hx; vm_compute; tauto.
Qed.

Lemma length_entity_of c : 1 <= length (entity_of c).
Proof.
  destruct (entity_of_cases c) as [[_ E]|[[_ E]|[[_ E]|[[_ E]|[[_ E]|[_ E]]]]]];
    rewrite E; simpl; lia.
Qed.

Lemma length_flat_entity text : length text <= length (flat_map entity_of text).
Proof.
  induction text as [|x text IH]; [simpl; lia|].
  cbn [flat_map]. rewrite length_app. pose proof (length_entity_of x). simpl. lia.
Qed.

(** X4. Escaping returns the text unchanged exactly when the text holds none of
    the five special characters. *)
Theorem escape_html_fixed text :
  escape_html text = text <-> (forall c, In c text -> ~ In c html_special).
Proof.
  rewrite escape_html_flat_map. split.
  - induction text as [|x text IH]; intros H c Hin; [destruct Hin|].
    cbn [flat_map] in H.
    assert (Hlen : length (entity_of x) + length (flat_map entity_of text)
                   = S (length text)).
    { rewrite <- length_app, H. reflexivity. }
    pose proof (length_flat_entity text) as Hle.
    destruct (entity_of_cases x) as [[_ E]|[[_ E]|[[_ E]|[[_ E]|[[_ E]|[Hx E]]]]]];
      rewrite E in H, Hlen; try (simpl in Hlen; lia).
    injection H as H. destruct Hin as [<-|Hin]; [exact Hx|now apply IH].
  - induction text as [|x text IH]; intro H; [reflexivity|].
    cbn [flat_map]. rewrite IH by (intros c Hc; apply H; now right).
    destruct (entity_of_cases x) as [[Hx E]|[[Hx E]|[[Hx E]|[[Hx E]|[[Hx E]|[Hx E]]]]]];
      try (exfalso; apply (H x (or_introl eq_refl)); rewrite Hx; vm_compute; tauto).
    now rewrite E.
Qed.

(** *** Substitution of a class and of its runs *)

Lemma re_sub_cls p l s :
  re_sub (Cls p) [TLit l] s = flat_map (fun x => if p x then l else [x]) s.
Proof.
  unfold re_sub, re_sub_with, scan. induction s as [|x s IH]; [reflexivity|].
  cbn [scan_from flat_map]. unfold find_re at 1, re_match. cbn [match_k].
  rewrite <- IH. clear IH.
  destruct (p x).
  - cbn [length expand flat_map]. rewrite app_nil_r.
    now destruct (scan_from _ 0 tt s) as [out u].
  - now destruct (scan_from _ 0 tt s) as [out u].
Qed.

Lemma star_k_total (R : Type) p (f : str -> str -> R) : forall s,
  star_k p s (fun m r => Some (f m r)) = Some (f (take_while p s) (drop_while p s)).
Proof.
  intro s. revert f. induction s as [|c s IH]; intro f; [reflexivity|].
  cbn [star_k take_while drop_while]. destruct (p c); [|reflexivity].
  now rewrite (IH (fun m r => f (c :: m) r)).
Qed.

Lemma plus_match p x s :
  re_match (Plus p) (x :: s) =
  if p x then Some (x :: take_while p s, drop_while p s, []) else None.
Proof.
  unfold re_match. cbn [match_k]. destruct (p x); [|reflexivity].
  apply (star_k_total _ p (fun m r => (x :: m, r, @nil (nat * str)))).
Qed.

Lemma skipn_take_while p : forall s, skipn (length (take_while p s)) s = drop_while p s.
Proof.
  induction s as [|c s IH]; [reflexivity|].
  cbn [take_while drop_while]. destruct (p c); [exact IH|reflexivity].
Qed.

Lemma drop_while_head p s :
  match drop_while p s with [] => True | c :: _ => p c = false end.
Proof.
  induction s as [|c s IH]; [exact I|].
  cbn [drop_while]. destruct (p c) eqn:E; [exact IH|exact E].
Qed.

Lemma length_drop_while p s : length (drop_while p s) <= length s.
Proof.
  induction s as [|c s IH]; [simpl; lia|].
  cbn [drop_while]. destruct (p c); simpl; lia.
Qed.

Lemma squeeze_drop p l : forall s, squeeze p l true s = squeeze p l false (drop_while p s).
Proof.
  induction s as [|c s IH]; [reflexivity|].
  cbn [squeeze drop_while]. destruct (p c) eqn:E; [exact IH|].
  cbn [squeeze]. now rewrite E.
Qed.

Lemma re_sub_plus p l s : re_sub (Plus p) [TLit l] s = squeeze p l false s.
Proof.
  rewrite re_sub_unfold.
  assert (H : forall n s, length s <= n ->
            fst (scan (find_re (Plus p) (pure_repl [TLit l])) tt s) = squeeze p l false s).
  { clear s. induction n as [|n IH]; intros s Hlen.
    - destruct s; [reflexivity|simpl in Hlen; lia].
    - destruct s as [|x s]; [reflexivity|]. simpl in Hlen.
      cbn [squeeze]. destruct (p x) eqn:E.
      + rewrite (scan_hit _ _ tt _ l (length (take_while p s)) tt).
        * cbn [fst skipn]. rewrite skipn_take_while, squeeze_drop. f_equal.
          apply IH. pose proof (length_drop_while p s). lia.
        * unfold find_re. rewrite plus_match, E. unfold pure_repl.
          cbn [expand flat_map length]. now rewrite app_nil_r.
        * simpl. apply le_n_S.
          clear. induction s as [|c s IH]; [simpl; lia|].
          cbn [take_while]. destruct (p c); simpl; lia.
      + rewrite scan_miss.
        * cbn [fst]. f_equal. apply IH. lia.
        * unfold find_re. now rewrite plus_match, E. }
  apply (H (length s)). apply Nat.le_refl.
Qed.

(** *** Checking a property of the ASCII characters one by one *)

Lemma ascii_check (P : char -> bool) :
  forallb P (map N.of_nat (seq 0 128)) = true ->
  forall c, is_ascii c = true -> P c = true.
Proof.
  intros H c Hc. rewrite forallb_forall in H. apply H.
  unfold is_ascii in Hc. apply N.ltb_lt in Hc.
  apply in_map_iff. exists (N.to_nat c). split; [apply N2Nat.id|].
  apply in_seq. lia.
Qed.

Lemma slug_char_ascii c : slug_char c = true -> is_ascii c = true.
Proof.
  unfold slug_char, in_range, chr_eqb, is_ascii.
  change (ch "_") with 95%N. change (ch "-") with 45%N.
  rewrite !orb_true_iff, !andb_true_iff, !N.leb_le, !N.eqb_eq, N.ltb_lt. lia.
Qed.

(** *** Trimming *)

Lemma drop_while_suffix f : forall s, exists u, s = u ++ drop_while f s.
Proof.
  induction s as [|c s [u IH]]; [now exists []|].
  cbn [drop_while]. destruct (f c); [|now exists []].
  exists (c :: u). simpl. now rewrite <- IH.
Qed.

Lemma drop_while_all f : forall s, forallb f s = true -> drop_while f s = [].
Proof.
  induction s as [|c s IH]; [reflexivity|]. cbn [forallb drop_while].
  intro H. apply andb_true_iff in H as [-> H]. now apply IH.
Qed.

Lemma drop_while_none f s :
  match s with [] => True | c :: _ => f c = false end -> drop_while f s = s.
Proof. destruct s as [|c s]; [reflexivity|]. cbn [drop_while]. now intros ->. Qed.

(** The trimmed text lies inside the text; when it is not empty, it neither
    starts nor ends with a trimmed character. *)
Lemma strip_with_inside f s :
  exists u v, s = u ++ strip_with f s ++ v /\
    (strip_with f s = [] \/
     (f (hd 0%N (strip_with f s)) = false /\ f (last (strip_with f s) 0%N) = false)).
Proof.
  unfold strip_with.
  destruct (drop_while_suffix f s) as [u Hu].
  destruct (drop_while_suffix f (rev (drop_while f s))) as [w Hw].
  set (t := drop_while f s) in *. set (k := drop_while f (rev t)) in *.
  assert (Ht : t = rev k ++ rev w).
  { rewrite <- rev_app_distr, <- Hw. now rewrite rev_involutive. }
  exists u, (rev w). split; [now rewrite <- Ht|].
  pose proof (drop_while_head f (rev t)) as Hk. fold k in Hk.
  pose proof (drop_while_head f s) as Hh. fold t in Hh. rewrite Ht in Hh.
  clearbody k t. destruct k as [|c k']; [now left|]. right.
  split.
  - destruct (rev (c :: k')) as [|a r] eqn:Er; [|exact Hh].
    apply (f_equal (@length char)) in Er. rewrite length_rev in Er. discriminate Er.
  - cbn [rev]. now rewrite last_last.
Qed.

Lemma strip_with_id f s :
  s <> [] -> f (hd 0%N s) = false -> f (last s 0%N) = false -> strip_with f s = s.
Proof.
  intros Hne Hh Hl. destruct s as [|c s]; [congruence|]. cbn [hd] in Hh.
  rewrite strip_with_cons by exact Hh. f_equal.
  destruct s as [|c' s]; [reflexivity|].
  rewrite drop_while_none; [apply rev_involutive|].
  match goal with
  | |- match ?q with _ => _ end => destruct q as [|a r] eqn:Er; [exact I|]
  end.
  assert (Hlast : last (c :: c' :: s) 0%N = a).
  { assert (Hs : c' :: s = rev (a :: r))
      by (rewrite <- Er; symmetry; apply rev_involutive).
    rewrite Hs. cbn [rev].
    change (c :: rev r ++ [a]) with ((c :: rev r) ++ [a]). apply last_last. }
  now rewrite <- Hlast.
Qed.

Lemma strip_with_all f s : forallb f s = true -> strip_with f s = [].
Proof. intro H. unfold strip_with. now rewrite (drop_while_all f s H). Qed.

(** *** Runs replaced by one character *)

Lemma squeeze_in p l : forall s b c,
  In c (squeeze p l b s) -> In c s \/ In c l.
Proof.
  induction s as [|x s IH]; intros b c H; [destruct H|].
  cbn [squeeze] in H. destruct (p x).
  - destruct b.
    + destruct (IH _ _ H); [left; now right|now right].
    + apply in_app_or in H as [H|H]; [now right|].
      destruct (IH _ _ H); [left; now right|now right].
  - destruct H as [->|H]; [left; now left|].
    destruct (IH _ _ H); [left; now right|now right].
Qed.

Lemma squeeze_all p l : forall s b,
  forallb p s = true -> forallb p l = true -> forallb p (squeeze p l b s) = true.
Proof.
  induction s as [|x s IH]; intros b Hs Hl; [reflexivity|].
  cbn [forallb] in Hs. apply andb_true_iff in Hs as [Hx Hs].
  cbn [squeeze]. rewrite Hx. destruct b; [now apply IH|].
  rewrite forallb_app, Hl. now apply IH.
Qed.

Lemma squeeze_true_head p l : forall s,
  match squeeze p l true s with [] => True | c :: _ => p c = false end.
Proof.
  induction s as [|x s IH]; [exact I|].
  cbn [squeeze]. destruct (p x) eqn:E; [exact IH|exact E].
Qed.

Lemma no_double_cons d c s :
  ~ occurs [d; d] s -> (c <> d \/ match s with [] => True | x :: _ => x <> d end) ->
  ~ occurs [d; d] (c :: s).
Proof.
  intros Hs Hc [u [v H]]. destruct u as [|a u].
  - simpl in H. injection H as -> H. destruct Hc as [Hc|Hc]; [congruence|].
    rewrite H in Hc. congruence.
  - simpl in H. injection H as _ H. apply Hs. now exists u, v.
Qed.

Lemma squeeze_no_double d : forall s b,
  ~ occurs [d; d] (squeeze (is_chr d) [d] b s).
Proof.
  induction s as [|x s IH]; intro b.
  - intros [u [v H]]. destruct u; discriminate H.
  - cbn [squeeze]. destruct (is_chr d x) eqn:E.
    + destruct b; [apply IH|]. cbn [app]. apply no_double_cons; [apply IH|]. right.
      pose proof (squeeze_true_head (is_chr d) [d] s) as Hh.
      destruct (squeeze (is_chr d) [d] true s) as [|y r]; [exact I|].
      intros ->. unfold is_chr in Hh. now rewrite chr_eqb_refl in Hh.
    + apply no_double_cons; [apply IH|]. left. intros ->.
      unfold is_chr in E. now rewrite chr_eqb_refl in E.
Qed.

Lemma squeeze_id d : forall s b,
  ~ occurs [d; d] s ->
  (b = true -> match s with [] => True | x :: _ => x <> d end) ->
  squeeze (is_chr d) [d] b s = s.
Proof.
  induction s as [|x s IH]; intros b Hs Hb; [reflexivity|].
  assert (Hs' : ~ occurs [d; d] s) by (intro H; apply Hs; now apply occurs_cons).
  cbn [squeeze]. destruct (is_chr d x) eqn:E.
  - unfold is_chr in E. apply chr_eqb_eq in E. subst x.
    destruct b; [now specialize (Hb eq_refl)|]. cbn [app]. f_equal.
    apply IH; [exact Hs'|]. intros _. destruct s as [|y s]; [exact I|].
    intros ->. apply Hs. now exists [], s.
  - f_equal. apply IH; [exact Hs'|discriminate].
Qed.

(** *** The slug generator *)

Section SlugFacts.
Variable U : unicode_db.

Lemma generate_id_unfold text :
  generate_id U text =
  match strip_with is_hyphen
          (squeeze is_hyphen (lit "-") false
             (flat_map (fun x => if not_word_or_cjk U x then lit "-" else [x]) text)) with
  | [] => lit "heading"
  | c :: r => lower U (c :: r)
  end.
Proof.
  unfold generate_id. rewrite re_sub_cls, re_sub_plus.
  change (is_chr (ch "-")) with is_hyphen.
  now destruct (strip_with is_hyphen _).
Qed.

(** X5. A text without any word character or CJK ideograph, the empty text
    among them, has the slug "heading". *)
Theorem generate_id_fallback text :
  forallb (not_word_or_cjk U) text = true -> generate_id U text = lit "heading".
Proof.
  intro H. rewrite generate_id_unfold.
  rewrite strip_with_all; [reflexivity|].
  apply squeeze_all; [|reflexivity].
  induction text as [|x text IH]; [reflexivity|].
  cbn [forallb] in H. apply andb_true_iff in H as [Hx H].
  cbn [flat_map]. rewrite Hx. cbn [lit app forallb]. simpl. now apply IH.
Qed.


Lemma dashed_chars text :
  forallb is_ascii text = true ->
  forallb (pre_slug_char U)
    (flat_map (fun x => if not_word_or_cjk U x then lit "-" else [x]) text) = true.
Proof.
  induction text as [|x text IH]; intro H; [reflexivity|].
  cbn [forallb] in H. apply andb_true_iff in H as [Hx H].
  cbn [flat_map]. rewrite forallb_app, (IH H), andb_true_r.
  unfold not_word_or_cjk, pre_slug_char.
  destruct (isword U x) eqn:Ew; cbn [orb negb].
  - cbn [forallb]. now rewrite Hx, Ew.
  - assert (Hr : in_range 19968 40959 x = false).
    { unfold is_ascii in Hx. apply N.ltb_lt in Hx. unfold in_range.
      apply andb_false_iff. left. apply N.leb_gt. lia. }
    rewrite Hr. reflexivity.
Qed.

Lemma lower_ascii s : forallb is_ascii s = true -> lower U s = map ascii_lower s.
Proof. intro H. unfold lower. now rewrite H. Qed.

Lemma pre_slug_lower c : pre_slug_char U c = true -> slug_char (ascii_lower c) = true.
Proof.
  intro H. unfold pre_slug_char in H. apply andb_true_iff in H as [Ha H].
  revert H. apply (ascii_check (fun c => implb (isword U c || is_hyphen c)
                                              (slug_char (ascii_lower c)))) in Ha;
    [|vm_compute; reflexivity].
  intro H. now rewrite H in Ha.
Qed.

Lemma lower_hyphen c : is_ascii c = true -> is_hyphen (ascii_lower c) = is_hyphen c.
Proof.
  intro Ha.
  apply (ascii_check (fun c => Bool.eqb (is_hyphen (ascii_lower c)) (is_hyphen c))) in Ha;
    [|vm_compute; reflexivity].
  now apply Bool.eqb_prop in Ha.
Qed.

Lemma slug_lower_id c : slug_char c = true -> ascii_lower c = c.
Proof.
  intro H. pose proof (slug_char_ascii c H) as Ha.
  apply (ascii_check (fun c => implb (slug_char c) (chr_eqb (ascii_lower c) c))) in Ha;
    [|vm_compute; reflexivity].
  rewrite H in Ha. now apply chr_eqb_eq in Ha.
Qed.

Lemma slug_dash_id c :
  slug_char c = true -> (if not_word_or_cjk U c then lit "-" else [c]) = [c].
Proof.
  intro H. pose proof (slug_char_ascii c H) as Ha.
  apply (ascii_check
           (fun c => implb (slug_char c)
                       (str_eqb (if not_word_or_cjk U c then lit "-" else [c]) [c]))) in Ha;
    [|vm_compute; reflexivity].
  rewrite H in Ha. now apply str_eqb_eq in Ha.
Qed.

Lemma last_map_ne (f : char -> char) : forall s d,
  s <> [] -> last (map f s) d = f (last s d).
Proof.
  induction s as [|x s IH]; intros d Hne; [congruence|].
  destruct s as [|y s]; [reflexivity|].
  specialize (IH d ltac:(discriminate)).
  change (last (map f (x :: y :: s)) d) with (last (map f (y :: s)) d).
  change (last (x :: y :: s) d) with (last (y :: s) d). exact IH.
Qed.

Lemma no_double_map (f : char -> char) d s :
  (forall c, In c s -> f c = d -> c = d) ->
  ~ occurs [d; d] s -> ~ occurs [d; d] (map f s).
Proof.
  intros Hf Hs [u [v H]].
  apply map_eq_app in H as [u' [w [-> [_ H]]]].
  destruct w as [|a [|b w]]; try discriminate H.
  cbn [map app] in H. injection H as Ha Hb _.
  apply Hs. exists u', w.
  rewrite (Hf a), (Hf b); try assumption; try reflexivity;
    apply in_or_app; right; simpl; auto.
Qed.


Lemma generate_id_shape text :
  forallb is_ascii text = true -> slug_shape (generate_id U text).
Proof.
  intro Hascii. rewrite generate_id_unfold.
  pose proof (dashed_chars text Hascii) as H1.
  set (s1 := flat_map (fun x => if not_word_or_cjk U x then lit "-" else [x]) text) in *.
  assert (H2 : forallb (pre_slug_char U) (squeeze is_hyphen (lit "-") false s1) = true).
  { apply forallb_forall. intros c Hc. rewrite forallb_forall in H1.
    apply squeeze_in in Hc as [Hc|[<-|[]]]; [now apply H1|reflexivity]. }
  pose proof (squeeze_no_double (ch "-") s1 false) as Hd.
  change (squeeze (is_chr (ch "-")) [ch "-"] false s1)
    with (squeeze is_hyphen (lit "-") false s1) in Hd.
  set (s2 := squeeze is_hyphen (lit "-") false s1) in *.
  destruct (strip_with_inside is_hyphen s2) as [u [v [Hs Hends]]].
  set (s3 := strip_with is_hyphen s2) in *.
  assert (H3 : forallb (pre_slug_char U) s3 = true).
  { apply forallb_forall. intros c Hc. rewrite forallb_forall in H2. apply H2.
    rewrite Hs. apply in_or_app. right. apply in_or_app. now left. }
  assert (Hd3 : ~ occurs [ch "-"; ch "-"] s3).
  { intro Ho. apply Hd. apply (occurs_trans _ s3); [exact Ho|]. now exists u, v. }
  destruct s3 as [|c r] eqn:E3.
  - repeat split; try reflexivity; try discriminate.
    intro Ho. apply contains_occurs in Ho. vm_compute in Ho. discriminate Ho.
  - destruct Hends as [Hends|[Hh Hl]]; [discriminate Hends|].
    assert (Ha3 : forallb is_ascii (c :: r) = true).
    { apply forallb_forall. intros x Hx. rewrite forallb_forall in H3.
      specialize (H3 x Hx). unfold pre_slug_char in H3.
      now apply andb_true_iff in H3 as [H3 _]. }
    rewrite lower_ascii by exact Ha3.
    rewrite forallb_forall in H3, Ha3.
    split; [discriminate|]. split; [|split; [|split]].
    + apply forallb_forall. intros x Hx. apply in_map_iff in Hx as [y [<- Hy]].
      apply pre_slug_lower. now apply H3.
    + cbn [map hd]. rewrite lower_hyphen; [exact Hh|]. apply Ha3. now left.
    + rewrite last_map_ne by discriminate.
      rewrite lower_hyphen; [exact Hl|]. apply Ha3.
      destruct (@exists_last _ (c :: r)) as [q [z Hq]]; [discriminate|].
      rewrite Hq, last_last. apply in_or_app. right. now left.
    + apply (no_double_map ascii_lower (ch "-")); [|exact Hd3].
      intros x Hx Hf. pose proof (lower_hyphen x (Ha3 x Hx)) as Hlh.
      unfold is_hyphen, is_chr in Hlh. rewrite Hf, chr_eqb_refl in Hlh.
      symmetry in Hlh. now apply chr_eqb_eq in Hlh.
Qed.

Lemma slug_fixed r : slug_shape r -> generate_id U r = r.
Proof.
  intros [Hne [Hc [Hh [Hl Hd]]]]. rewrite generate_id_unfold.
  assert (H1 : flat_map (fun x => if not_word_or_cjk U x then lit "-" else [x]) r = r).
  { clear - Hc. induction r as [|x r IH]; [reflexivity|].
    cbn [forallb] in Hc. apply andb_true_iff in Hc as [Hx Hc].
    cbn [flat_map].
    exact (f_equal2 (@app char) (slug_dash_id x Hx) (IH Hc)). }
  rewrite H1.
  change (squeeze is_hyphen (lit "-") false r)
    with (squeeze (is_chr (ch "-")) [ch "-"] false r).
  rewrite squeeze_id; [|exact Hd|discriminate].
  rewrite strip_with_id; [|exact Hne|exact Hh|exact Hl].
  destruct r as [|c r]; [congruence|].
  assert (Ha : forallb is_ascii (c :: r) = true).
  { apply forallb_forall. intros x Hx. rewrite forallb_forall in Hc.
    apply slug_char_ascii. now apply Hc. }
  rewrite lower_ascii by exact Ha.
  clear - Hc. induction (c :: r) as [|x s IH]; [reflexivity|].
  cbn [forallb] in Hc. apply andb_true_iff in Hc as [Hx Hc].
  cbn [map]. now rewrite (slug_lower_id x Hx), (IH Hc).
Qed.

Lemma startswith_chr d s :
  startswith [d] s = match s with [] => false | c :: _ => chr_eqb d c end.
Proof. destruct s as [|c s]; [reflexivity|]. cbn [startswith]. apply andb_true_r. Qed.

(** X6. The slug of an ASCII text is not empty, is made of small letters,
    digits, underscores and hyphens, neither starts nor ends with a hyphen
    and holds no two hyphens in a row. *)
Theorem generate_id_slug text :
  forallb is_ascii text = true ->
  generate_id U text <> [] /\
  forallb slug_char (generate_id U text) = true /\
  startswith (lit "-") (generate_id U text) = false /\
  endswith (lit "-") (generate_id U text) = false /\
  contains (lit "--") (generate_id U text) = false.
Proof.
  intro Ha. destruct (generate_id_shape text Ha) as [Hne [Hc [Hh [Hl Hd]]]].
  split; [exact Hne|]. split; [exact Hc|].
  destruct (@exists_last _ (generate_id U text) Hne) as [q [z Hq]].
  rewrite Hq in *. rewrite last_last in Hl.
  change (lit "-") with [ch "-"]. unfold endswith.
  rewrite rev_app_distr. cbn [rev app]. rewrite !startswith_chr.
  unfold is_hyphen, is_chr in Hh, Hl. rewrite chr_eqb_sym in Hh, Hl.
  split; [|split].
  - destruct q as [|c q]; exact Hh.
  - exact Hl.
  - now apply contains_false_occurs.
Qed.

(** X7. The slug of a slug is the slug itself (ASCII texts). *)
Theorem generate_id_idempotent text :
  forallb is_ascii text = true ->
  generate_id U (generate_id U text) = generate_id U text.
Proof. intro Ha. apply slug_fixed. now apply generate_id_shape. Qed.

End SlugFacts.

(** ** The inline formatter on texts with at most one span *)

Lemma scan_none (St : Type) (find : St -> str -> option (str * nat * St)) st : forall s,
  (forall s1 s2, s = s1 ++ s2 -> find st s2 = None) -> scan find st s = (s, st).
Proof.
  induction s as [|c s IH]; intro H; [reflexivity|].
  rewrite scan_miss by (apply (H []); reflexivity).
  rewrite IH; [reflexivity|].
  intros s1 s2 Hs. apply (H (c :: s1)). now rewrite Hs.
Qed.

Lemma find_re_none (St : Type) r (repl : St -> caps -> str * St) st s :
  re_match r s = None -> find_re r repl st s = None.
Proof. unfold find_re. now intros ->. Qed.

Lemma re_sub_none r tpl s :
  (forall s1 s2, s = s1 ++ s2 -> re_match r s2 = None) -> re_sub r tpl s = s.
Proof.
  intro H. rewrite re_sub_unfold, scan_none; [reflexivity|].
  intros s1 s2 Hs. apply find_re_none. now apply (H s1).
Qed.

(** A pattern whose matches all hold [k] finds nothing in a text without
    [k]. *)
Lemma no_match_occurs r k s :
  (forall m cs, Matches r m [] cs -> occurs k m) -> ~ occurs k s ->
  forall s1 s2, s = s1 ++ s2 -> re_match r s2 = None.
Proof.
  intros Hk Hs s1 s2 Heq.
  destruct (re_match r s2) as [[[m rest] cs]|] eqn:E; [|reflexivity].
  exfalso. apply re_match_sound in E as [-> Hm].
  apply Hs. destruct (Hk m cs Hm) as [u [v ->]].
  exists (s1 ++ u), (v ++ rest). rewrite Heq. now rewrite <- !app_assoc.
Qed.

Lemma no_match_start r D c s :
  (forall m cs, Matches r m [] cs -> exists d m', m = d :: m' /\ D d = true) ->
  D c = false -> re_match r (c :: s) = None.
Proof.
  intros Hstart Hc.
  destruct (re_match r (c :: s)) as [[[m rest] cs]|] eqn:E; [|reflexivity].
  exfalso. apply re_match_sound in E as [Hs Hm].
  destruct (Hstart m cs Hm) as [d [m' [-> Hd]]].
  simpl in Hs. injection Hs as -> _. congruence.
Qed.

(** The match the matcher returns is the only text the pattern can match at
    that place. *)
Lemma re_match_unique r m post cs :
  Matches r m [] cs ->
  (forall m' rest' cs', Matches r m' [] cs' -> m ++ post = m' ++ rest' ->
     m' = m /\ cs' = cs) ->
  re_match r (m ++ post) = Some (m, post, cs).
Proof.
  intros Hm Huniq.
  destruct (re_match r (m ++ post)) as [[[m' rest'] cs']|] eqn:E.
  - apply re_match_sound in E as [Hs Hm'].
    destruct (Huniq m' rest' cs' Hm' Hs) as [-> ->].
    apply app_inv_head in Hs. now subst.
  - exfalso. exact (re_match_complete r m post cs Hm E).
Qed.

Lemma skipn_length_app (m post : str) : skipn (length m) (m ++ post) = post.
Proof. now rewrite skipn_app, skipn_all, Nat.sub_diag. Qed.

(** One match in a text, nothing before it and nothing after it. *)
Lemma re_sub_single r tpl pre m post cs :
  (forall p1 p2, pre = p1 ++ p2 -> p2 <> [] -> re_match r (p2 ++ m ++ post) = None) ->
  re_match r (m ++ post) = Some (m, post, cs) -> m <> [] ->
  (forall s1 s2, post = s1 ++ s2 -> re_match r s2 = None) ->
  re_sub r tpl (pre ++ m ++ post) = pre ++ expand tpl cs ++ post.
Proof.
  intros Hpre Hm Hne Hpost. rewrite re_sub_unfold, scan_pass.
  - cbn [fst]. f_equal. destruct m as [|c m]; [congruence|].
    rewrite (scan_hit _ _ tt _ (expand tpl cs) (length m) tt).
    + cbn [fst]. f_equal.
      change (S (length m)) with (length (c :: m)). rewrite skipn_length_app.
      rewrite scan_none; [reflexivity|].
      intros s1 s2 Hs. apply find_re_none. now apply (Hpost s1).
    + unfold find_re. now rewrite Hm.
    + rewrite length_app. simpl. lia.
  - intros p1 p2 rep n st' Hs Hp2 Hf.
    rewrite (find_re_none _ _ _ _ _ (Hpre p1 p2 Hs Hp2)) in Hf. discriminate Hf.
Qed.

Lemma avoids_no_occ D d s : avoids D s -> D d = true -> ~ occurs [d] s.
Proof.
  intros Hs Hd [u [v ->]]. apply avoids_app in Hs as [_ Hs].
  apply avoids_cons in Hs as [Hs _]. congruence.
Qed.

Lemma avoids_weaken (D D' : char -> bool) s :
  (forall c, D' c = true -> D c = true) -> avoids D s -> avoids D' s.
Proof.
  intros HD Hs. unfold avoids in *. rewrite forallb_forall in *.
  intros c Hc. specialize (Hs c Hc). apply negb_true_iff in Hs. apply negb_true_iff.
  destruct (D' c) eqn:E; [|reflexivity]. rewrite (HD c E) in Hs. discriminate.
Qed.

Lemma occurs_narrow k k' s : occurs k' k -> ~ occurs k' s -> ~ occurs k s.
Proof. intros Hk Hs Ho. apply Hs. exact (occurs_trans _ _ _ Hk Ho). Qed.

(** Where each pattern starts. *)
Lemma math_holds m cs : Matches math_pattern m [] cs -> occurs [ch "$"] m.
Proof. intro H. apply math_shape in H as [g [-> _]]. now exists [], (g ++ [ch "$"]). Qed.

Lemma bold_holds m cs : Matches bold_pattern m [] cs -> occurs [ch "*"; ch "*"] m.
Proof.
  intro H. apply bold_shape in H as [g [-> _]]. now exists [], (g ++ [ch "*"; ch "*"]).
Qed.

Lemma italic_holds m cs : Matches italic_pattern m [] cs -> occurs [ch "*"] m.
Proof. intro H. apply italic_shape in H as [g [-> _]]. now exists [], (g ++ [ch "*"]). Qed.

Lemma code_holds m cs : Matches code_pattern m [] cs -> occurs [ch "`"] m.
Proof. intro H. apply code_shape in H as [g [-> _]]. now exists [], (g ++ [ch "`"]). Qed.

Lemma link_holds m cs : Matches link_pattern m [] cs -> occurs [ch "["] m.
Proof.
  intro H. apply link_shape in H as [g1 [g2 [-> _]]].
  now exists [], (g1 ++ ch "]" :: ch "(" :: g2 ++ [ch ")"]).
Qed.

Lemma image_holds m cs : Matches image_pattern m [] cs -> occurs [ch "!"; ch "["] m.
Proof.
  intro H. apply image_shape in H as [g1 [g2 [-> _]]].
  now exists [], (g1 ++ ch "]" :: ch "(" :: g2 ++ [ch ")"]).
Qed.

Lemma special_dollar s : avoids inline_special s -> ~ occurs [ch "$"] s.
Proof. intro H. apply (avoids_no_occ inline_special); [exact H|reflexivity]. Qed.

Lemma special_star s : avoids inline_special s -> ~ occurs [ch "*"] s.
Proof. intro H. apply (avoids_no_occ inline_special); [exact H|reflexivity]. Qed.

Lemma special_backtick s : avoids inline_special s -> ~ occurs [ch "`"] s.
Proof. intro H. apply (avoids_no_occ inline_special); [exact H|reflexivity]. Qed.

Lemma special_bracket s : avoids inline_special s -> ~ occurs [ch "["] s.
Proof. intro H. apply (avoids_no_occ inline_special); [exact H|reflexivity]. Qed.

(** The protection pass on a text without a dollar. *)
Lemma protect_none s :
  ~ occurs [ch "$"] s ->
  re_sub_with math_pattern protect_math math_state0 s = (s, math_state0).
Proof.
  intro H. unfold re_sub_with. apply scan_none.
  intros s1 s2 Hs. apply find_re_none.
  exact (no_match_occurs math_pattern [ch "$"] s math_holds H s1 s2 Hs).
Qed.

Lemma bold_none s :
  ~ occurs [ch "*"; ch "*"] s -> re_sub bold_pattern bold_template s = s.
Proof. intro H. apply re_sub_none. exact (no_match_occurs _ _ s bold_holds H). Qed.

Lemma italic_none s :
  ~ occurs [ch "*"] s -> re_sub italic_pattern italic_template s = s.
Proof. intro H. apply re_sub_none. exact (no_match_occurs _ _ s italic_holds H). Qed.

Lemma code_none s : ~ occurs [ch "`"] s -> code_rewrite s = s.
Proof. intro H. apply re_sub_none. exact (no_match_occurs _ _ s code_holds H). Qed.

Lemma image_none s :
  ~ occurs [ch "!"; ch "["] s -> re_sub image_pattern image_template s = s.
Proof. intro H. apply re_sub_none. exact (no_match_occurs _ _ s image_holds H). Qed.

Lemma link_none s :
  ~ occurs [ch "["] s -> re_sub link_pattern link_template s = s.
Proof. intro H. apply re_sub_none. exact (no_match_occurs _ _ s link_holds H). Qed.

Lemma star_star s : ~ occurs [ch "*"] s -> ~ occurs [ch "*"; ch "*"] s.
Proof. apply occurs_narrow. now exists [], [ch "*"]. Qed.

Lemma bang_bracket s : ~ occurs [ch "["] s -> ~ occurs [ch "!"; ch "["] s.
Proof. apply occurs_narrow. now exists [ch "!"], []. Qed.

Lemma inline_plain_id text :
  avoids inline_special text -> process_inline_formatting text = text.
Proof.
  intro H. unfold process_inline_formatting, before_code.
  rewrite (protect_none text (special_dollar text H)).
  rewrite (bold_none text (star_star text (special_star text H))).
  rewrite (italic_none text (special_star text H)).
  rewrite (code_none text (special_backtick text H)).
  unfold after_code.
  rewrite (image_none text (bang_bracket text (special_bracket text H))).
  rewrite (link_none text (special_bracket text H)).
  reflexivity.
Qed.

(** X8. A text that holds no dollar, star, backtick or opening bracket is
    returned as it is: nothing is rewritten and nothing is escaped. *)
Theorem inline_plain text :
  avoids inline_special text -> process_inline_formatting text = text.
Proof. apply inline_plain_id. Qed.

(** *** One bold, italic, link or image span in a plain text *)

Lemma special_is_star s : avoids inline_special s -> avoids is_star s.
Proof.
  apply avoids_weaken. intros c Hc. unfold is_star, is_chr in Hc.
  unfold inline_special. rewrite Hc. now rewrite !orb_true_r.
Qed.

Lemma special_is_bracket s : avoids inline_special s -> avoids (is_chr (ch "[")) s.
Proof.
  apply avoids_weaken. intros c Hc. unfold is_chr in Hc.
  unfold inline_special. rewrite Hc. now rewrite !orb_true_r.
Qed.

Lemma no_double_prefix d (D : char -> bool) p s :
  D d = true -> avoids D p -> ~ occurs [d; d] s -> ~ occurs [d; d] (p ++ s).
Proof.
  intros Hd Hp Hs. induction p as [|c p IH]; [exact Hs|].
  apply avoids_cons in Hp as [Hc Hp]. cbn [app].
  apply no_double_cons; [now apply IH|]. left. intros ->. congruence.
Qed.

(** A delimiter that occurs once is found at one place only. *)
Lemma single_delimiter (D : char -> bool) d : forall pre a rest b,
  D d = true -> avoids D pre -> avoids D rest ->
  a ++ d :: b = pre ++ d :: rest -> a = pre /\ b = rest.
Proof.
  induction pre as [|c pre IH]; intros a rest b Hd Hpre Hrest H.
  - destruct a as [|x a]; [simpl in H; injection H as ->; now split|].
    exfalso. simpl in H. injection H as _ H.
    apply (avoids_no_occ D d rest Hrest Hd). exists a, b. now rewrite <- H.
  - apply avoids_cons in Hpre as [Hc Hpre]. destruct a as [|x a].
    + simpl in H. injection H as <- _. congruence.
    + simpl in H. injection H as -> H.
      destruct (IH a rest b Hd Hpre Hrest H) as [-> ->]. now split.
Qed.

Lemma bold_matches x c :
  avoids is_star (x :: c) ->
  Matches bold_pattern (ch "*" :: ch "*" :: (x :: c) ++ [ch "*"; ch "*"]) [] [(1, x :: c)].
Proof.
  intro Hc. unfold bold_pattern.
  change (ch "*" :: ch "*" :: (x :: c) ++ [ch "*"; ch "*"])
    with ([ch "*"] ++ [ch "*"] ++ (x :: c) ++ [ch "*"] ++ [ch "*"]).
  apply M_Seq with (cs1 := []); [constructor|].
  apply M_Seq with (cs1 := []); [constructor|].
  apply M_Seq with (cs1 := [(1, x :: c)]).
  - apply M_Grp. apply avoids_not_chr in Hc. cbn [forallb] in Hc.
    apply andb_true_iff in Hc as [Hx Hc]. now constructor.
  - apply M_Seq with (cs1 := [(1, x :: c)]); constructor.
Qed.

Lemma italic_matches x c :
  avoids is_star (x :: c) ->
  Matches italic_pattern (ch "*" :: (x :: c) ++ [ch "*"]) [] [(1, x :: c)].
Proof.
  intro Hc. unfold italic_pattern.
  change (ch "*" :: (x :: c) ++ [ch "*"]) with ([ch "*"] ++ (x :: c) ++ [ch "*"]).
  apply M_Seq with (cs1 := []); [constructor|].
  apply M_Seq with (cs1 := [(1, x :: c)]); [|constructor].
  apply M_Grp. apply avoids_not_chr in Hc. cbn [forallb] in Hc.
  apply andb_true_iff in Hc as [Hx Hc]. now constructor.
Qed.

Lemma bold_match b post :
  b <> [] -> avoids is_star b ->
  re_match bold_pattern ((ch "*" :: ch "*" :: b ++ [ch "*"; ch "*"]) ++ post) =
    Some (ch "*" :: ch "*" :: b ++ [ch "*"; ch "*"], post, [(1, b)]).
Proof.
  intros Hne Hb. apply re_match_unique.
  - destruct b as [|x c]; [congruence|]. now apply bold_matches.
  - intros m' rest' cs' Hm' Hs.
    apply bold_shape in Hm' as [g [-> [_ [Hg ->]]]].
    cbn [app] in Hs. injection Hs as Hs. rewrite <- !app_assoc in Hs. cbn [app] in Hs.
    destruct (unique_run is_star (ch "*") _ _ _ _ Hb Hg eq_refl Hs) as [-> _].
    now split.
Qed.

Lemma italic_match b post :
  b <> [] -> avoids is_star b ->
  re_match italic_pattern ((ch "*" :: b ++ [ch "*"]) ++ post) =
    Some (ch "*" :: b ++ [ch "*"], post, [(1, b)]).
Proof.
  intros Hne Hb. apply re_match_unique.
  - destruct b as [|x c]; [congruence|]. now apply italic_matches.
  - intros m' rest' cs' Hm' Hs.
    apply italic_shape in Hm' as [g [-> [_ [Hg ->]]]].
    cbn [app] in Hs. injection Hs as Hs. rewrite <- !app_assoc in Hs. cbn [app] in Hs.
    destruct (unique_run is_star (ch "*") _ _ _ _ Hb Hg eq_refl Hs) as [-> _].
    now split.
Qed.

Lemma bold_starts m cs :
  Matches bold_pattern m [] cs -> exists d m', m = d :: m' /\ is_star d = true.
Proof. intro H. apply bold_shape in H as [g [-> _]]. now eexists _, _. Qed.

Lemma italic_starts m cs :
  Matches italic_pattern m [] cs -> exists d m', m = d :: m' /\ is_star d = true.
Proof. intro H. apply italic_shape in H as [g [-> _]]. now eexists _, _. Qed.

Lemma link_starts m cs :
  Matches link_pattern m [] cs -> exists d m', m = d :: m' /\ is_chr (ch "[") d = true.
Proof. intro H. apply link_shape in H as [g1 [g2 [-> _]]]. now eexists _, _. Qed.

Lemma no_start_in (r : re) (D : char -> bool) pre v :
  (forall m cs, Matches r m [] cs -> exists d m', m = d :: m' /\ D d = true) ->
  avoids D pre ->
  forall p1 p2, pre = p1 ++ p2 -> p2 <> [] -> re_match r (p2 ++ v) = None.
Proof.
  intros Hstart Hpre p1 p2 Hs Hne. destruct p2 as [|c p2]; [congruence|].
  cbn [app]. apply (no_match_start r D); [exact Hstart|].
  exact (avoids_head D pre p1 c p2 Hpre Hs).
Qed.

Lemma special_is_dollar s : avoids inline_special s -> avoids is_dollar s.
Proof.
  apply avoids_weaken. intros c Hc. unfold is_dollar, is_chr in Hc.
  unfold inline_special. now rewrite Hc.
Qed.

Lemma special_is_backtick s : avoids inline_special s -> avoids is_backtick s.
Proof.
  apply avoids_weaken. intros c Hc. unfold is_backtick, is_chr in Hc.
  unfold inline_special. rewrite Hc. now rewrite !orb_true_r.
Qed.

Ltac plain_parts :=
  rewrite ?avoids_app, ?avoids_cons; repeat split;
  try reflexivity; try assumption;
  try (apply special_is_dollar; assumption);
  try (apply special_is_star; assumption);
  try (apply special_is_backtick; assumption);
  try (apply special_is_bracket; assumption).

(** X9. Two stars, a text and two stars in a plain text: the text is set in
    [<strong>]. *)
Theorem inline_bold pre b post :
  avoids inline_special pre -> avoids inline_special b -> b <> [] ->
  avoids inline_special post ->
  process_inline_formatting (pre ++ lit "**" ++ b ++ lit "**" ++ post) =
    pre ++ lit "<strong>" ++ b ++ lit "</strong>" ++ post.
Proof.
  intros Hpre Hb Hne Hpost.
  assert (Hout : avoids inline_special
                   (pre ++ lit "<strong>" ++ b ++ lit "</strong>" ++ post))
    by plain_parts.
  unfold process_inline_formatting, before_code.
  rewrite protect_none.
  2:{ apply (avoids_no_occ is_dollar); [plain_parts|reflexivity]. }
  assert (Hbold : re_sub bold_pattern bold_template
                    (pre ++ lit "**" ++ b ++ lit "**" ++ post) =
                  pre ++ lit "<strong>" ++ b ++ lit "</strong>" ++ post).
  { change (pre ++ lit "**" ++ b ++ lit "**" ++ post)
      with (pre ++ ch "*" :: ch "*" :: b ++ [ch "*"; ch "*"] ++ post).
    rewrite (app_assoc b), app_comm_cons, app_comm_cons.
    rewrite (re_sub_single bold_pattern bold_template pre _ post [(1, b)]).
    - cbn [bold_template expand flat_map group find fst snd Nat.eqb].
      now rewrite app_nil_r, <- !app_assoc.
    - apply (no_start_in _ is_star); [exact bold_starts|now apply special_is_star].
    - apply bold_match; [exact Hne|now apply special_is_star].
    - discriminate.
    - apply (no_match_occurs _ _ post bold_holds).
      now apply star_star, special_star. }
  rewrite Hbold.
  rewrite (italic_none _ (special_star _ Hout)).
  rewrite (code_none _ (special_backtick _ Hout)).
  unfold after_code.
  rewrite (image_none _ (bang_bracket _ (special_bracket _ Hout))).
  rewrite (link_none _ (special_bracket _ Hout)).
  reflexivity.
Qed.

(** X10. A star, a text and a star in a plain text: the text is set in [<em>]. *)
Theorem inline_italic pre b post :
  avoids inline_special pre -> avoids inline_special b -> b <> [] ->
  avoids inline_special post ->
  process_inline_formatting (pre ++ lit "*" ++ b ++ lit "*" ++ post) =
    pre ++ lit "<em>" ++ b ++ lit "</em>" ++ post.
Proof.
  intros Hpre Hb Hne Hpost.
  assert (Hout : avoids inline_special (pre ++ lit "<em>" ++ b ++ lit "</em>" ++ post))
    by plain_parts.
  unfold process_inline_formatting, before_code.
  rewrite protect_none.
  2:{ apply (avoids_no_occ is_dollar); [plain_parts|reflexivity]. }
  rewrite bold_none.
  2:{ apply (no_double_prefix _ is_star); [reflexivity|now apply special_is_star|].
      cbn [lit app]. simpl. apply no_double_cons.
      - apply (no_double_prefix _ is_star); [reflexivity|now apply special_is_star|].
        apply no_double_cons; [now apply star_star, special_star|]. right.
        destruct post as [|c post]; [exact I|].
        apply special_is_star, avoids_cons in Hpost as [Hc _].
        intros ->. discriminate Hc.
      - right. destruct b as [|c b]; [congruence|]. cbn [app].
        apply special_is_star, avoids_cons in Hb as [Hc _].
        intros ->. discriminate Hc. }
  assert (Hital : re_sub italic_pattern italic_template
                    (pre ++ lit "*" ++ b ++ lit "*" ++ post) =
                  pre ++ lit "<em>" ++ b ++ lit "</em>" ++ post).
  { change (pre ++ lit "*" ++ b ++ lit "*" ++ post)
      with (pre ++ ch "*" :: b ++ [ch "*"] ++ post).
    rewrite (app_assoc b), app_comm_cons.
    rewrite (re_sub_single italic_pattern italic_template pre _ post [(1, b)]).
    - cbn [italic_template expand flat_map group find fst snd Nat.eqb].
      now rewrite app_nil_r, <- !app_assoc.
    - apply (no_start_in _ is_star); [exact italic_starts|now apply special_is_star].
    - apply italic_match; [exact Hne|now apply special_is_star].
    - discriminate.
    - apply (no_match_occurs _ _ post italic_holds). now apply special_star. }
  rewrite Hital.
  rewrite (code_none _ (special_backtick _ Hout)).
  unfold after_code.
  rewrite (image_none _ (bang_bracket _ (special_bracket _ Hout))).
  rewrite (link_none _ (special_bracket _ Hout)).
  reflexivity.
Qed.

Lemma link_shape_runs m cs :
  Matches link_pattern m [] cs ->
  exists g1 g2, m = ch "[" :: g1 ++ ch "]" :: ch "(" :: g2 ++ [ch ")"] /\
                cs = [(2, g2); (1, g1)] /\
                avoids (is_chr (ch "]")) g1 /\ avoids (is_chr (ch ")")) g2.
Proof.
  unfold link_pattern. intro H. inv_matches.
  eexists _, _. split; [reflexivity|]. split; [reflexivity|]. split; run_avoids.
Qed.

Lemma image_shape_runs m cs :
  Matches image_pattern m [] cs ->
  exists g1 g2, m = ch "!" :: ch "[" :: g1 ++ ch "]" :: ch "(" :: g2 ++ [ch ")"] /\
                cs = [(2, g2); (1, g1)] /\
                avoids (is_chr (ch "]")) g1 /\ avoids (is_chr (ch ")")) g2.
Proof.
  unfold image_pattern. intro H. inv_matches.
  eexists _, _. split; [reflexivity|]. split; [reflexivity|]. split; run_avoids.
Qed.

Lemma link_matches t x u :
  t <> [] -> avoids (is_chr (ch "]")) t -> avoids (is_chr (ch ")")) (x :: u) ->
  Matches link_pattern (ch "[" :: t ++ ch "]" :: ch "(" :: (x :: u) ++ [ch ")"]) []
          [(2, x :: u); (1, t)].
Proof.
  intros Hne Ht Hu. unfold link_pattern. destruct t as [|y t]; [congruence|].
  change (ch "[" :: (y :: t) ++ ch "]" :: ch "(" :: (x :: u) ++ [ch ")"])
    with ([ch "["] ++ (y :: t) ++ [ch "]"] ++ [ch "("] ++ (x :: u) ++ [ch ")"]).
  apply M_Seq with (cs1 := []); [constructor|].
  apply M_Seq with (cs1 := [(1, y :: t)]).
  { apply M_Grp. apply avoids_not_chr in Ht. cbn [forallb] in Ht.
    apply andb_true_iff in Ht as [Hy Ht]. now constructor. }
  apply M_Seq with (cs1 := [(1, y :: t)]); [constructor|].
  apply M_Seq with (cs1 := [(1, y :: t)]); [constructor|].
  apply M_Seq with (cs1 := [(2, x :: u); (1, y :: t)]); [|constructor].
  apply M_Grp. apply avoids_not_chr in Hu. cbn [forallb] in Hu.
  apply andb_true_iff in Hu as [Hx Hu]. now constructor.
Qed.

Lemma image_matches t x u :
  avoids (is_chr (ch "]")) t -> avoids (is_chr (ch ")")) (x :: u) ->
  Matches image_pattern
          (ch "!" :: ch "[" :: t ++ ch "]" :: ch "(" :: (x :: u) ++ [ch ")"]) []
          [(2, x :: u); (1, t)].
Proof.
  intros Ht Hu. unfold image_pattern.
  change (ch "!" :: ch "[" :: t ++ ch "]" :: ch "(" :: (x :: u) ++ [ch ")"])
    with ([ch "!"] ++ [ch "["] ++ t ++ [ch "]"] ++ [ch "("] ++ (x :: u) ++ [ch ")"]).
  apply M_Seq with (cs1 := []); [constructor|].
  apply M_Seq with (cs1 := []); [constructor|].
  apply M_Seq with (cs1 := [(1, t)]).
  { apply M_Grp. apply M_Star. now apply avoids_not_chr. }
  apply M_Seq with (cs1 := [(1, t)]); [constructor|].
  apply M_Seq with (cs1 := [(1, t)]); [constructor|].
  apply M_Seq with (cs1 := [(2, x :: u); (1, t)]); [|constructor].
  apply M_Grp. apply avoids_not_chr in Hu. cbn [forallb] in Hu.
  apply andb_true_iff in Hu as [Hx Hu]. now constructor.
Qed.

Lemma link_match t u post :
  t <> [] -> avoids (is_chr (ch "]")) t -> u <> [] -> avoids (is_chr (ch ")")) u ->
  re_match link_pattern ((ch "[" :: t ++ ch "]" :: ch "(" :: u ++ [ch ")"]) ++ post) =
    Some (ch "[" :: t ++ ch "]" :: ch "(" :: u ++ [ch ")"], post, [(2, u); (1, t)]).
Proof.
  intros Hne Ht Hnu Hu. apply re_match_unique.
  - destruct u as [|x u]; [congruence|]. now apply link_matches.
  - intros m' rest' cs' Hm' Hs.
    apply link_shape_runs in Hm' as [g1 [g2 [-> [-> [Hg1 Hg2]]]]].
    cbn [app] in Hs. injection Hs as Hs. rewrite <- !app_assoc in Hs. cbn [app] in Hs.
    destruct (unique_run (is_chr (ch "]")) (ch "]") _ _ _ _ Ht Hg1 eq_refl Hs) as [<- Hs'].
    injection Hs' as Hs'. rewrite <- !app_assoc in Hs'. cbn [app] in Hs'.
    destruct (unique_run (is_chr (ch ")")) (ch ")") _ _ _ _ Hu Hg2 eq_refl Hs') as [<- _].
    now split.
Qed.

Lemma image_match t u post :
  avoids (is_chr (ch "]")) t -> u <> [] -> avoids (is_chr (ch ")")) u ->
  re_match image_pattern
    ((ch "!" :: ch "[" :: t ++ ch "]" :: ch "(" :: u ++ [ch ")"]) ++ post) =
    Some (ch "!" :: ch "[" :: t ++ ch "]" :: ch "(" :: u ++ [ch ")"], post,
          [(2, u); (1, t)]).
Proof.
  intros Ht Hnu Hu. apply re_match_unique.
  - destruct u as [|x u]; [congruence|]. now apply image_matches.
  - intros m' rest' cs' Hm' Hs.
    apply image_shape_runs in Hm' as [g1 [g2 [-> [-> [Hg1 Hg2]]]]].
    cbn [app] in Hs. injection Hs as Hs. rewrite <- !app_assoc in Hs. cbn [app] in Hs.
    destruct (unique_run (is_chr (ch "]")) (ch "]") _ _ _ _ Ht Hg1 eq_refl Hs) as [<- Hs'].
    injection Hs' as Hs'. rewrite <- !app_assoc in Hs'. cbn [app] in Hs'.
    destruct (unique_run (is_chr (ch ")")) (ch ")") _ _ _ _ Hu Hg2 eq_refl Hs') as [<- _].
    now split.
Qed.

(** X11. A link in a plain text becomes an anchor. *)
Theorem inline_link pre t u post :
  avoids inline_special pre -> avoids inline_special t ->
  avoids inline_special u -> avoids inline_special post ->
  t <> [] -> avoids (is_chr (ch "]")) t ->
  u <> [] -> avoids (is_chr (ch ")")) u ->
  last pre 0%N <> ch "!" ->
  process_inline_formatting (pre ++ lit "[" ++ t ++ lit "](" ++ u ++ lit ")" ++ post) =
    pre ++ lit "<a href=" ++ dq ++ u ++ dq ++ lit ">" ++ t ++ lit "</a>" ++ post.
Proof.
  intros Hpre Ht Hu Hpost Hnt Htb Hnu Hup Hlast.
  unfold process_inline_formatting, before_code.
  rewrite protect_none.
  2:{ apply (avoids_no_occ is_dollar); [plain_parts|reflexivity]. }
  rewrite bold_none.
  2:{ apply star_star. apply (avoids_no_occ is_star); [plain_parts|reflexivity]. }
  rewrite italic_none.
  2:{ apply (avoids_no_occ is_star); [plain_parts|reflexivity]. }
  rewrite code_none.
  2:{ apply (avoids_no_occ is_backtick); [plain_parts|reflexivity]. }
  unfold after_code.
  rewrite image_none.
  2:{ intros [a [v H]].
      change (a ++ [ch "!"; ch "["] ++ v) with (a ++ ch "!" :: ch "[" :: v) in H.
      change (pre ++ lit "[" ++ t ++ lit "](" ++ u ++ lit ")" ++ post)
        with (pre ++ ch "[" :: t ++ lit "](" ++ u ++ lit ")" ++ post) in H.
      assert (H' : (a ++ [ch "!"]) ++ ch "[" :: v =
                   pre ++ ch "[" :: t ++ lit "](" ++ u ++ lit ")" ++ post)
        by (now rewrite <- app_assoc).
      apply (single_delimiter (is_chr (ch "[")) (ch "[")) in H' as [Ha _];
        [|reflexivity|now apply special_is_bracket|plain_parts].
      apply Hlast. rewrite <- Ha. apply last_last. }
  replace (pre ++ lit "[" ++ t ++ lit "](" ++ u ++ lit ")" ++ post)
    with (pre ++ (ch "[" :: t ++ ch "]" :: ch "(" :: u ++ [ch ")"]) ++ post)
    by (cbn [lit app]; simpl; rewrite <- ?app_assoc; cbn [app];
        rewrite <- ?app_assoc; reflexivity).
  rewrite (re_sub_single link_pattern link_template pre _ post [(2, u); (1, t)]).
  - cbn [link_template expand flat_map group find fst snd Nat.eqb restore_math fold_left].
    unfold dq. now rewrite app_nil_r, <- !app_assoc.
  - apply (no_start_in _ (is_chr (ch "["))); [exact link_starts|].
    now apply special_is_bracket.
  - now apply link_match.
  - discriminate.
  - apply (no_match_occurs _ _ post link_holds). now apply special_bracket.
Qed.

(** X12. An image in a plain text becomes an image tag. *)
Theorem inline_image pre alt url post :
  avoids inline_special pre -> avoids inline_special alt ->
  avoids inline_special url -> avoids inline_special post ->
  avoids (is_chr (ch "]")) alt ->
  url <> [] -> avoids (is_chr (ch ")")) url ->
  process_inline_formatting
    (pre ++ lit "![" ++ alt ++ lit "](" ++ url ++ lit ")" ++ post) =
    pre ++ lit "<img src=" ++ dq ++ url ++ dq ++ lit " alt=" ++ dq ++ alt ++ dq
    ++ lit " style=" ++ dq
    ++ lit "max-width: 100%; height: auto; display: block; margin: 20px auto; border: 1px solid #ddd; border-radius: 5px; box-shadow: 0 2px 8px rgba(0,0,0,0.1);"
    ++ dq ++ lit " />" ++ post.
Proof.
  intros Hpre Ha Hu Hpost Hab Hnu Hup.
  unfold process_inline_formatting, before_code.
  rewrite protect_none.
  2:{ apply (avoids_no_occ is_dollar); [plain_parts|reflexivity]. }
  rewrite bold_none.
  2:{ apply star_star. apply (avoids_no_occ is_star); [plain_parts|reflexivity]. }
  rewrite italic_none.
  2:{ apply (avoids_no_occ is_star); [plain_parts|reflexivity]. }
  rewrite code_none.
  2:{ apply (avoids_no_occ is_backtick); [plain_parts|reflexivity]. }
  unfold after_code.
  assert (Himg : re_sub image_pattern image_template
                   (pre ++ lit "![" ++ alt ++ lit "](" ++ url ++ lit ")" ++ post) =
                 pre ++ expand image_template [(2, url); (1, alt)] ++ post).
  { replace (pre ++ lit "![" ++ alt ++ lit "](" ++ url ++ lit ")" ++ post)
      with (pre ++ (ch "!" :: ch "[" :: alt ++ ch "]" :: ch "(" :: url ++ [ch ")"])
                ++ post)
      by (cbn [lit app]; simpl; rewrite <- ?app_assoc; cbn [app];
          rewrite <- ?app_assoc; reflexivity).
    apply re_sub_single.
    - intros p1 p2 Hs Hne.
      destruct (re_match image_pattern _) as [[[m rest] cs]|] eqn:E; [|reflexivity].
      exfalso. apply re_match_sound in E as [Heq Hm].
      apply image_shape in Hm as [g1 [g2 [-> _]]].
      destruct p2 as [|c [|c2 p2]]; [congruence| |].
      + cbn [app] in Heq. discriminate Heq.
      + cbn [app] in Heq. injection Heq as _ -> _.
        apply special_is_bracket in Hpre. rewrite Hs in Hpre.
        apply avoids_app in Hpre as [_ Hpre].
        apply avoids_cons in Hpre as [_ Hpre].
        apply avoids_cons in Hpre as [Hc _]. discriminate Hc.
    - now apply image_match.
    - discriminate.
    - apply (no_match_occurs _ _ post image_holds).
      now apply bang_bracket, special_bracket. }
  rewrite Himg.
  rewrite link_none.
  - cbn [image_template expand flat_map group find fst snd Nat.eqb restore_math fold_left].
    unfold dq. now rewrite app_nil_r, <- !app_assoc.
  - apply (avoids_no_occ (is_chr (ch "["))); [|reflexivity].
    cbn [image_template expand flat_map group find fst snd Nat.eqb].
    plain_parts.
Qed.

(** ** Blocks *)


Section BlockFacts.
Variable U : unicode_db.

Lemma code_lines_until : forall body rest fuel st,
  in_code_block st = true -> forallb no_fence body = true ->
  convert_loop U (length body + fuel) st (body ++ rest) =
  convert_loop U fuel (append_html st (map escape_html body)) rest.
Proof.
  induction body as [|l body IH]; intros rest fuel st Hc Hf.
  - cbn [length app map plus]. f_equal. unfold append_html. destruct st; simpl.
    now rewrite app_nil_r.
  - simpl in Hf. apply andb_true_iff in Hf as [Hl Hf].
    unfold no_fence in Hl. apply negb_true_iff in Hl.
    cbn [length plus app convert_loop step]. rewrite Hl, Hc.
    rewrite IH; [|exact Hc|exact Hf]. now rewrite append_html_app.
Qed.

(** X13. A fenced code block that is closed: the lines between the two fence
    lines are escaped and copied, one fragment each, whatever they hold; the
    text after the backticks of the closing line is dropped, and the language
    of the opening line stays in the state. *)
Theorem fenced_code_block st open body close rest fuel :
  in_code_block st = false ->
  startswith fence open = true ->
  forallb no_fence body = true ->
  startswith fence close = true ->
  convert_loop U (S (length body + S fuel)) st (open :: body ++ close :: rest) =
  convert_loop U fuel
    (with_flags st false (in_math_block st) (strip U (slice_from 3 open))
       (code_open_fragment U open :: map escape_html body ++ [lit "</code></pre>"]))
    rest.
Proof.
  intros Hc Ho Hb Hcl.
  cbn [convert_loop step]. rewrite Ho, Hc. cbn [negb].
  rewrite code_lines_until; [|reflexivity|exact Hb].
  cbn [convert_loop step]. rewrite Hcl. cbn [append_html set_code in_code_block negb].
  f_equal. unfold with_flags, set_code, append_html, code_open_fragment.
  cbn [in_code_block in_math_block code_language html_lines].
  f_equal. rewrite <- !app_assoc. reflexivity.
Qed.

(** *** What the first character of a line rules out *)

Lemma strip_first c l :
  isspace U c = false -> exists t, strip U (c :: l) = c :: t.
Proof. intro H. eexists. unfold strip. now apply strip_with_cons. Qed.

Lemma fence_strip l :
  startswith fence l = true -> exists t, strip U l = ch "`" :: t.
Proof.
  intro H. apply startswith_prefix in H as [t ->].
  apply (strip_first (ch "`")). reflexivity.
Qed.

Lemma heading_strip l :
  is_heading l = true -> exists t, strip U l = ch "#" :: t.
Proof.
  intro H. apply startswith_prefix in H as [t ->].
  apply (strip_first (ch "#")). reflexivity.
Qed.

Lemma math_fence_not_fence l :
  is_math_fence U l = true -> startswith fence l = false.
Proof.
  intro H. destruct (startswith fence l) eqn:E; [|reflexivity].
  apply fence_strip in E as [t E]. unfold is_math_fence in H. rewrite E in H.
  discriminate H.
Qed.

Lemma math_fence_not_single l :
  is_math_fence U l = true -> is_single_line_math U l = false.
Proof.
  intro H. unfold is_math_fence in H. apply str_eqb_eq in H.
  unfold is_single_line_math. rewrite H. reflexivity.
Qed.

Lemma math_lines_until : forall body rest fuel st,
  in_code_block st = false -> in_math_block st = true ->
  forallb (math_body_line U) body = true ->
  convert_loop U (length body + fuel) st (body ++ rest) =
  convert_loop U fuel (append_html st body) rest.
Proof.
  induction body as [|l body IH]; intros rest fuel st Hc Hm Hb.
  - cbn [length app plus]. f_equal. unfold append_html. destruct st; simpl.
    now rewrite app_nil_r.
  - simpl in Hb. apply andb_true_iff in Hb as [Hl Hb].
    unfold math_body_line, no_fence in Hl.
    apply andb_true_iff in Hl as [Hl H3]. apply andb_true_iff in Hl as [H1 H2].
    apply negb_true_iff in H1, H2, H3.
    cbn [length plus app convert_loop step]. rewrite H1, Hc, H2, H3, Hm.
    rewrite IH; [|exact Hc|exact Hm|exact Hb]. now rewrite append_html_app.
Qed.

(** X14. A math block between two lines that hold two dollars: the lines between
    them are copied as they are, neither escaped nor formatted. *)
Theorem math_block st open body close rest fuel :
  in_code_block st = false -> in_math_block st = false ->
  is_math_fence U open = true ->
  forallb (math_body_line U) body = true ->
  is_math_fence U close = true ->
  convert_loop U (S (length body + S fuel)) st (open :: body ++ close :: rest) =
  convert_loop U fuel
    (with_flags st false false (code_language st)
       ((lit "<div class=" ++ dq ++ lit "math-block" ++ dq ++ lit ">$$")
        :: body ++ [lit "$$</div>"]))
    rest.
Proof.
  intros Hc Hm Ho Hb Hcl.
  cbn [convert_loop step].
  rewrite (math_fence_not_fence open Ho), Hc, (math_fence_not_single open Ho), Ho, Hm.
  cbn [negb]. rewrite math_lines_until; [|exact Hc|reflexivity|exact Hb].
  cbn [convert_loop step].
  rewrite (math_fence_not_fence close Hcl), (math_fence_not_single close Hcl), Hcl.
  cbn [append_html set_math in_code_block in_math_block negb]. rewrite Hc.
  f_equal. unfold with_flags, set_math, append_html.
  cbn [in_code_block in_math_block code_language html_lines].
  rewrite Hc, <- ?app_assoc. reflexivity.
Qed.

(** *** Unordered lists and blockquotes *)

Lemma ul_item_strip l :
  is_ul_item U l = true ->
  exists t, strip U l = ch "-" :: ch " " :: t \/ strip U l = ch "*" :: ch " " :: t.
Proof.
  unfold is_ul_item. intro H. apply orb_true_iff in H as [H|H];
    apply startswith_prefix in H as [t H]; exists t; [left|right]; exact H.
Qed.

Lemma ul_not_earlier l :
  is_ul_item U l = true ->
  startswith fence l = false /\ is_single_line_math U l = false /\
  is_math_fence U l = false /\ is_heading l = false.
Proof.
  intro H. destruct (ul_item_strip l H) as [t Hs].
  split; [|split; [|split]].
  - destruct (startswith fence l) eqn:E; [|reflexivity].
    apply fence_strip in E as [t' E]. rewrite E in Hs.
    destruct Hs as [Hs|Hs]; discriminate Hs.
  - unfold is_single_line_math. destruct Hs as [-> | ->]; reflexivity.
  - unfold is_math_fence. destruct Hs as [-> | ->]; reflexivity.
  - destruct (is_heading l) eqn:E; [|reflexivity].
    apply heading_strip in E as [t' E]. rewrite E in Hs.
    destruct Hs as [Hs|Hs]; discriminate Hs.
Qed.

Lemma ul_loop_items : forall items rest,
  forallb (is_ul_item U) items = true -> run_ends (is_ul_item U) rest ->
  ul_loop U (items ++ rest) = (map (ul_item_fragment U) items, rest).
Proof.
  induction items as [|l items IH]; intros rest Hi Hr.
  - cbn [app map]. destruct rest as [|x rest]; [reflexivity|].
    cbn [ul_loop]. unfold run_ends in Hr. now rewrite Hr.
  - cbn [forallb] in Hi. apply andb_true_iff in Hi as [Hl Hi].
    cbn [app ul_loop map]. rewrite Hl, (IH rest Hi Hr). reflexivity.
Qed.

(** X15. A run of unordered-list items becomes one list with one entry for each
    line, the text of the entry being what follows the marker, formatted;
    the run ends at the first line that is no item. *)
Theorem ul_run st l items rest :
  in_code_block st = false -> in_math_block st = false ->
  forallb (is_ul_item U) (l :: items) = true ->
  run_ends (is_ul_item U) rest ->
  step U st ((l :: items) ++ rest) =
    Some (UnorderedList,
          append_html st
            ([lit "<ul>"] ++ map (ul_item_fragment U) (l :: items) ++ [lit "</ul>"]),
          rest).
Proof.
  intros Hc Hm Hi Hr.
  pose proof Hi as Hi'. cbn [forallb] in Hi'. apply andb_true_iff in Hi' as [Hl _].
  destruct (ul_not_earlier l Hl) as [H1 [H2 [H3 H4]]].
  cbn [app]. unfold step. rewrite H1, Hc, H2, H3, Hm, H4, Hl.
  change (l :: items ++ rest) with ((l :: items) ++ rest).
  now rewrite (ul_loop_items (l :: items) rest Hi Hr).
Qed.

Lemma quote_not_earlier l :
  is_quote U l = true ->
  startswith fence l = false /\ is_single_line_math U l = false /\
  is_math_fence U l = false /\ is_heading l = false /\ is_ul_item U l = false /\
  is_table_start U l = false /\ is_ol_item U l = false.
Proof.
  unfold is_quote. intro H. apply startswith_prefix in H as [t Hs].
  cbn [lit app] in Hs. simpl in Hs.
  repeat split.
  - destruct (startswith fence l) eqn:E; [|reflexivity].
    apply fence_strip in E as [t' E]. rewrite E in Hs. discriminate Hs.
  - unfold is_single_line_math. now rewrite Hs.
  - unfold is_math_fence. now rewrite Hs.
  - destruct (is_heading l) eqn:E; [|reflexivity].
    apply heading_strip in E as [t' E]. rewrite E in Hs. discriminate Hs.
  - unfold is_ul_item. now rewrite Hs.
  - unfold is_table_start. rewrite Hs. now destruct (contains_chr (ch "|") l).
  - unfold is_ol_item. now rewrite Hs.
Qed.

Lemma quote_loop_items : forall items rest,
  forallb (is_quote U) items = true -> run_ends (is_quote U) rest ->
  quote_loop U (items ++ rest) = (map (quote_fragment U) items, rest).
Proof.
  induction items as [|l items IH]; intros rest Hi Hr.
  - cbn [app map]. destruct rest as [|x rest]; [reflexivity|].
    cbn [quote_loop]. unfold run_ends in Hr. now rewrite Hr.
  - cbn [forallb] in Hi. apply andb_true_iff in Hi as [Hl Hi].
    cbn [app quote_loop map]. rewrite Hl, (IH rest Hi Hr). reflexivity.
Qed.

(** X16. A run of lines that start with the quote mark becomes one blockquote
    with one paragraph for each line; the run ends at the first line without
    the mark. *)
Theorem quote_run st l items rest :
  in_code_block st = false -> in_math_block st = false ->
  forallb (is_quote U) (l :: items) = true ->
  run_ends (is_quote U) rest ->
  step U st ((l :: items) ++ rest) =
    Some (Blockquote,
          append_html st
            ([lit "<blockquote>"] ++ map (quote_fragment U) (l :: items)
             ++ [lit "</blockquote>"]),
          rest).
Proof.
  intros Hc Hm Hi Hr.
  pose proof Hi as Hi'. cbn [forallb] in Hi'. apply andb_true_iff in Hi' as [Hl _].
  destruct (quote_not_earlier l Hl) as [H1 [H2 [H3 [H4 [H5 [H6 H7]]]]]].
  cbn [app]. unfold step. rewrite H1, Hc, H2, H3, Hm, H4, H5, H6, H7, Hl.
  change (l :: items ++ rest) with ((l :: items) ++ rest).
  now rewrite (quote_loop_items (l :: items) rest Hi Hr).
Qed.

(** *** Table cells *)

Lemma split_chr_nonempty c s : split_chr c s <> [].
Proof.
  destruct s as [|x s]; [discriminate|]. cbn [split_chr].
  destruct (chr_eqb x c); [discriminate|]. now destruct (split_chr c s).
Qed.

Lemma split_chr_field c : forall a s,
  ~ In c a -> split_chr c (a ++ c :: s) = a :: split_chr c s.
Proof.
  induction a as [|x a IH]; intros s Ha.
  - cbn [app split_chr]. now rewrite chr_eqb_refl.
  - cbn [app split_chr].
    assert (Hx : chr_eqb x c = false).
    { apply chr_eqb_neq. intros ->. apply Ha. now left. }
    rewrite Hx, IH; [reflexivity|]. intro H. apply Ha. now right.
Qed.

Lemma split_chr_one c : forall a, ~ In c a -> split_chr c a = [a].
Proof.
  induction a as [|x a IH]; intro Ha; [reflexivity|].
  cbn [split_chr].
  assert (Hx : chr_eqb x c = false).
  { apply chr_eqb_neq. intros ->. apply Ha. now left. }
  rewrite Hx, IH; [reflexivity|]. intro H. apply Ha. now right.
Qed.

Lemma split_chr_last c b : forall s,
  ~ In c b -> split_chr c (s ++ c :: b) = split_chr c s ++ [b].
Proof.
  intros s Hb. induction s as [|x s IH].
  - cbn [app split_chr]. rewrite chr_eqb_refl. now rewrite split_chr_one.
  - cbn [app split_chr]. destruct (chr_eqb x c).
    + now rewrite IH.
    + rewrite IH. pose proof (split_chr_nonempty c s) as Hne.
      destruct (split_chr c s) as [|f fs]; [congruence|reflexivity].
Qed.

(** X17. The cells of a table row are the fields between its first and its last
    pipe, trimmed: what stands before the first pipe and after the last one
    is dropped, and a row with fewer than two pipes has no cell. *)
Theorem table_cells_fields a mid b :
  ~ In (ch "|") a -> ~ In (ch "|") b ->
  table_cells U (a ++ ch "|" :: mid ++ ch "|" :: b) =
    map (strip U) (split_chr (ch "|") mid) /\
  table_cells U (a ++ ch "|" :: b) = [] /\
  table_cells U a = [].
Proof.
  intros Ha Hb. unfold table_cells. split; [|split].
  - rewrite split_chr_field by exact Ha. cbn [tl].
    rewrite split_chr_last by exact Hb. now rewrite removelast_last.
  - rewrite split_chr_field by exact Ha. cbn [tl].
    now rewrite split_chr_one by exact Hb.
  - now rewrite split_chr_one by exact Ha.
Qed.

(** *** Where an ordered list ends *)

Lemma ol_item_loop_end : forall lines acc content rest,
  ol_item_loop U lines acc = (content, rest) ->
  match rest with
  | [] => True
  | x :: _ => is_blank U x = false /\ is_indented x = false
  end.
Proof.
  induction lines as [|l lines IH]; intros acc content rest H; cbn [ol_item_loop] in H.
  - now injection H as <- <-.
  - destruct (is_blank U l) eqn:Eb; [now apply IH in H|].
    destruct (is_indented l) eqn:Ei; [now apply IH in H|].
    injection H as <- <-. now split.
Qed.

(** X18. An ordered list ends at the end of the input or at a line that is not
    blank, not indented and no item: a blank line never ends it. *)
Theorem ol_list_ends : forall fuel item lines out items rest,
  is_ol_item U item = true ->
  ol_loop U fuel (item :: lines) out = Some (items, rest) ->
  match rest with
  | [] => True
  | x :: _ => is_blank U x = false /\ is_indented x = false /\ is_ol_item U x = false
  end.
Proof.
  induction fuel as [|fuel IH]; intros item lines out items rest Hitem H;
    [discriminate H|].
  cbn [ol_loop] in H. unfold is_ol_item in Hitem. rewrite Hitem in H.
  destruct (ol_item_loop U lines _) as [content r] eqn:E.
  apply ol_item_loop_end in E.
  destruct r as [|x r].
  - destruct fuel; cbn [ol_loop] in H; injection H as <- <-; exact I.
  - destruct E as [Hb Hi].
    destruct (is_ol_item U x) eqn:Ex; [exact (IH x r _ items rest Ex H)|].
    destruct fuel as [|fuel']; [discriminate H|].
    cbn [ol_loop] in H. unfold is_ol_item in Ex. rewrite Ex in H.
    unfold is_blank in Hb. rewrite Hb in H. injection H as <- <-.
    now repeat split.
Qed.

End BlockFacts.

Section FenceFacts.
Variable U : unicode_db.

Lemma fence_count_app a b : fence_count (a ++ b) = fence_count a + fence_count b.
Proof. unfold fence_count. now rewrite filter_app, length_app. Qed.

Lemma fence_count_none run :
  (forall l, In l run -> startswith fence l = false) -> fence_count run = 0.
Proof.
  unfold fence_count. induction run as [|l run IH]; intro H; [reflexivity|].
  cbn [filter]. rewrite (H l (or_introl eq_refl)). apply IH.
  intros x Hx. apply H. now right.
Qed.

Lemma blank_not_fence l : is_blank U l = true -> startswith fence l = false.
Proof.
  intro H. destruct (startswith fence l) eqn:E; [|reflexivity].
  apply (fence_strip U) in E as [t E]. unfold is_blank in H. rewrite E in H.
  discriminate H.
Qed.

Lemma indented_not_fence l : is_indented l = true -> startswith fence l = false.
Proof.
  unfold is_indented. intro H. apply orb_true_iff in H as [H|H];
    apply startswith_prefix in H as [t ->]; reflexivity.
Qed.

Lemma ol_item_not_fence l : is_ol_item U l = true -> startswith fence l = false.
Proof.
  intro H. destruct (startswith fence l) eqn:E; [|reflexivity].
  apply (fence_strip U) in E as [t E]. unfold is_ol_item in H. rewrite E in H.
  discriminate H.
Qed.

Lemma ol_item_loop_no_fence : forall lines acc content rest,
  ol_item_loop U lines acc = (content, rest) ->
  exists run, lines = run ++ rest /\ forall l, In l run -> startswith fence l = false.
Proof.
  induction lines as [|l lines IH]; intros acc content rest H; cbn [ol_item_loop] in H.
  - injection H as <- <-. exists []. split; [reflexivity|intros l []].
  - destruct (is_blank U l) eqn:Eb.
    { destruct (IH _ _ _ H) as [run [-> Hrun]]. exists (l :: run).
      split; [reflexivity|]. intros x [<-|Hx]; [now apply blank_not_fence|now apply Hrun]. }
    destruct (is_indented l) eqn:Ei.
    + destruct (IH _ _ _ H) as [run [-> Hrun]]. exists (l :: run).
      split; [reflexivity|].
      intros x [<-|Hx]; [now apply indented_not_fence|now apply Hrun].
    + injection H as <- <-. exists []. split; [reflexivity|intros x []].
Qed.

Lemma ol_loop_no_fence : forall fuel lines out items rest,
  ol_loop U fuel lines out = Some (items, rest) ->
  exists run, lines = run ++ rest /\ forall l, In l run -> startswith fence l = false.
Proof.
  induction fuel as [|fuel IH]; intros lines out items rest H.
  - destruct lines; [|discriminate H]. injection H as <- <-.
    exists []. split; [reflexivity|intros l []].
  - destruct lines as [|l lines].
    { injection H as <- <-. exists []. split; [reflexivity|intros l []]. }
    cbn [ol_loop] in H.
    destruct (is_some (re_match (ol_pattern U) (strip U l))) eqn:Eitem.
    + destruct (ol_item_loop U lines _) as [content r1] eqn:E.
      destruct (ol_item_loop_no_fence _ _ _ _ E) as [run1 [-> H1]].
      destruct (IH _ _ _ _ H) as [run2 [-> H2]].
      exists (l :: run1 ++ run2). split; [simpl; now rewrite <- app_assoc|].
      intros x [<-|Hx]; [now apply ol_item_not_fence|].
      apply in_app_or in Hx as [Hx|Hx]; [now apply H1|now apply H2].
    + destruct (str_eqb (strip U l) []) eqn:Eb.
      * assert (Hl : startswith fence l = false) by now apply blank_not_fence.
        destruct lines as [|l' lines'].
        { injection H as <- <-. exists [l]. split; [reflexivity|].
          now intros x [<-|[]]. }
        destruct (is_ol_item U l').
        { destruct (IH _ _ _ _ H) as [run [Heq Hrun]].
          exists (l :: run). split; [simpl; now rewrite Heq|].
          intros x [<-|Hx]; [exact Hl|now apply Hrun]. }
        injection H as <- <-. exists [l]. split; [reflexivity|].
        now intros x [<-|[]].
      * injection H as <- <-. exists []. split; [reflexivity|intros x []].
Qed.

(** What one iteration of the main loop does to the code-block flag: a fence
    line flips it, any other line or run of lines leaves it, provided no
    line that starts with the fence holds a pipe (the table rule would take
    such a line for a row). *)
Lemma step_fences st lines kind st' rest :
  (forall l, In l lines -> startswith fence l = true ->
             contains_chr (ch "|") l = false) ->
  step U st lines = Some (kind, st', rest) ->
  exists run,
    lines = run ++ rest /\
    in_code_block st' = xorb (in_code_block st) (Nat.odd (fence_count run)).
Proof.
  intros Hpipe H. destruct lines as [|line more]; [discriminate H|].
  unfold step in H.
  assert (Hone : forall b, startswith fence line = b ->
            fence_count [line] = if b then 1 else 0).
  { intros b Hb. unfold fence_count. cbn [filter]. rewrite Hb. now destruct b. }
  destruct (startswith fence line) eqn:Ef.
  { exists [line]. rewrite (Hone true eq_refl).
    destruct (in_code_block st) eqn:Ec; cbn [negb] in H; injection H as _ <- <-;
      split; reflexivity. }
  assert (Hsame : forall frags,
            in_code_block (append_html st frags) =
            xorb (in_code_block st) (Nat.odd (fence_count [line]))).
  { intro frags. rewrite (Hone false eq_refl). cbn [append_html in_code_block].
    now destruct (in_code_block st). }
  assert (Hrun : forall run frags,
            (forall l, In l run -> startswith fence l = false) ->
            in_code_block (append_html st frags) =
            xorb (in_code_block st) (Nat.odd (fence_count run))).
  { intros run frags Hr. rewrite (fence_count_none run Hr).
    cbn [append_html in_code_block]. now destruct (in_code_block st). }
  destruct (in_code_block st) eqn:Ec.
  { injection H as _ <- <-. exists [line]. split; [reflexivity|apply Hsame]. }
  destruct (is_single_line_math U line).
  { injection H as _ <- <-. exists [line]. split; [reflexivity|apply Hsame]. }
  destruct (is_math_fence U line).
  { exists [line]. rewrite (Hone false eq_refl).
    destruct (in_math_block st); cbn [negb] in H; injection H as _ <- <-;
      (split; [reflexivity|cbn [set_math in_code_block]; now rewrite Ec]). }
  destruct (in_math_block st).
  { injection H as _ <- <-. exists [line]. split; [reflexivity|apply Hsame]. }
  destruct (is_heading line) eqn:Eh.
  { injection H as _ <- <-. exists [line]. split; [reflexivity|apply Hsame]. }
  destruct (is_ul_item U line) eqn:Eul.
  { destruct (ul_loop U (line :: more)) as [items r] eqn:E.
    injection H as _ <- <-.
    destruct (ul_loop_run U _ _ _ E) as [run [Heq Hall]].
    exists run. split; [exact Heq|]. apply Hrun.
    intros l Hl. rewrite forallb_forall in Hall.
    now destruct (ul_not_earlier U l (Hall l Hl)). }
  destruct (is_table_start U line) eqn:Etab.
  { destruct (table_collect U (line :: more)) as [tls r] eqn:E.
    injection H as _ <- <-.
    destruct (table_collect_run U _ _ _ E) as [run [Heq [_ [Hall _]]]].
    exists run. split; [exact Heq|]. apply Hrun.
    intros l Hl. rewrite forallb_forall in Hall.
    destruct (startswith fence l) eqn:El; [|reflexivity].
    specialize (Hall l Hl). rewrite (Hpipe l) in Hall; [discriminate Hall| |exact El].
    rewrite Heq. apply in_or_app. now left. }
  destruct (is_ol_item U line) eqn:Eol.
  { destruct (ol_loop U (length (line :: more)) (line :: more) []) as [[items r]|] eqn:E;
      [|discriminate H].
    injection H as _ <- <-.
    destruct (ol_loop_no_fence _ _ _ _ _ E) as [run [Heq Hall]].
    exists run. split; [exact Heq|]. now apply Hrun. }
  destruct (is_quote U line) eqn:Eq.
  { destruct (quote_loop U (line :: more)) as [ps r] eqn:E.
    injection H as _ <- <-.
    destruct (quote_loop_run U _ _ _ E) as [run [Heq Hall]].
    exists run. split; [exact Heq|]. apply Hrun.
    intros l Hl. rewrite forallb_forall in Hall.
    now destruct (quote_not_earlier U l (Hall l Hl)). }
  destruct (is_blank U line) eqn:Eb.
  { injection H as _ <- <-. exists [line]. split; [reflexivity|apply Hsame]. }
  destruct (paragraph_loop U (line :: more)) as [ps r] eqn:E.
  destruct (paragraph_loop_run U _ _ _ E) as [Heq [Hall _]].
  assert (Hps : forall l, In l ps -> startswith fence l = false).
  { intros l Hl. rewrite forallb_forall in Hall. specialize (Hall l Hl).
    unfold paragraph_continues in Hall.
    apply andb_true_iff in Hall as [_ Hall]. now apply negb_true_iff in Hall. }
  exists ps. destruct ps as [|p ps'].
  - injection H as _ <- <-. split; [exact Heq|]. rewrite Ec. reflexivity.
  - injection H as _ <- <-. split; [exact Heq|]. now apply Hrun.
Qed.

Lemma fence_flag : forall fuel st lines st',
  (forall l, In l lines -> startswith fence l = true ->
             contains_chr (ch "|") l = false) ->
  convert_loop U fuel st lines = Some st' ->
  in_code_block st' = xorb (in_code_block st) (Nat.odd (fence_count lines)).
Proof.
  induction fuel as [|fuel IH]; intros st lines st' Hpipe H.
  - destruct lines; [|discriminate H]. injection H as <-.
    now destruct (in_code_block st).
  - destruct lines as [|line more].
    { injection H as <-. now destruct (in_code_block st). }
    cbn [convert_loop] in H.
    destruct (step U st (line :: more)) as [[[kind st1] rest]|] eqn:Es; [|discriminate H].
    destruct (step_fences st _ kind st1 rest Hpipe Es) as [run [Heq Hflag]].
    rewrite Heq, fence_count_app, Nat.odd_add.
    rewrite (IH st1 rest st'); [|intros l Hl; apply Hpipe; rewrite Heq;
                                 apply in_or_app; now right|exact H].
    rewrite Hflag. now rewrite xorb_assoc.
Qed.

(** X19. Whether the loop ends inside a code block is a matter of counting: the
    loop over the lines of a document comes to an end, and the code block is
    open at that end exactly when the number of fence lines is odd (or even,
    when the loop starts inside a code block), as long as no fence line holds
    a pipe. *)
Theorem fence_parity : forall fuel st lines,
  length lines <= fuel ->
  (forall l, In l lines -> startswith fence l = true ->
             contains_chr (ch "|") l = false) ->
  exists st',
    convert_loop U fuel st lines = Some st' /\
    in_code_block st' = xorb (in_code_block st) (Nat.odd (fence_count lines)).
Proof.
  intros fuel st lines Hlen Hpipe.
  destruct (convert_loop_total U fuel st lines Hlen) as [st' H].
  exists st'. split; [exact H|]. exact (fence_flag fuel st lines st' Hpipe H).
Qed.

End FenceFacts.

(** A fence line that holds a pipe can be taken into a table: then it does
    not open a code block. *)
Example fence_in_table :
  option_map in_code_block
    (convert_loop ascii_db 3 conv_state0 [lit "| a |"; lit "```|"; lit "x"]) = Some false.
Proof. vm_compute. reflexivity. Qed.

Section ParagraphFacts.
Variable U : unicode_db.

Lemma split_join c : forall l ls,
  (forall x, In x (l :: ls) -> ~ In c x) ->
  split_chr c (join [c] (l :: ls)) = l :: ls.
Proof.
  intros l ls. revert l. induction ls as [|l' ls IH]; intros l H.
  - cbn [join]. apply split_chr_one. apply H. now left.
  - change (join [c] (l :: l' :: ls)) with (l ++ c :: join [c] (l' :: ls)).
    rewrite split_chr_field by (apply H; now left).
    f_equal. apply IH. intros x Hx. apply H. now right.
Qed.

Lemma paragraph_loop_all : forall ls,
  forallb (paragraph_continues U) ls = true -> paragraph_loop U ls = (ls, []).
Proof.
  induction ls as [|l ls IH]; intro H; [reflexivity|].
  cbn [forallb] in H. apply andb_true_iff in H as [Hl H].
  cbn [paragraph_loop]. now rewrite Hl, (IH H).
Qed.

Lemma convert_loop_nil fuel st : convert_loop U fuel st [] = Some st.
Proof. now destruct fuel. Qed.

Lemma join_plain : forall l ls,
  (forall x, In x (l :: ls) -> avoids inline_special x) ->
  avoids inline_special (join (lit " ") (l :: ls)).
Proof.
  intros l ls. revert l. induction ls as [|l' ls IH]; intros l H.
  - cbn [join]. apply H. now left.
  - change (join (lit " ") (l :: l' :: ls))
      with (l ++ lit " " ++ join (lit " ") (l' :: ls)).
    rewrite !avoids_app. split; [apply H; now left|]. split; [reflexivity|].
    apply IH. intros x Hx. apply H. now right.
Qed.

(** X20. A text made of lines of one paragraph, none of which holds a dollar, a
    star, a backtick or an opening bracket, converts to one paragraph that
    holds the lines joined by spaces, character for character: markup in the
    text and the characters less-than, greater-than and ampersand are passed
    on as they are. *)
Theorem plain_paragraph l ls :
  (forall x, In x (l :: ls) -> ~ In newline x /\ avoids inline_special x) ->
  matches_no_marker U l = true ->
  forallb (paragraph_continues U) ls = true ->
  convert_md_to_html_body U (join [newline] (l :: ls)) =
    Some (lit "<p>" ++ join (lit " ") (l :: ls) ++ lit "</p>").
Proof.
  intros Hlines Hfirst Hrest.
  unfold convert_md_to_html_body, convert_lines.
  rewrite split_join by (intros x Hx; now apply Hlines).
  unfold matches_no_marker in Hfirst.
  repeat (apply andb_true_iff in Hfirst as [Hfirst ?]).
  repeat match goal with H : negb _ = true |- _ => apply negb_true_iff in H end.
  assert (Hc : paragraph_continues U l = true).
  { unfold paragraph_continues, is_heading in *.
    repeat match goal with H : _ = false |- _ => rewrite H end. reflexivity. }
  cbn [length convert_loop]. unfold step.
  repeat match goal with H : _ = false |- _ => rewrite H end.
  cbn [in_code_block in_math_block conv_state0].
  rewrite (paragraph_loop_all (l :: ls)) by (cbn [forallb]; now rewrite Hc, Hrest).
  rewrite inline_plain_id by (apply join_plain; intros x Hx; now apply Hlines).
  now rewrite convert_loop_nil.
Qed.

End ParagraphFacts.

Section MathLineFacts.
Variable U : unicode_db.

Lemma drop_while_pad f : forall ws s,
  forallb f ws = true ->
  match s with [] => True | c :: _ => f c = false end ->
  drop_while f (ws ++ s) = s.
Proof.
  induction ws as [|w ws IH]; intros s Hws Hs.
  - now apply drop_while_none.
  - cbn [forallb] in Hws. apply andb_true_iff in Hws as [Hw Hws].
    cbn [app drop_while]. rewrite Hw. now apply IH.
Qed.

(** Trimming removes the padding around a text that neither starts nor ends
    with a trimmed character. *)
Lemma strip_with_pad f ws1 s ws2 :
  forallb f ws1 = true -> forallb f ws2 = true ->
  s <> [] -> f (hd 0%N s) = false -> f (last s 0%N) = false ->
  strip_with f (ws1 ++ s ++ ws2) = s.
Proof.
  intros H1 H2 Hne Hh Hl. unfold strip_with.
  rewrite drop_while_pad; [|exact H1|destruct s; [congruence|exact Hh]].
  rewrite rev_app_distr, drop_while_pad.
  - apply rev_involutive.
  - apply forallb_forall. intros c Hc. apply in_rev in Hc.
    rewrite forallb_forall in H2. now apply H2.
  - destruct (@exists_last _ s Hne) as [q [z ->]].
    rewrite rev_app_distr. cbn [rev app]. now rewrite last_last in Hl.
Qed.

Lemma firstn_len_app (a b : str) : firstn (length a + 0) (a ++ b) = a.
Proof. now rewrite firstn_app_2, app_nil_r. Qed.

(** X21. A line that holds, between two pairs of dollars, a text that is not
    empty is a math block of its own: the fragment holds the text between
    the dollars as it is.  The white space around the dollars is dropped. *)
Theorem single_line_math st ws1 x ws2 rest :
  in_code_block st = false ->
  forallb (isspace U) ws1 = true -> forallb (isspace U) ws2 = true ->
  x <> [] ->
  step U st ((ws1 ++ (lit "$$" ++ x ++ lit "$$") ++ ws2) :: rest) =
    Some (MathBlock, append_html st [math_div x], rest).
Proof.
  intros Hc H1 H2 Hx.
  assert (Hstrip : strip U (ws1 ++ (lit "$$" ++ x ++ lit "$$") ++ ws2) =
                   lit "$$" ++ x ++ lit "$$").
  { apply strip_with_pad; [exact H1|exact H2|discriminate|reflexivity|].
    rewrite app_assoc, last_app_nonempty by discriminate. reflexivity. }
  assert (Hf : startswith fence (ws1 ++ (lit "$$" ++ x ++ lit "$$") ++ ws2) = false).
  { destruct ws1 as [|w ws1]; [reflexivity|].
    cbn [forallb] in H1. apply andb_true_iff in H1 as [Hw _].
    destruct (startswith fence ((w :: ws1) ++ (lit "$$" ++ x ++ lit "$$") ++ ws2)) eqn:E;
      [|reflexivity].
    apply startswith_prefix in E as [t E]. cbn [app] in E.
    injection E as -> _. discriminate Hw. }
  unfold step. rewrite Hf, Hc. unfold is_single_line_math. rewrite Hstrip.
  assert (Hlen : (4 <? length (lit "$$" ++ x ++ lit "$$")) = true).
  { apply Nat.ltb_lt. rewrite !length_app. destruct x; [congruence|simpl; lia]. }
  assert (He : endswith (lit "$$") (lit "$$" ++ x ++ lit "$$") = true).
  { unfold endswith. rewrite !rev_app_distr. reflexivity. }
  assert (Hslice : slice 2 2 (lit "$$" ++ x ++ lit "$$") = x).
  { unfold slice. rewrite !length_app.
    change (skipn 2 (lit "$$" ++ x ++ lit "$$")) with (x ++ lit "$$").
    replace (length (lit "$$") + (length x + length (lit "$$")) - 2 - 2)
      with (length x + 0) by (change (length (lit "$$")) with 2; lia).
    apply firstn_len_app. }
  rewrite Hlen, He, Hslice. reflexivity.
Qed.

End MathLineFacts.

(** ** The command line *)

Lemma endswith_app p s : endswith p (s ++ p) = true.
Proof. unfold endswith. rewrite rev_app_distr. apply startswith_app. Qed.

Section DriverFacts.
Variable U : unicode_db.
Variable html_template_start html_template_end : str.
Variable W : Type.
Variable FS : file_system W.
Variable ENV : script_env W.

(** X22. The file [main] looks for always has the extension ".md": a name given
    without it is completed, so that a name and the name with ".md" run the
    same conversion; arguments after the first are ignored. *)
Theorem main_extension :
  (forall argv, endswith (lit ".md") (main_file_name argv) = true) /\
  (forall prog name more more' w,
     main U html_template_start html_template_end FS ENV (prog :: name :: more) w =
     main U html_template_start html_template_end FS ENV
          (prog :: (if endswith (lit ".md") name then name else name ++ lit ".md")
                :: more') w).
Proof.
  split.
  - intros [|prog [|name more]]; try reflexivity.
    cbn [main_file_name]. destruct (endswith (lit ".md") name) eqn:E; cbn [negb].
    + exact E.
    + apply endswith_app.
  - intros prog name more more' w. unfold main. cbn [main_file_name].
    destruct (endswith (lit ".md") name) eqn:E; cbn [negb].
    + now rewrite E.
    + now rewrite endswith_app.
Qed.

End DriverFacts.

(** [main] on the files in memory: a missing input lists the Markdown files
    and writes nothing, an input that exists is converted beside it, and a
    console that refuses the lines makes [main] raise before it looks for
    the input. *)
Example main_missing :
  main ascii_db (lit "<body>") (lit "</body>") mem_fs mem_env
       [lit "md2pdf.py"; lit "report"] [(lit "/docs/notes.md", lit "# n")] =
    Returned tt [(lit "/docs/notes.md", lit "# n")].
Proof. vm_compute. reflexivity. Qed.

Example main_converts :
  main ascii_db (lit "<body>") (lit "</body>") mem_fs mem_env
       [lit "md2pdf.py"; lit "notes"] [(lit "/docs/notes.md", lit "# n")] =
    Returned tt [(lit "/docs/notes.html",
                  lit "<body>" ++ lit "<h1 id=" ++ dq ++ lit "n" ++ dq ++ lit ">n</h1>"
                  ++ lit "</body>");
                 (lit "/docs/notes.md", lit "# n")].
Proof. vm_compute. reflexivity. Qed.

Example main_raises :
  main ascii_db (lit "<body>") (lit "</body>") (mem_fs_with (fun _ => false)) mem_env
       [lit "md2pdf.py"; lit "notes"] [(lit "/docs/notes.md", lit "# n")] =
    Raised [(lit "/docs/notes.md", lit "# n")].
Proof. vm_compute. reflexivity. Qed.

Example mem_html_path_replaces :
  mem_html_path (lit "a.md") = lit "a.html" /\
  mem_html_path (lit "/docs/x.y.md") = lit "/docs/x.y.html" /\
  mem_html_path (lit "/docs.d/notes") = lit "/docs.d/notes.html" /\
  mem_html_path (lit "/docs/.notes") = lit "/docs/.notes.html".
Proof. vm_compute. repeat split. Qed.

Section ListItemFacts.
Variable U : unicode_db.

Lemma ol_shape m cs :
  Matches (ol_pattern U) m [] cs ->
  exists ds sp, m = ds ++ [ch "."; sp] /\ ds <> [] /\
                forallb (isdigit U) ds = true /\ isspace U sp = true /\ cs = [].
Proof.
  unfold ol_pattern. intro H. inv_matches.
  match goal with
  | Hx : isdigit U ?x = true, Hm : forallb (isdigit U) ?m = true,
    Hs : isspace U ?s = true |- _ =>
    exists (x :: m), s; split; [reflexivity|]; split; [discriminate|];
    split; [cbn [forallb]; now rewrite Hx, Hm|]; split; [exact Hs|reflexivity]
  end.
Qed.

Lemma ol_matches x ds sp :
  forallb (isdigit U) (x :: ds) = true -> isspace U sp = true ->
  Matches (ol_pattern U) ((x :: ds) ++ [ch "."; sp]) [] [].
Proof.
  intros Hd Hs. cbn [forallb] in Hd. apply andb_true_iff in Hd as [Hx Hd].
  unfold ol_pattern.
  change ((x :: ds) ++ [ch "."; sp]) with ((x :: ds) ++ [ch "."] ++ [sp]).
  apply M_Seq with (cs1 := []); [now constructor|].
  apply M_Seq with (cs1 := []); now constructor.
Qed.

Lemma digits_then_dot : forall ds ds' r r',
  forallb (isdigit U) ds = true -> forallb (isdigit U) ds' = true ->
  ds ++ ch "." :: r = ds' ++ ch "." :: r' -> ds = ds' /\ r = r'.
Proof.
  induction ds as [|x ds IH]; intros [|y ds'] r r' Hd Hd' H; simpl in H.
  - injection H as ->. now split.
  - injection H as <- _. cbn [forallb] in Hd'.
    apply andb_true_iff in Hd' as [Hy _]. discriminate Hy.
  - injection H as -> _. cbn [forallb] in Hd.
    apply andb_true_iff in Hd as [Hx _]. discriminate Hx.
  - injection H as -> H. cbn [forallb] in Hd, Hd'.
    apply andb_true_iff in Hd as [_ Hd]. apply andb_true_iff in Hd' as [_ Hd'].
    destruct (IH _ _ _ Hd Hd' H) as [-> ->]. now split.
Qed.

Lemma ol_match ds sp text :
  ds <> [] -> forallb (isdigit U) ds = true -> isspace U sp = true ->
  re_match (ol_pattern U) ((ds ++ [ch "."; sp]) ++ text) =
    Some (ds ++ [ch "."; sp], text, []).
Proof.
  intros Hne Hd Hs. apply re_match_unique.
  - destruct ds as [|x ds]; [congruence|]. now apply ol_matches.
  - intros m' rest' cs' Hm' Heq.
    apply ol_shape in Hm' as [ds' [sp' [-> [_ [Hd' [_ ->]]]]]].
    rewrite <- !app_assoc in Heq. cbn [app] in Heq.
    destruct (digits_then_dot _ _ _ _ Hd Hd' Heq) as [-> Hr].
    injection Hr as -> _. now split.
Qed.

(** X24. The number of an ordered-list item is not kept: the text of the item is
    what follows the digits, the dot and the white-space character, with its
    inline formatting. *)
Theorem ol_item_number_dropped ds sp text :
  ds <> [] -> forallb (isdigit U) ds = true -> isspace U sp = true ->
  is_some (re_match (ol_pattern U) (ds ++ ch "." :: sp :: text)) = true /\
  ol_item_head U (ds ++ ch "." :: sp :: text) = process_inline_formatting text.
Proof.
  intros Hne Hd Hs.
  pose proof (ol_match ds sp text Hne Hd Hs) as Hm.
  rewrite <- app_assoc in Hm. cbn [app] in Hm.
  split.
  - now rewrite Hm.
  - unfold ol_item_head, re_sub_bos_empty. rewrite Hm.
    destruct ds as [|x ds]; [congruence|reflexivity].
Qed.

(** X25. The second line of a table, when it holds three hyphens in a row, is
    the separator of the header: it leaves no trace in the table. *)
Theorem table_separator h sep rows :
  contains (lit "---") sep = true ->
  match rows with [] => True | r :: _ => contains (lit "---") r = false end ->
  table_fragments U (h :: sep :: rows) = table_fragments U (h :: rows).
Proof.
  intros Hsep Hrows. unfold table_fragments. rewrite Hsep.
  destruct rows as [|r rows]; [reflexivity|]. rewrite Hrows. reflexivity.
Qed.

End ListItemFacts.

(** ** The properties at work *)

Lemma escape_html_injective_witness :
  escape_html (lit "a<b") = escape_html (lit "a<b") /\ lit "a<b" = lit "a<b".
Proof.
  split; [reflexivity|].
  apply (escape_html_injective (lit "a<b") (lit "a<b")). reflexivity.
Defined.

Lemma escape_html_no_markup_witness :
  In (ch "&") (escape_html (lit "<a href='x'>")) /\
  (ch "&" <> ch "<" /\ ch "&" <> ch ">" /\ ch "&" <> 34%N /\ ch "&" <> ch "'").
Proof.
  assert (H : In (ch "&") (escape_html (lit "<a href='x'>"))) by (vm_compute; auto).
  split; [exact H|]. exact (escape_html_no_markup _ _ H).
Defined.

Lemma generate_id_fallback_witness :
  forallb (not_word_or_cjk ascii_db) (lit "?! ...") = true /\
  generate_id ascii_db (lit "?! ...") = lit "heading".
Proof.
  split; [reflexivity|].
  apply (generate_id_fallback ascii_db (lit "?! ...")). reflexivity.
Defined.

Lemma generate_id_slug_witness :
  generate_id ascii_db (lit " 1. Hello, World -- (2nd_part)!") <> [] /\
  forallb slug_char (generate_id ascii_db (lit " 1. Hello, World -- (2nd_part)!")) = true /\
  startswith (lit "-") (generate_id ascii_db (lit " 1. Hello, World -- (2nd_part)!")) = false /\
  endswith (lit "-") (generate_id ascii_db (lit " 1. Hello, World -- (2nd_part)!")) = false /\
  contains (lit "--") (generate_id ascii_db (lit " 1. Hello, World -- (2nd_part)!")) = false.
Proof.
  apply (generate_id_slug ascii_db (lit " 1. Hello, World -- (2nd_part)!")). reflexivity.
Defined.

Lemma generate_id_idempotent_witness :
  generate_id ascii_db (generate_id ascii_db (lit "What's New?")) =
  generate_id ascii_db (lit "What's New?").
Proof. apply (generate_id_idempotent ascii_db (lit "What's New?")). reflexivity. Defined.

Lemma inline_plain_witness :
  process_inline_formatting (lit "if a < b & c > d then <b>stop</b>!") =
  lit "if a < b & c > d then <b>stop</b>!".
Proof. apply (inline_plain (lit "if a < b & c > d then <b>stop</b>!")). reflexivity. Defined.

Lemma inline_bold_witness :
  process_inline_formatting (lit "a " ++ lit "**" ++ lit "b c" ++ lit "**" ++ lit " d") =
  lit "a " ++ lit "<strong>" ++ lit "b c" ++ lit "</strong>" ++ lit " d".
Proof.
  apply (inline_bold (lit "a ") (lit "b c") (lit " d"));
    [reflexivity|reflexivity|discriminate|reflexivity].
Defined.

Lemma inline_italic_witness :
  process_inline_formatting (lit "a " ++ lit "*" ++ lit "b c" ++ lit "*" ++ lit " d") =
  lit "a " ++ lit "<em>" ++ lit "b c" ++ lit "</em>" ++ lit " d".
Proof.
  apply (inline_italic (lit "a ") (lit "b c") (lit " d"));
    [reflexivity|reflexivity|discriminate|reflexivity].
Defined.

Lemma inline_link_witness :
  process_inline_formatting
    (lit "see " ++ lit "[" ++ lit "the docs" ++ lit "](" ++ lit "http://x.y/z?a=1"
     ++ lit ")" ++ lit ".") =
  lit "see " ++ lit "<a href=" ++ dq ++ lit "http://x.y/z?a=1" ++ dq ++ lit ">"
  ++ lit "the docs" ++ lit "</a>" ++ lit ".".
Proof.
  apply (inline_link (lit "see ") (lit "the docs") (lit "http://x.y/z?a=1") (lit "."));
    try reflexivity; discriminate.
Defined.

Lemma inline_image_witness :
  process_inline_formatting
    (lit "wow! " ++ lit "![" ++ lit "a cat" ++ lit "](" ++ lit "cat.png" ++ lit ")" ++ []) =
  lit "wow! " ++ lit "<img src=" ++ dq ++ lit "cat.png" ++ dq ++ lit " alt=" ++ dq
  ++ lit "a cat" ++ dq ++ lit " style=" ++ dq
  ++ lit "max-width: 100%; height: auto; display: block; margin: 20px auto; border: 1px solid #ddd; border-radius: 5px; box-shadow: 0 2px 8px rgba(0,0,0,0.1);"
  ++ dq ++ lit " />" ++ [].
Proof.
  apply (inline_image (lit "wow! ") (lit "a cat") (lit "cat.png") []);
    try reflexivity; discriminate.
Defined.

Lemma fenced_code_block_witness :
  convert_loop ascii_db 5 conv_state0
    (lit "```py" :: [lit "x < y"; lit "# no heading"] ++ lit "``` end" :: [lit "after"]) =
  convert_loop ascii_db 1
    (with_flags conv_state0 false false (lit "py")
       (code_open_fragment ascii_db (lit "```py")
        :: map escape_html [lit "x < y"; lit "# no heading"] ++ [lit "</code></pre>"]))
    [lit "after"].
Proof.
  apply (fenced_code_block ascii_db conv_state0 (lit "```py")
           [lit "x < y"; lit "# no heading"] (lit "``` end") [lit "after"] 1);
    reflexivity.
Defined.

Lemma math_block_witness :
  convert_loop ascii_db 5 conv_state0
    (lit "$$" :: [lit "a < b"; lit "# no heading"] ++ lit " $$ " :: [lit "after"]) =
  convert_loop ascii_db 1
    (with_flags conv_state0 false false []
       ((lit "<div class=" ++ dq ++ lit "math-block" ++ dq ++ lit ">$$")
        :: [lit "a < b"; lit "# no heading"] ++ [lit "$$</div>"]))
    [lit "after"].
Proof.
  apply (math_block ascii_db conv_state0 (lit "$$")
           [lit "a < b"; lit "# no heading"] (lit " $$ ") [lit "after"] 1);
    reflexivity.
Defined.

Lemma ul_run_witness :
  step ascii_db conv_state0 ((lit "- a" :: [lit "  * b"]) ++ [lit "c"]) =
    Some (UnorderedList,
          append_html conv_state0
            ([lit "<ul>"] ++ map (ul_item_fragment ascii_db) (lit "- a" :: [lit "  * b"])
             ++ [lit "</ul>"]),
          [lit "c"]).
Proof.
  apply (ul_run ascii_db conv_state0 (lit "- a") [lit "  * b"] [lit "c"]); reflexivity.
Defined.

Lemma quote_run_witness :
  step ascii_db conv_state0 ((lit "> a" :: [lit " >b"]) ++ [lit "c"]) =
    Some (Blockquote,
          append_html conv_state0
            ([lit "<blockquote>"] ++ map (quote_fragment ascii_db) (lit "> a" :: [lit " >b"])
             ++ [lit "</blockquote>"]),
          [lit "c"]).
Proof.
  apply (quote_run ascii_db conv_state0 (lit "> a") [lit " >b"] [lit "c"]); reflexivity.
Defined.

Lemma table_cells_fields_witness :
  table_cells ascii_db (lit "x " ++ ch "|" :: lit " a | b " ++ ch "|" :: lit " y") =
    map (strip ascii_db) (split_chr (ch "|") (lit " a | b ")) /\
  table_cells ascii_db (lit "x " ++ ch "|" :: lit " y") = [] /\
  table_cells ascii_db (lit "x ") = [].
Proof.
  apply (table_cells_fields ascii_db (lit "x ") (lit " a | b ") (lit " y"));
    vm_compute; intuition discriminate.
Defined.

Lemma ol_list_ends_witness :
  is_blank ascii_db (lit "text") = false /\ is_indented (lit "text") = false /\
  is_ol_item ascii_db (lit "text") = false.
Proof.
  apply (ol_list_ends ascii_db 3 (lit "1. a") [[]; lit "text"] [] [lit "<li>a</li>"]
           [lit "text"]); reflexivity.
Defined.

Lemma fence_parity_witness :
  exists st',
    convert_loop ascii_db 3 conv_state0 [lit "```"; lit "a | b"; lit "```x"] = Some st' /\
    in_code_block st' =
    xorb (in_code_block conv_state0)
         (Nat.odd (fence_count [lit "```"; lit "a | b"; lit "```x"])).
Proof.
  apply (fence_parity ascii_db 3 conv_state0 [lit "```"; lit "a | b"; lit "```x"]).
  - apply Nat.le_refl.
  - intros l [<-|[<-|[<-|[]]]] H; try reflexivity. discriminate H.
Defined.

Lemma plain_paragraph_witness :
  convert_md_to_html_body ascii_db (join [newline] (lit "a <b>c</b> & d" :: [lit "e"])) =
    Some (lit "<p>" ++ join (lit " ") (lit "a <b>c</b> & d" :: [lit "e"]) ++ lit "</p>").
Proof.
  apply (plain_paragraph ascii_db (lit "a <b>c</b> & d") [lit "e"]);
    [|reflexivity|reflexivity].
  intros x [<-|[<-|[]]]; (split; [vm_compute; intuition discriminate|reflexivity]).
Defined.

Lemma single_line_math_witness :
  step ascii_db conv_state0
       ((lit "  " ++ (lit "$$" ++ lit "a^2 < b" ++ lit "$$") ++ lit " ") :: []) =
    Some (MathBlock, append_html conv_state0 [math_div (lit "a^2 < b")], []).
Proof.
  apply (single_line_math ascii_db conv_state0 (lit "  ") (lit "a^2 < b") (lit " ") []);
    try reflexivity. discriminate.
Defined.

Lemma ol_item_number_dropped_witness :
  is_some (re_match (ol_pattern ascii_db) (lit "12" ++ ch "." :: ch " " :: lit "a*b*")) = true /\
  ol_item_head ascii_db (lit "12" ++ ch "." :: ch " " :: lit "a*b*") =
    process_inline_formatting (lit "a*b*").
Proof.
  apply (ol_item_number_dropped ascii_db (lit "12") (ch " ") (lit "a*b*"));
    [discriminate|reflexivity|reflexivity].
Defined.

Lemma table_separator_witness :
  table_fragments ascii_db (lit "| a |" :: lit "|---|" :: [lit "| 1 |"]) =
  table_fragments ascii_db (lit "| a |" :: [lit "| 1 |"]).
Proof.
  apply (table_separator ascii_db (lit "| a |") (lit "|---|") [lit "| 1 |"]); reflexivity.
Defined.
